(** * bitshard-sdk: a shallow embedding of the threshold-ECDSA wallet core

    The development follows the layout of the TypeScript sources:

    - [JS]          the JavaScript built-ins the sources rely on (string
                    slicing, [BigInt] parsing and printing, [Buffer] hex
                    codec, sparse arrays);
    - [Elliptic]    [src/crypto/elliptic.ts]: secp256k1 point decompression;
    - [Addresses]   [src/crypto/addresses.ts]: [compressPublicKey];
    - [Wire]        frames and the routing filters of [DKLSService] and
                    [DKLSParty];
    - [Lib]         the calls into the external DKLS, ethers and viem
                    libraries, as programs over library operations;
    - [Service]     [src/core/DKLSService.ts]: [executeDKG], [signMessage];
    - [SDK]         [src/BitShardSDK.ts]: [signHash];
    - [Party]       [src/core/DKLSParty.ts];
    - [PreSig]      [src/protocols/presignature.ts];
    - [Stub]        a stand-in library to run the programs on examples;
    - [Vocabulary]  the predicates the statements are written with;
    - [JSNumber]    more built-ins: [parseInt], 32-bit integers, typed arrays;
    - [Encoding]    [src/crypto/encoding.ts];
    - [Base58], [Address]  the rest of [src/crypto/addresses.ts];
    - [PartyMethods], [PreSigPool], [Chains], [Legacy]  further methods of
                    [DKLSParty], [PreSignatureManager], [BitShardSDK] and
                    [DKLSService].

    Definitions come first, the theorems about them follow.  [console.log]
    calls are left out: they change no result. *)

From Stdlib Require Import ZArith Lia Bool Ascii String.
From Stdlib.Strings Require Import Byte.
From stdpp Require Import base option list strings pretty gmap.

Local Open Scope Z_scope.

(** A JavaScript computation either returns a value or throws an [Error]
    carrying a message. *)
Inductive result (A : Type) : Type :=
| Ok (a : A)
| Throw (msg : string).
Arguments Ok {A} a.
Arguments Throw {A} msg.

Definition is_throw {A} (r : result A) : bool :=
  match r with Throw _ => true | Ok _ => false end.

Definition result_map {A B} (f : A -> B) (r : result A) : result B :=
  match r with Ok a => Ok (f a) | Throw msg => Throw msg end.

(* ================================================================== *)
(** ** JavaScript built-ins used by the sources *)
(* ================================================================== *)
Module JS.

(** [s.startsWith(pre)] *)
Fixpoint startsWith (pre s : string) : bool :=
  match pre, s with
  | EmptyString, _ => true
  | String a pre', String b s' => if Ascii.eqb a b then startsWith pre' s' else false
  | String _ _, EmptyString => false
  end.

(** [s.slice(a, b)] for [0 <= a <= b]; the end is clamped to the length. *)
Definition slice (a b : nat) (s : string) : string := String.substring a (b - a) s.

(** [s.slice(a)] *)
Definition slice_from (a : nat) (s : string) : string :=
  String.substring a (String.length s - a) s.

(** [s.replace(/^0x/, '')]: drop one leading "0x" when there is one. *)
Definition strip_0x (s : string) : string :=
  if startsWith "0x" s then slice_from 2 s else s.

(** The value of one hexadecimal digit, either case. *)
Definition hexDigitValue (c : ascii) : option Z :=
  let n := Z.of_nat (nat_of_ascii c) in
  if (48 <=? n) && (n <=? 57) then Some (n - 48)
  else if (97 <=? n) && (n <=? 102) then Some (n - 87)
  else if (65 <=? n) && (n <=? 70) then Some (n - 55)
  else None.

Fixpoint parseHex_acc (acc : Z) (s : string) : option Z :=
  match s with
  | EmptyString => Some acc
  | String c s' =>
      match hexDigitValue c with
      | Some d => parseHex_acc (acc * 16 + d) s'
      | None => None
      end
  end.

(** [BigInt('0x' + s)]: [None] stands for the [SyntaxError] thrown when [s]
    is empty or holds a character that is no hexadecimal digit.  (JavaScript
    also tolerates trailing white space, which a hexadecimal key never has.) *)
Definition BigInt_hex (s : string) : option Z :=
  match s with
  | EmptyString => None
  | _ => parseHex_acc 0 s
  end.

Definition hexDigitChar (d : Z) : ascii :=
  if d <? 10 then ascii_of_nat (Z.to_nat (d + 48))
  else ascii_of_nat (Z.to_nat (d + 87)).

Fixpoint hexDigits (fuel : nat) (n : Z) (acc : string) : string :=
  match fuel with
  | O => acc
  | S f =>
      let acc' := String (hexDigitChar (n mod 16)) acc in
      if n / 16 =? 0 then acc' else hexDigits f (n / 16) acc'
  end.

(** [n.toString(16)] on a BigInt: lowercase digits, no leading zero, a minus
    sign for negative numbers.  The fuel is the bit length of [n], which is
    at least its number of hexadecimal digits. *)
Definition toString16 (n : Z) : string :=
  if n <? 0 then String "-" (hexDigits (S (Z.to_nat (Z.log2 (- n)))) (- n) "")
  else hexDigits (S (Z.to_nat (Z.log2 n))) n "".

Fixpoint repeat_char (c : ascii) (k : nat) (s : string) : string :=
  match k with
  | O => s
  | S k' => String c (repeat_char c k' s)
  end.

(** [s.padStart(width, c)] with a one-character filler. *)
Definition padStart (width : nat) (c : ascii) (s : string) : string :=
  repeat_char c (width - String.length s) s.

(** [s.slice(-k)]: the last [k] characters. *)
Definition slice_last (k : nat) (s : string) : string :=
  slice_from (String.length s - k) s.

Definition lower_char (c : ascii) : ascii :=
  let n := nat_of_ascii c in
  if (65 <=? n)%nat && (n <=? 90)%nat then ascii_of_nat (n + 32) else c.

(** [s.toLowerCase()] on ASCII text. *)
Fixpoint toLowerCase (s : string) : string :=
  match s with
  | EmptyString => EmptyString
  | String c s' => String (lower_char c) (toLowerCase s')
  end.

(** [s.replace('0x', '')]: remove the first occurrence of "0x", wherever
    it is. *)
Fixpoint replace_first_0x (s : string) : string :=
  match s with
  | EmptyString => EmptyString
  | String c s' =>
      if startsWith "0x" s then slice_from 2 s else String c (replace_first_0x s')
  end.

(** A [Uint8Array] / [Buffer]. *)
Abbreviation bytes := (list byte).

Definition byte_of_Z (n : Z) : byte :=
  match Byte.of_N (Z.to_N n) with Some b => b | None => Byte.x00 end.

(** [Buffer.from(s, 'hex')]: decodes pairs of digits and stops at the first
    pair that is not hexadecimal (or at a trailing single character). *)
Fixpoint Buffer_from_hex (s : string) : bytes :=
  match s with
  | String a (String b s') =>
      match hexDigitValue a, hexDigitValue b with
      | Some hi, Some lo => byte_of_Z (hi * 16 + lo) :: Buffer_from_hex s'
      | _, _ => []
      end
  | _ => []
  end.

(** [Buffer.from(b).toString('hex')] *)
Fixpoint Buffer_to_hex (b : bytes) : string :=
  match b with
  | [] => EmptyString
  | x :: b' =>
      let n := Z.of_N (Byte.to_N x) in
      String (hexDigitChar (n / 16)) (String (hexDigitChar (n mod 16)) (Buffer_to_hex b'))
  end.

(** Sparse arrays: a slot that reads as [undefined] (a hole, or an assigned
    [undefined]) is [None]. *)
Abbreviation array A := (list (option A)).

(** [new Array(n)] *)
Definition new_Array {A} (n : nat) : array A := replicate n None.

(** [arr[i] = v]: in range the slot is overwritten, out of range the array
    grows and the slots in between are holes. *)
Definition array_set {A} (i : nat) (v : option A) (arr : array A) : array A :=
  if (i <? length arr)%nat then <[i := v]> arr
  else arr ++ replicate (i - length arr) None ++ [v].

(** [arr[i]]: [None] when the read gives [undefined]. *)
Definition array_get {A} (i : nat) (arr : array A) : option A :=
  match arr !! i with
  | Some v => v
  | None => None
  end.

End JS.

(* ================================================================== *)
(** ** src/crypto/elliptic.ts *)
(* ================================================================== *)
Module Elliptic.
Import JS.

(** The secp256k1 field prime, [2^256 - 2^32 - 977]. *)
Definition secp256k1_p : Z :=
  0xFFFFFFFFFFFFFFFFFFFFFFFFFFFFFFFFFFFFFFFFFFFFFFFFFFFFFFFEFFFFFC2F.

(** The [while (exp > 0n)] loop of [modPow], by recursion on the binary
    digits of [exp]: [exp % 2n === 1n] is the low bit, [exp >> 1n] drops it.
    BigInt [%] truncates towards zero, hence [Z.rem]. *)
Fixpoint modPow_loop (result base : Z) (exp : positive) (md : Z) : Z :=
  match exp with
  | xH => Z.rem (result * base) md
  | xO e => modPow_loop result (Z.rem (base * base) md) e md
  | xI e => modPow_loop (Z.rem (result * base) md) (Z.rem (base * base) md) e md
  end.

Definition modPow (base exp md : Z) : Z :=
  match exp with
  | Zpos e => modPow_loop 1 (Z.rem base md) e md
  | _ => 1
  end.

(** [modSqrt]: [Ok None] is the [null] result. *)
Definition modSqrt (a p : Z) : result (option Z) :=
  let legendreSymbol := modPow a (Z.quot (p - 1) 2) p in
  if negb (legendreSymbol =? 1) then Ok None
  else if Z.rem p 4 =? 3 then Ok (Some (modPow a (Z.quot (p + 1) 4) p))
  else Throw "Unsupported prime for square root".

(** [x.toString(16).padStart(64, '0')] *)
Definition hex64 (n : Z) : string := padStart 64 "0" (toString16 n).

Definition decompressPublicKey (compressedHex : string) : result string :=
  let cleanHex := strip_0x compressedHex in
  if negb (String.length cleanHex =? 66)%nat
  then Throw "Invalid compressed public key length"
  else
    let prefix := slice 0 2 cleanHex in
    if negb (String.eqb prefix "02") && negb (String.eqb prefix "03")
    then Throw "Invalid compressed public key prefix"
    else
      match BigInt_hex (slice_from 2 cleanHex) with
      | None => Throw "SyntaxError: Cannot convert to a BigInt"
      | Some x =>
          let p := secp256k1_p in
          let a := 0 in
          let b := 7 in
          let x3 := modPow x 3 p in
          let ax := Z.rem (a * x) p in
          let y2 := Z.rem (x3 + ax + b) p in
          match modSqrt y2 p with
          | Throw e => Throw e
          | Ok None => Throw "Invalid public key - no valid y coordinate"
          | Ok (Some y0) =>
              let isEven := Z.rem y0 2 =? 0 in
              let shouldBeEven := String.eqb prefix "02" in
              let y := if negb (Bool.eqb isEven shouldBeEven) then p - y0 else y0 in
              let xHex := hex64 x in
              let yHex := hex64 y in
              Ok (xHex +:+ yHex)
          end
      end.

Definition isCompressedPublicKey (publicKeyHex : string) : bool :=
  let cleanHex := strip_0x publicKeyHex in
  if (String.length cleanHex =? 66)%nat
  then
    let prefix := slice 0 2 cleanHex in
    String.eqb prefix "02" || String.eqb prefix "03"
  else false.

(** The decimal rendering of a length inside a template string. *)
Definition show_nat (n : nat) : string := pretty n.

Definition getUncompressedPublicKey (publicKeyHex : string) : result string :=
  let cleanHex := strip_0x publicKeyHex in
  if isCompressedPublicKey cleanHex then decompressPublicKey cleanHex
  else if startsWith "04" cleanHex then Ok (slice_from 2 cleanHex)
  else if (String.length cleanHex =? 128)%nat then Ok cleanHex
  else Throw ("Invalid public key format: " +:+ show_nat (String.length cleanHex)
              +:+ " hex chars").

(** The two exponents [modSqrt] uses at the secp256k1 prime. *)
Definition legendre_exp : Z := Z.quot (secp256k1_p - 1) 2.
Definition sqrt_exp : Z := Z.quot (secp256k1_p + 1) 4.

End Elliptic.

(* ================================================================== *)
(** ** src/crypto/addresses.ts *)
(* ================================================================== *)
Module Addresses.
Import JS.

Definition compressPublicKey (publicKeyHex : string) : result string :=
  let cleanHex :=
    if startsWith "04" publicKeyHex then slice_from 2 publicKeyHex else publicKeyHex in
  let x := slice 0 64 cleanHex in
  let y := slice 64 128 cleanHex in
  match BigInt_hex y with
  | None => Throw "SyntaxError: Cannot convert to a BigInt"
  | Some yBigInt =>
      let prefix := if Z.rem yBigInt 2 =? 0 then "02" else "03" in
      Ok (prefix +:+ x)
  end.

End Addresses.


(* ================================================================== *)
(** ** Frames and routing *)
(* ================================================================== *)
Module Wire.
Import JS.

(** A frame [{ from_id, to_id?, payload }].  The library's [Message] carries
    raw bytes, the [WireMessage] of [core/types.ts] a base64 string. *)
Record Frame (P : Type) : Type := mkFrame {
  from_id : nat;
  to_id : option nat;
  payload : P
}.
Arguments mkFrame {P} _ _ _.
Arguments from_id {P} _.
Arguments to_id {P} _.
Arguments payload {P} _.

Abbreviation Message := (Frame bytes).
Abbreviation WireMessage := (Frame string).

Definition opt_nat_eqb (a b : option nat) : bool :=
  match a, b with
  | Some x, Some y => (x =? y)%nat
  | None, None => true
  | _, _ => false
  end.

(** [DKLSService.filterMessages] (and its copy in [PreSignatureManager]):
    [msgs.filter(m => m.from_id !== party).map(m => m.clone())].
    Frames are values here, so [clone] is the identity. *)
Definition filterMessages {P} (msgs : list (Frame P)) (party : nat) : list (Frame P) :=
  filter (fun m => negb (from_id m =? party)%nat = true) msgs.

(** [DKLSService.selectMessages]:
    [msgs.filter(m => m.to_id === party).map(m => m.clone())]. *)
Definition selectMessages {P} (msgs : list (Frame P)) (party : nat) : list (Frame P) :=
  filter (fun m => opt_nat_eqb (to_id m) (Some party) = true) msgs.

(** [DKLSParty.filterIncomingMessages], for the party with id [partyId]. *)
Definition filterIncomingMessages {P} (partyId : nat) (messages : list (Frame P))
  : list (Frame P) :=
  filter (fun m => negb (from_id m =? partyId)%nat = true)
    (filter (fun m => opt_nat_eqb (to_id m) None || opt_nat_eqb (to_id m) (Some partyId) = true)
       messages).

(** The two selections as the specification words them. *)
Definition spec_broadcast_select {P} (p : nat) (f : Frame P) : Prop :=
  to_id f = None /\ from_id f <> p.

Definition spec_p2p_select {P} (p : nat) (f : Frame P) : Prop :=
  to_id f = Some p /\ from_id f <> p.

#[global] Instance spec_broadcast_select_dec {P} p (f : Frame P) :
  Decision (spec_broadcast_select p f).
Proof. unfold spec_broadcast_select. apply _. Defined.

#[global] Instance spec_p2p_select_dec {P} p (f : Frame P) :
  Decision (spec_p2p_select p f).
Proof. unfold spec_p2p_select. apply _. Defined.

End Wire.

(* ================================================================== *)
(** ** Calls into the external libraries *)
(* ================================================================== *)
Module Lib.
Import JS Wire.

(** A reference to an object that lives inside the DKLS WebAssembly library
    (a [Keyshare], a [KeygenSession] or a [SignSession]). *)
Abbreviation handle := nat.

(** A chain-code commitment (the sources type it [any]). *)
Abbreviation Commitment := bytes.

(** The operations of the libraries the SDK is built on:
    [@silencelaboratories/dkls-wasm-ll-node], [ethers], [viem] and Node's
    base64 codec.  Their behaviour is not part of this repository; a program
    only issues the calls and continues with the answers. *)
Inductive Op : Type -> Type :=
| KeyshareToBytes (ks : handle) : Op bytes
| KeyshareFromBytes (b : bytes) : Op handle
| KeygenCreateFirstMessage (s : handle) : Op Message
| KeygenHandleMessages (s : handle) (msgs : list Message)
    (commitments : option (array Commitment)) : Op (list Message)
| KeygenCalculateChainCodeCommitment (s : handle) : Op Commitment
| KeygenKeyshare (s : handle) : Op handle
| SignSessionNew (ks : handle) (path : string) : Op handle
| SignCreateFirstMessage (s : handle) : Op Message
| SignHandleMessages (s : handle) (msgs : list Message) : Op (list Message)
| SignLastMessage (s : handle) (messageHash : bytes) : Op Message
| SignCombine (s : handle) (msgs : list Message) : Op (list bytes)
| EthersRecoverAddress (digest r s : string) (v : Z) : Op string
| ViemKeccak256 (hex : string) : Op string
| Base64Encode (b : bytes) : Op string
| Base64Decode (s : string) : Op bytes.

(** A program over the libraries: it returns, or calls an operation and
    continues with the answer, which is a value or a thrown error. *)
Inductive Prog (R : Type) : Type :=
| Ret (r : R)
| Call {X : Type} (op : Op X) (k : result X -> Prog R).
Arguments Ret {R} r.
Arguments Call {R X} op k.

Fixpoint pbind {A B} (m : Prog A) (f : A -> Prog B) : Prog B :=
  match m with
  | Ret a => f a
  | Call op k => Call op (fun x => pbind (k x) f)
  end.

(** Programs that may throw. *)
Definition E (A : Type) : Type := Prog (result A).

Definition ret {A} (a : A) : E A := Ret (Ok a).
Definition throw {A} (msg : string) : E A := Ret (Throw msg).
Definition call {X} (op : Op X) : E X := Call op Ret.

Definition ebind {A B} (m : E A) (f : A -> E B) : E B :=
  pbind m (fun r => match r with Ok a => f a | Throw msg => Ret (Throw msg) end).

(** [try { m } catch (error) { h error.message }] *)
Definition try_catch {A} (m : E A) (h : string -> E A) : E A :=
  pbind m (fun r => match r with Ok a => Ret (Ok a) | Throw msg => h msg end).

Notation "'let*' x ':=' m 'in' k" := (ebind m (fun x => k))
  (at level 10, x pattern, m at level 100, k at level 200).

(** [l.map((a, idx) => f a idx)], the callbacks run in order. *)
Fixpoint mapM_from {A B} (idx : nat) (f : A -> nat -> E B) (l : list A) : E (list B) :=
  match l with
  | [] => ret []
  | a :: l' =>
      let* b := f a idx in
      let* bs := mapM_from (S idx) f l' in
      ret (b :: bs)
  end.

Definition mapM {A B} (f : A -> nat -> E B) (l : list A) : E (list B) :=
  mapM_from 0 f l.

(** [l.flatMap((a, idx) => f a idx)] *)
Definition flatMapM {A B} (f : A -> nat -> E (list B)) (l : list A) : E (list B) :=
  let* bss := mapM f l in ret (concat bss).

(** [l.forEach((a, idx) => f a idx)] *)
Definition forEachM {A B} (f : A -> nat -> E B) (l : list A) : E unit :=
  let* _ := mapM f l in ret tt.

(** An environment answers the calls; [W] is whatever state the libraries
    keep. *)
Definition Env (W : Type) : Type := forall X, Op X -> W -> result X * W.

Fixpoint run {W R} (env : Env W) (m : Prog R) (w : W) : R * W :=
  match m with
  | Ret r => (r, w)
  | Call op k => let '(x, w') := env _ op w in run env (k x) w'
  end.

(** What happened in a run: each call with the answer it got, in order. *)
Inductive Event : Type := event (X : Type) (op : Op X) (answer : result X).
Arguments event {X} op answer.

Fixpoint history {W R} (env : Env W) (m : Prog R) (w : W) : list Event :=
  match m with
  | Ret _ => []
  | Call op k => let '(x, w') := env _ op w in event op x :: history env (k x) w'
  end.

(** The calls a program makes, in order. *)
Inductive AnyOp : Type := anyOp (X : Type) (op : Op X).
Arguments anyOp {X} op.

Definition event_op (e : Event) : AnyOp :=
  match e with event op _ => anyOp op end.

Definition calls {W R} (env : Env W) (m : Prog R) (w : W) : list AnyOp :=
  map event_op (history env m w).

End Lib.

(* ================================================================== *)
(** ** src/core/DKLSService.ts *)
(* ================================================================== *)
Module Service.
Import JS Wire Lib Elliptic.

(** [this.filterMessages(msgs, selfIds[idx]!)].  The [!] is a compile-time
    assertion only: were the index out of range, [party] would be
    [undefined] and [m.from_id !== undefined] would keep every frame. *)
Definition filterMessages_at (msgs : list Message) (selfIds : list nat) (idx : nat)
  : list Message :=
  match selfIds !! idx with
  | Some party => filterMessages msgs party
  | None => msgs
  end.

(** [this.selectMessages(msgs, selfIds[idx]!)]; with [party] undefined,
    [m.to_id === undefined] keeps the frames without recipient. *)
Definition selectMessages_at (msgs : list Message) (selfIds : list nat) (idx : nat)
  : list Message :=
  match selfIds !! idx with
  | Some party => selectMessages msgs party
  | None => filter (fun m => opt_nat_eqb (to_id m) None = true) msgs
  end.

(** The commitments vector of [executeDKG]:
    [const commitments = new Array(parties.length);
     selfIds.forEach((id, idx) => { commitments[id] = commitmentsRaw[idx]; })] *)
Fixpoint assign_commitments (selfIds : list nat) (idx : nat)
    (commitmentsRaw : list Commitment) (commitments : array Commitment)
  : array Commitment :=
  match selfIds with
  | [] => commitments
  | id :: rest =>
      assign_commitments rest (S idx) commitmentsRaw
        (array_set id (commitmentsRaw !! idx) commitments)
  end.

Definition index_commitments (nparties : nat) (selfIds : list nat)
    (commitmentsRaw : list Commitment) : array Commitment :=
  assign_commitments selfIds 0 commitmentsRaw (new_Array nparties).

(** [executeDKG(parties)]: the four keygen rounds over local sessions. *)
Definition executeDKG (parties : list handle) : E (list handle) :=
  (* Round 1 *)
  let* msg1 := mapM (fun p _ => call (KeygenCreateFirstMessage p)) parties in
  let selfIds := map from_id msg1 in
  let* msg2 := flatMapM (fun p idx =>
      call (KeygenHandleMessages p (filterMessages_at msg1 selfIds idx) None)) parties in
  (* chain code commitments, indexed by party id *)
  let* commitmentsRaw :=
    mapM (fun p _ => call (KeygenCalculateChainCodeCommitment p)) parties in
  let commitments := index_commitments (length parties) selfIds commitmentsRaw in
  let* msg3 := flatMapM (fun p idx =>
      call (KeygenHandleMessages p (selectMessages_at msg2 selfIds idx) None)) parties in
  let* msg4 := flatMapM (fun p idx =>
      call (KeygenHandleMessages p (selectMessages_at msg3 selfIds idx) (Some commitments)))
      parties in
  let* _ := forEachM (fun p idx =>
      call (KeygenHandleMessages p (filterMessages_at msg4 selfIds idx) None)) parties in
  mapM (fun p _ => call (KeygenKeyshare p)) parties.

(** [deriveEthereumAddress] of [crypto/addresses.ts]. *)
Definition deriveEthereumAddress (publicKeyHex : string) : E string :=
  let cleanHex := strip_0x publicKeyHex in
  match getUncompressedPublicKey cleanHex with
  | Throw msg => throw msg
  | Ok uncompressedKey =>
      let* hash := call (ViemKeccak256 ("0x" +:+ uncompressedKey)) in
      let address := "0x" +:+ slice_last 40 hash in
      ret (toLowerCase address)
  end.

Record SignatureResult : Type := mkSignatureResult {
  signature : string;
  sig_r : string;
  sig_s : string;
  sig_v : Z
}.

(** The [for (const testV of [27, 28])] loop of [signMessage].  The [try]
    block of one iteration recovers the address and compares it; [matched]
    says whether it ran into [v = testV; break].  A throwing recovery is
    swallowed by the [catch] and the loop goes on. *)
Fixpoint try_recovery (candidates : list Z) (msgHashHex r s expectedAddress : string)
    (v : Z) : E Z :=
  match candidates with
  | [] => ret v
  | testV :: rest =>
      let* matched :=
        try_catch
          (let* recoveredAddress :=
             call (EthersRecoverAddress msgHashHex ("0x" +:+ r) ("0x" +:+ s) testV) in
           ret (String.eqb (toLowerCase recoveredAddress) (toLowerCase expectedAddress)))
          (fun _ => ret false) in
      if matched : bool then ret testV
      else try_recovery rest msgHashHex r s expectedAddress v
  end.

(** [if (publicKey)]: the option is given and the string is not empty. *)
Definition truthy (publicKey : option string) : option string :=
  match publicKey with
  | Some EmptyString => None
  | other => other
  end.

Definition signMessage (messageHash : bytes) (keyshares : list handle)
    (threshold : nat) (publicKey : option string) : E SignatureResult :=
  try_catch
    (if (length keyshares <? threshold)%nat
     then throw ("Insufficient keyshares: need " +:+ show_nat threshold +:+ ", got "
                 +:+ show_nat (length keyshares))
     else
       (* Clone keyshares since SignSession consumes them *)
       let* signingShares := mapM (fun ks _ =>
           let* bytes := call (KeyshareToBytes ks) in
           call (KeyshareFromBytes bytes)) (take threshold keyshares) in
       let* parties := mapM (fun ks _ => call (SignSessionNew ks "m")) signingShares in
       (* Round 1 *)
       let* msg1 := mapM (fun p _ => call (SignCreateFirstMessage p)) parties in
       let selfIds := map from_id msg1 in
       let* msg2 := flatMapM (fun p idx =>
           call (SignHandleMessages p (filterMessages_at msg1 selfIds idx))) parties in
       let* msg3 := flatMapM (fun p idx =>
           call (SignHandleMessages p (selectMessages_at msg2 selfIds idx))) parties in
       let* _ := forEachM (fun p idx =>
           call (SignHandleMessages p (selectMessages_at msg3 selfIds idx))) parties in
       (* online round *)
       let* msg4 := mapM (fun p _ => call (SignLastMessage p messageHash)) parties in
       let* signatures := mapM (fun p idx =>
           call (SignCombine p (filterMessages_at msg4 selfIds idx))) parties in
       match signatures with
       | (r_bytes :: s_bytes :: _) :: _ =>
           let r := Buffer_to_hex r_bytes in
           let s := Buffer_to_hex s_bytes in
           let signatureHex := r +:+ s in
           let* v :=
             match truthy publicKey with
             | Some pk =>
                 let* expectedAddress := deriveEthereumAddress pk in
                 let msgHashHex := "0x" +:+ Buffer_to_hex messageHash in
                 try_recovery [27; 28] msgHashHex r s expectedAddress 27
             | None => ret 27
             end in
           ret {| signature := "0x" +:+ signatureHex;
                  sig_r := "0x" +:+ r;
                  sig_s := "0x" +:+ s;
                  sig_v := v |}
       | _ => throw "TypeError: signature components are undefined"
       end)
    (fun msg => throw ("Failed to sign message: " +:+ msg)).

End Service.

(* ================================================================== *)
(** ** src/BitShardSDK.ts *)
(* ================================================================== *)
Module SDK.
Import JS Wire Lib Elliptic Service.

(** The [hash: string | Uint8Array] argument of [signHash]. *)
Inductive HashInput : Type :=
| HashString (s : string)
| HashBytes (b : bytes).

Record SignOptions : Type := mkSignOptions {
  opt_threshold : option nat;
  opt_publicKey : option string
}.

Definition hashBytes_of (hash : HashInput) : bytes :=
  match hash with
  | HashString s => Buffer_from_hex (replace_first_0x s)
  | HashBytes b => b
  end.

Definition signHash (hash : HashInput) (keyshares : list handle) (options : SignOptions)
  : E SignatureResult :=
  let hashBytes := hashBytes_of hash in
  if negb (length hashBytes =? 32)%nat
  then throw ("Invalid hash length: expected 32 bytes, got "
              +:+ show_nat (length hashBytes))
  else
    let threshold := default (length keyshares) (opt_threshold options) in
    let publicKey := opt_publicKey options in
    signMessage hashBytes keyshares threshold publicKey.

End SDK.

(* ================================================================== *)
(** ** src/core/DKLSParty.ts *)
(* ================================================================== *)
Module Party.
Import JS Wire Lib.

Record PartyConfig : Type := mkPartyConfig {
  cfg_partyId : nat;
  cfg_totalParties : nat;
  cfg_threshold : nat
}.

(** The mutable fields of a [DKLSParty]; [None] is [undefined]. *)
Record DKLSParty : Type := mkParty {
  config : PartyConfig;
  keygenSession : option handle;
  signSession : option handle;
  keyshare : option handle;
  messageQueue : list WireMessage
}.

Definition set_signSession (s : option handle) (self : DKLSParty) : DKLSParty :=
  {| config := config self; keygenSession := keygenSession self;
     signSession := s; keyshare := keyshare self;
     messageQueue := messageQueue self |}.

Definition set_keyshare (k : option handle) (self : DKLSParty) : DKLSParty :=
  {| config := config self; keygenSession := keygenSession self;
     signSession := signSession self; keyshare := k;
     messageQueue := messageQueue self |}.

Definition partyId (self : DKLSParty) : nat := cfg_partyId (config self).

(** [DKLSService.toWireMessage] / [fromWireMessage] *)
Definition toWireMessage (msg : Message) : E WireMessage :=
  let* payload := call (Base64Encode (payload msg)) in
  ret (mkFrame (from_id msg) (to_id msg) payload).

Definition fromWireMessage (w : WireMessage) : E Message :=
  let* bytes := call (Base64Decode (payload w)) in
  ret (mkFrame (from_id w) (to_id w) bytes).

(** A method returns its result, or the error it throws, together with the
    state the object is left in. *)
Definition Method (A : Type) : Type := Prog (result A * DKLSParty).

Definition lift {A} (self : DKLSParty) (m : E A) : Method A :=
  pbind m (fun r => Ret (r, self)).

Definition initializeSigning (keyshare_arg : option handle) (derivationPath : string)
    (self : DKLSParty) : Method unit :=
  match signSession self with
  | Some _ => Ret (Throw "Sign session already initialized", self)
  | None =>
      let shareToUse :=
        match keyshare_arg with Some k => Some k | None => keyshare self end in
      match shareToUse with
      | None => Ret (Throw "No keyshare available for signing", self)
      | Some share =>
          Call (SignSessionNew share derivationPath) (fun r =>
            match r with
            | Throw msg => Ret (Throw msg, self)
            | Ok s =>
                let self1 := set_signSession (Some s) self in
                let self2 :=
                  match keyshare_arg, keyshare self1 with
                  | None, Some _ => set_keyshare None self1
                  | _, _ => self1
                  end in
                Ret (Ok tt, self2)
            end)
      end
  end.

Definition lastMessage (messageHash : bytes) (self : DKLSParty) : Method WireMessage :=
  match signSession self with
  | None => Ret (Throw "No active sign session", self)
  | Some s =>
      lift self (let* msg := call (SignLastMessage s messageHash) in toWireMessage msg)
  end.

Definition combine (messages : list WireMessage) (self : DKLSParty)
  : Method (bytes * bytes) :=
  match signSession self with
  | None => Ret (Throw "No active sign session", self)
  | Some s =>
      pbind (let* dklsMessages := mapM (fun m _ => fromWireMessage m) messages in
             call (SignCombine s dklsMessages))
        (fun r =>
           match r with
           | Throw msg => Ret (Throw msg, self)
           | Ok signature =>
               (* Session is consumed after combine *)
               let self' := set_signSession None self in
               match signature with
               | [sig0; sig1] => Ret (Ok (sig0, sig1), self')
               | _ => Ret (Throw "Invalid signature format", self')
               end
           end)
  end.

Definition hasActiveSession (self : DKLSParty) : bool :=
  match keygenSession self, signSession self with
  | None, None => false
  | _, _ => true
  end.

Inductive SessionType : Type := keygen | signing | none.

Definition getSessionType (self : DKLSParty) : SessionType :=
  match keygenSession self with
  | Some _ => keygen
  | None => match signSession self with Some _ => signing | None => none end
  end.

End Party.

(* ================================================================== *)
(** ** src/protocols/presignature.ts *)
(* ================================================================== *)
Module PreSig.
Import JS Wire Lib.

(** A [PreSignature] object ([core/types.ts]); [createdAt] is a timestamp. *)
Record PreSignature : Type := mkPreSignature {
  id : string;
  parties : list handle;
  createdAt : Z;
  consumed : bool
}.

Definition set_consumed (ps : PreSignature) : PreSignature :=
  {| id := id ps; parties := parties ps; createdAt := createdAt ps; consumed := true |}.

(** [PreSignature] objects are shared by reference between the caller and
    the manager's pool: they live in a heap, and the manager and its callers
    hold locations. *)
Abbreviation loc := nat.

Record State : Type := mkState {
  consumedPreSignatures : gset string;
  preSignaturePool : gmap string loc;
  heap : gmap loc PreSignature
}.

Definition Method (A : Type) : Type := Prog (result A * State).

Definition signWithPreSignature (messageHash : bytes) (preSignature : loc)
    (st : State) : Method (option (list bytes)) :=
  match heap st !! preSignature with
  | None => Ret (Throw "TypeError: preSignature is undefined", st)
  | Some ps =>
      if bool_decide (id ps ∈ consumedPreSignatures st)
      then Ret (Throw ("CRITICAL: Pre-signature has already been used! " +:+
                       "Reusing pre-signatures exposes the private key!"), st)
      else if consumed ps
      then Ret (Throw "Pre-signature has already been consumed", st)
      else
        (* Mark as consumed IMMEDIATELY *)
        let st' :=
          {| consumedPreSignatures := {[ id ps ]} ∪ consumedPreSignatures st;
             preSignaturePool := preSignaturePool st;
             heap := <[preSignature := set_consumed ps]> (heap st) |} in
        let parties := parties ps in
        let selfIds := seq 0 (length parties) in
        pbind
          (let* msg4 := mapM (fun p _ => call (SignLastMessage p messageHash)) parties in
           let* signatures := mapM (fun p idx =>
               call (SignCombine p (Service.filterMessages_at msg4 selfIds idx))) parties in
           ret (head signatures))
          (fun r => Ret (r, st'))
  end.

Definition isConsumed (id : string) (st : State) : bool :=
  bool_decide (id ∈ consumedPreSignatures st).

End PreSig.

(* ================================================================== *)
(** ** A stand-in for the libraries, to run the programs on examples *)
(* ================================================================== *)
Module Stub.
Import JS Wire Lib.

(** The stand-in keeps the live [Keyshare] objects with their serialisation.
    [fromBytes] allocates a fresh object, [new SignSession] consumes its
    keyshare (calling into a freed object throws), the rounds answer with
    empty batches, a session's chain-code commitment is the byte of its
    number, [lastMessage] insists on a 32-byte hash, [combine] gives
    a fixed pair, and address recovery always yields [recovered]. *)
Abbreviation World := (gmap handle bytes).

Definition null_pointer {X} : result X := Throw "null pointer passed to rust".

Definition env (recovered : string) : Env World :=
  fun X op =>
    match op in Op X return World -> result X * World with
    | KeyshareToBytes ks => fun w =>
        match w !! ks with
        | Some b => (Ok b, w)
        | None => (null_pointer, w)
        end
    | KeyshareFromBytes b => fun w =>
        let ks := fresh (dom w) in (Ok ks, <[ks := b]> w)
    | KeygenCreateFirstMessage s => fun w => (Ok (mkFrame s None []), w)
    | KeygenHandleMessages s msgs commitments => fun w => (Ok [], w)
    | KeygenCalculateChainCodeCommitment s => fun w =>
        (Ok [byte_of_Z (Z.of_nat s)], w)
    | KeygenKeyshare s => fun w =>
        let ks := fresh (dom w) in (Ok ks, <[ks := []]> w)
    | SignSessionNew ks path => fun w =>
        match w !! ks with
        | Some _ => (Ok ks, delete ks w)
        | None => (null_pointer, w)
        end
    | SignCreateFirstMessage s => fun w => (Ok (mkFrame s None []), w)
    | SignHandleMessages s msgs => fun w => (Ok [], w)
    | SignLastMessage s messageHash => fun w =>
        if (length messageHash =? 32)%nat
        then (Ok (mkFrame s None []), w)
        else (Throw "Invalid message hash length", w)
    | SignCombine s msgs => fun w => (Ok [[Byte.x01]; [Byte.x02]], w)
    | EthersRecoverAddress digest r s v => fun w => (Ok recovered, w)
    | ViemKeccak256 hex => fun w =>
        (Ok "0xaaaaaaaaaaaaaaaaaaaaaaaaaaaaaaaaaaaaaaaaaaaaaaaaaaaaaaaaaaaaaaaa", w)
    | Base64Encode b => fun w => (Ok "", w)
    | Base64Decode s => fun w => (Ok [], w)
    end.

(** Two keyshares, objects 0 and 1. *)
Definition two_shares : World := <[0%nat := [Byte.x00]]> (<[1%nat := [Byte.x01]]> ∅).

End Stub.

(* ================================================================== *)
(** ** Vocabulary of the statements *)
(* ================================================================== *)
Module Vocabulary.
Import JS Wire Lib.

Section WithEnv.
Context {W : Type} (env : Env W).

(** [holds m Q w]: running [m] from [w] ends in a result and a world that
    satisfy [Q]. *)
Definition holds {R} (m : Prog R) (Q : R -> W -> Prop) (w : W) : Prop :=
  Q (run env m w).1 (run env m w).2.

(** For a program that may throw: [Q] on a value, [I] kept on a throw. *)
Definition on_ok {A} (Q : A -> W -> Prop) (I : W -> Prop) : result A -> W -> Prop :=
  fun r w => match r with Ok a => Q a w | Throw _ => I w end.

(** [m] keeps the invariant [I] of the world, whether it returns or throws. *)
Definition preserves {A} (I : W -> Prop) (m : E A) : Prop :=
  forall w, I w -> holds m (on_ok (fun _ w' => I w') I) w.

(** What the program relies on from the library about [Keyshare] objects.
    [view w h] is the state of the keyshare object behind [h] ([None] when
    there is no live object).  Serialising reads only; deserialising
    creates an object where there was none; a [SignSession] consumes the
    keyshare it is built from and nothing else; the protocol rounds, the
    hashing and the address recovery do not touch keyshares. *)
Record KeyshareContract {K : Type} (view : W -> handle -> option K) : Prop := {
  toBytes_reads : forall ks w h,
    view (env _ (KeyshareToBytes ks) w).2 h = view w h;
  fromBytes_fresh : forall b w,
    match env _ (KeyshareFromBytes b) w with
    | (Ok k, w') => view w k = None /\ forall h, h <> k -> view w' h = view w h
    | (Throw _, w') => forall h, view w' h = view w h
    end;
  signNew_consumes_one : forall ks path w h,
    h <> ks -> view (env _ (SignSessionNew ks path) w).2 h = view w h;
  signFirst_keeps : forall s w h,
    view (env _ (SignCreateFirstMessage s) w).2 h = view w h;
  signHandle_keeps : forall s msgs w h,
    view (env _ (SignHandleMessages s msgs) w).2 h = view w h;
  signLast_keeps : forall s mh w h,
    view (env _ (SignLastMessage s mh) w).2 h = view w h;
  signCombine_keeps : forall s msgs w h,
    view (env _ (SignCombine s msgs) w).2 h = view w h;
  recover_keeps : forall d r s v w h,
    view (env _ (EthersRecoverAddress d r s v) w).2 h = view w h;
  keccak_keeps : forall x w h,
    view (env _ (ViemKeccak256 x) w).2 h = view w h
}.


(** [m] can only return values that satisfy [P]. *)
Definition returns_only {A} (P : A -> Prop) (m : E A) : Prop :=
  forall w, holds m (on_ok (fun a _ => P a) (fun _ => True)) w.

End WithEnv.

(** The environment [env] with a log of the calls it answered. *)
Definition logging {W} (env : Env W) : Env (W * list Event) :=
  fun X op wl =>
    let '(x, w') := env X op wl.1 in (x, (w', wl.2 ++ [event op x])).

(** The commitments vector a call hands to a keygen session, if it does. *)
Definition commitments_arg (e : Event) : option (array Commitment) :=
  match e with
  | event (KeygenHandleMessages _ _ commitments) _ => commitments
  | _ => None
  end.

(** The keyshare object a call serialises, if it is [toBytes]. *)
Definition serialised_keyshare (e : Event) : option handle :=
  match e with
  | event (KeyshareToBytes ks) _ => Some ks
  | _ => None
  end.

(** The keyshare object a call builds a [SignSession] on, if it does. *)
Definition session_keyshare (e : Event) : option handle :=
  match e with
  | event (SignSessionNew ks _) _ => Some ks
  | _ => None
  end.

(** In the run recorded in [h], [k] is the object [fromBytes] answered for
    the bytes [toBytes] answered on [ks]. *)
Definition copy_of (h : list Event) (ks k : handle) : Prop :=
  exists b, event (KeyshareToBytes ks) (Ok b) ∈ h /\ event (KeyshareFromBytes b) (Ok k) ∈ h.

(** The digest a call hands to the library's online round, if it is one. *)
Definition online_digest (o : AnyOp) : option bytes :=
  match o with
  | anyOp (SignLastMessage _ messageHash) => Some messageHash
  | _ => None
  end.

(** Every keyshare object that was live in [w0] is, in [w], as it was. *)
Definition kept {W K} (view : W -> handle -> option K) (w0 w : W) : Prop :=
  forall h, is_Some (view w0 h) -> view w h = view w0 h.

(** [k] was no live keyshare object in [w0]. *)
Definition fresh_share {W K} (view : W -> handle -> option K) (w0 : W) (k : handle)
  : Prop :=
  view w0 k = None.



End Vocabulary.

(* ================================================================== *)
(** ** More JavaScript built-ins: numbers and typed arrays *)
(* ================================================================== *)
Module JSNumber.
Import JS.

(** The value of a [Uint8Array] element. *)
Definition byteValue (b : byte) : Z := Z.of_N (Byte.to_N b).

(** [ToInt32] of an integer-valued number: the bitwise operators of
    JavaScript work on the signed 32-bit reading of their operands. *)
Definition ToInt32 (n : Z) : Z := (n + 2 ^ 31) mod 2 ^ 32 - 2 ^ 31.

(** Storing a number into a [Uint8Array]: [NaN] ([None]) is stored as 0, an
    integer modulo 256. *)
Definition ToUint8 (n : option Z) : byte :=
  match n with
  | Some z => byte_of_Z (z mod 256)
  | None => Byte.x00
  end.

(** White space and line terminators among the code units below 256. *)
Definition isWhiteSpace (c : ascii) : bool :=
  let n := nat_of_ascii c in
  ((9 <=? n)%nat && (n <=? 13)%nat) || (n =? 32)%nat || (n =? 160)%nat.

Fixpoint trimStart (s : string) : string :=
  match s with
  | String c s' => if isWhiteSpace c then trimStart s' else s
  | EmptyString => EmptyString
  end.

(** The digits [parseInt] reads: the longest prefix of hexadecimal digits,
    as the number it denotes; [None] when there is no digit. *)
Fixpoint parseDigits (acc : option Z) (s : string) : option Z :=
  match s with
  | String c s' =>
      match hexDigitValue c with
      | Some d => parseDigits (Some (default 0 acc * 16 + d)) s'
      | None => acc
      end
  | EmptyString => acc
  end.

(** [parseInt(s, 16)]: leading white space, an optional sign, an optional
    "0x" or "0X", then hexadecimal digits up to the first other character;
    [None] is [NaN].  (The result is exact as long as it fits a double,
    which two digits do.) *)
Definition parseInt16 (s : string) : option Z :=
  let s1 := trimStart s in
  let '(sign, s2) :=
    match s1 with
    | String "-" r => (-1, r)
    | String "+" r => (1, r)
    | _ => (1, s1)
    end in
  let s3 := if startsWith "0x" s2 || startsWith "0X" s2 then slice_from 2 s2 else s2 in
  match parseDigits None s3 with
  | Some n => Some (sign * n)
  | None => None
  end.

(** [target.set(source, offset)] on typed arrays. *)
Definition typed_set (source : bytes) (offset : nat) (target : bytes) : result bytes :=
  if (offset + length source <=? length target)%nat
  then Ok (take offset target ++ source ++ drop (offset + length source) target)
  else Throw "RangeError: offset is out of bounds".

End JSNumber.

(* ================================================================== *)
(** ** src/crypto/encoding.ts *)
(* ================================================================== *)
Module Encoding.
Import JS JSNumber.

(** [hexToBytes]: every pair [cleanHex.substr(i * 2, 2)] goes through
    [parseInt(_, 16)] and is stored into the [Uint8Array]. *)
Definition hexToBytes (hex : string) : result bytes :=
  let cleanHex := strip_0x hex in
  if negb (String.length cleanHex mod 2 =? 0)%nat
  then Throw "Hex string must have even length"
  else
    Ok (map (fun i => ToUint8 (parseInt16 (String.substring (i * 2) 2 cleanHex)))
          (seq 0 (String.length cleanHex / 2))).

(** [bytesToHex(bytes, prefix = false)] *)
Definition bytesToHex (bytes : bytes) (prefix : bool) : string :=
  let hex :=
    String.concat "" (map (fun b => padStart 2 "0" (toString16 (byteValue b))) bytes) in
  if prefix then "0x" +:+ hex else hex.

(** [bufferToHex(buffer, prefix = false)] *)
Definition bufferToHex (buffer : bytes) (prefix : bool) : string :=
  let hex := Buffer_to_hex buffer in
  if prefix then "0x" +:+ hex else hex.

Definition hexToBuffer (hex : string) : bytes :=
  let cleanHex := strip_0x hex in
  Buffer_from_hex cleanHex.

(** [concatBytes(...arrays)] *)
Fixpoint concatBytes_loop (arrays : list bytes) (offset : nat) (combined : bytes)
  : result bytes :=
  match arrays with
  | [] => Ok combined
  | arr :: rest =>
      match typed_set arr offset combined with
      | Throw msg => Throw msg
      | Ok combined' => concatBytes_loop rest (offset + length arr) combined'
      end
  end.

Definition concatBytes (arrays : list bytes) : result bytes :=
  let totalLength := fold_left (fun sum arr => (sum + length arr)%nat) arrays 0%nat in
  concatBytes_loop arrays 0 (replicate totalLength Byte.x00).

(** [bytesEqual]: the loop [for (let i = 0; i < a.length; i++)], with
    [todo] iterations left. *)
Fixpoint bytesEqual_loop (todo i : nat) (a b : bytes) : bool :=
  match todo with
  | O => true
  | S todo' =>
      match a !! i, b !! i with
      | Some x, Some y =>
          if negb (Byte.eqb x y) then false else bytesEqual_loop todo' (S i) a b
      | None, None => bytesEqual_loop todo' (S i) a b
      | _, _ => false
      end
  end.

Definition bytesEqual (a b : bytes) : bool :=
  if negb (length a =? length b)%nat then false
  else bytesEqual_loop (length a) 0 a b.

(** [numberToBytes(num, bytes = 4)] for an integer [num]: the loop
    [for (let i = bytes - 1; i >= 0; i--)], entered with [i + 1] in [todo]. *)
Fixpoint numberToBytes_loop (todo : nat) (num : Z) (arr : bytes) : bytes :=
  match todo with
  | O => arr
  | S i =>
      let arr' := <[i := ToUint8 (Some (Z.land (ToInt32 num) 255))]> arr in
      numberToBytes_loop i (Z.shiftr (ToInt32 num) 8) arr'
  end.

Definition numberToBytes (num : Z) (nbytes : nat) : bytes :=
  numberToBytes_loop nbytes num (replicate nbytes Byte.x00).

(** [bytesToNumber]: [num = (num << 8) | byte]. *)
Definition bytesToNumber (bytes : bytes) : Z :=
  fold_left
    (fun num byte => Z.lor (ToInt32 (Z.shiftl (ToInt32 num) 8)) (byteValue byte))
    bytes 0.

(** [bigintToBytes(bigint, length?)] *)
Definition bigintToBytes (bigint : Z) (length_arg : option nat) : result bytes :=
  let hex := toString16 bigint in
  let hex := if negb (String.length hex mod 2 =? 0)%nat then "0" +:+ hex else hex in
  match hexToBytes hex with
  | Throw msg => Throw msg
  | Ok bytes =>
      match length_arg with
      | Some len =>
          if negb (len =? 0)%nat && (length bytes <? len)%nat
          then typed_set bytes (len - length bytes) (replicate len Byte.x00)
          else Ok bytes
      | None => Ok bytes
      end
  end.

(** [bytesToBigint] *)
Definition bytesToBigint (bytes : bytes) : result Z :=
  if (length bytes =? 0)%nat then Ok 0
  else
    match BigInt_hex (bytesToHex bytes false) with
    | Some n => Ok n
    | None => Throw "SyntaxError: Cannot convert to a BigInt"
    end.

End Encoding.

(* ================================================================== *)
(** ** src/crypto/addresses.ts, continued *)
(* ================================================================== *)
Module Base58.
Import JS JSNumber.

Definition ALPHABET : string :=
  "123456789ABCDEFGHJKLMNPQRSTUVWXYZabcdefghijkmnopqrstuvwxyz".

(** [ALPHABET[i] + encoded]; an index outside the alphabet would read
    [undefined]. *)
Definition prepend_digit (i : Z) (encoded : string) : string :=
  match String.get (Z.to_nat i) ALPHABET with
  | Some c => String c encoded
  | None => "undefined" +:+ encoded
  end.

(** The loop [while (num > 0n)] of [base58Encode]. *)
Fixpoint encode_loop (fuel : nat) (num : Z) (encoded : string) : string :=
  match fuel with
  | O => encoded
  | S f =>
      if 0 <? num then
        let remainder := Z.rem num 58 in
        encode_loop f (Z.quot num 58) (prepend_digit remainder encoded)
      else encoded
  end.

(** The number of leading zero bytes:
    [for (let i = 0; i < buffer.length && buffer[i] === 0; i++)]. *)
Fixpoint leading_zero_bytes (buffer : bytes) : nat :=
  match buffer with
  | b :: rest => if byteValue b =? 0 then S (leading_zero_bytes rest) else O
  | [] => O
  end.

(** [base58Encode(buffer)].  The loop runs once per base-58 digit of [num],
    so the bit length of [num] is fuel enough. *)
Definition base58Encode (buffer : bytes) : result string :=
  match BigInt_hex (Buffer_to_hex buffer) with
  | None => Throw "SyntaxError: Cannot convert 0x to a BigInt"
  | Some num =>
      let encoded := encode_loop (S (Z.to_nat (Z.log2 num))) num "" in
      Ok (repeat_char "1" (leading_zero_bytes buffer) encoded)
  end.

(** [ALPHABET_MAP], filled by [ALPHABET_MAP[ALPHABET[i]] = BigInt(i)] for
    [i] from [i0] on. *)
Fixpoint fill_map (alphabet : string) (i0 : Z) (m : ascii -> option Z)
  : ascii -> option Z :=
  match alphabet with
  | EmptyString => m
  | String c rest =>
      fill_map rest (i0 + 1) (fun x => if Ascii.eqb x c then Some i0 else m x)
  end.

Definition ALPHABET_MAP : ascii -> option Z := fill_map ALPHABET 0 (fun _ => None).

(** [for (const char of encoded) num = num * base + ALPHABET_MAP[char]];
    adding [undefined] to a BigInt throws a [TypeError]. *)
Fixpoint decode_loop (encoded : string) (num : Z) : result Z :=
  match encoded with
  | EmptyString => Ok num
  | String char rest =>
      match ALPHABET_MAP char with
      | Some d => decode_loop rest (num * 58 + d)
      | None => Throw "TypeError: Cannot mix BigInt and other types"
      end
  end.

(** The number of leading '1' characters. *)
Fixpoint leading_ones (encoded : string) : nat :=
  match encoded with
  | String char rest => if Ascii.eqb char "1" then S (leading_ones rest) else O
  | EmptyString => O
  end.

(** [base58Decode(encoded)] *)
Definition base58Decode (encoded : string) : result bytes :=
  match decode_loop encoded 0 with
  | Throw msg => Throw msg
  | Ok num =>
      let hex := toString16 num in
      let hex := if negb (String.length hex mod 2 =? 0)%nat then "0" +:+ hex else hex in
      let buffer := Buffer_from_hex hex in
      let leadingZeros := leading_ones encoded in
      Ok (replicate leadingZeros Byte.x00 ++ buffer)
  end.

End Base58.

Module Address.
Import JS JSNumber Lib Elliptic Addresses Base58.

(** [isValidEthereumAddress]: the test [/^0x[a-fA-F0-9]{40}$/]. *)
Fixpoint all_hex (s : string) : bool :=
  match s with
  | EmptyString => true
  | String c s' => match hexDigitValue c with Some _ => all_hex s' | None => false end
  end.

Definition isValidEthereumAddress (address : string) : bool :=
  startsWith "0x" address && (String.length address =? 42)%nat
  && all_hex (slice_from 2 address).

(** [deriveEthereumAddressFromBytes] *)
Definition deriveEthereumAddressFromBytes (publicKey : bytes) : E string :=
  let pubKeyBytes :=
    match publicKey with
    | b :: rest => if byteValue b =? 4 then rest else publicKey
    | [] => publicKey
    end in
  let pubKeyHex := Buffer_to_hex pubKeyBytes in
  Service.deriveEthereumAddress pubKeyHex.

Inductive Network : Type := mainnet | testnet | regtest.

Section Hashes.
(** Node's [crypto.createHash(name).update(data).digest()] for the two
    digests the addresses are built from. *)
Variable sha256 : bytes -> bytes.
Variable ripemd160 : bytes -> bytes.

(** [deriveBitcoinAddress(publicKeyHex, network = 'mainnet')] *)
Definition deriveBitcoinAddress (publicKeyHex : string) (network : Network)
  : result string :=
  let cleanHex := strip_0x publicKeyHex in
  match compressPublicKey cleanHex with
  | Throw msg => Throw msg
  | Ok compressedPubKey =>
      let sha256Hash := sha256 (Buffer_from_hex compressedPubKey) in
      let ripemd160Hash := ripemd160 sha256Hash in
      let versionByte :=
        match network with mainnet => Byte.x00 | _ => Byte.x6f end in
      let versionedPayload := [versionByte] ++ ripemd160Hash in
      let checksum := take 4 (sha256 (sha256 versionedPayload)) in
      let finalPayload := versionedPayload ++ checksum in
      base58Encode finalPayload
  end.

(** [deriveCosmosAddress(publicKeyHex, prefix = 'cosmos')] *)
Definition deriveCosmosAddress (publicKeyHex : string) (prefix : string)
  : result string :=
  let cleanHex := strip_0x publicKeyHex in
  match compressPublicKey cleanHex with
  | Throw msg => Throw msg
  | Ok compressedPubKey =>
      let sha256Hash := sha256 (Buffer_from_hex compressedPubKey) in
      let ripemd160Hash := ripemd160 sha256Hash in
      Ok (prefix +:+ "1" +:+ String.substring 0 38 (Buffer_to_hex ripemd160Hash))
  end.

End Hashes.

End Address.

(* ================================================================== *)
(** ** Vocabulary of the codec statements *)
(* ================================================================== *)
Module CodecVocabulary.
Import JS JSNumber.

(** The big-endian value of a byte string. *)
Definition be_value (acc : Z) (b : bytes) : Z :=
  fold_left (fun n x => n * 256 + byteValue x) b acc.

(** One byte as [Buffer] prints it. *)
Definition hex_pair (b : byte) : string :=
  String (hexDigitChar (byteValue b / 16)) (String (hexDigitChar (byteValue b mod 16)) "").

(** The pairs a string is read in. *)
Fixpoint map_pairs {A} (f : string -> A) (s : string) : list A :=
  match s with
  | String a (String c rest) => f (String a (String c "")) :: map_pairs f rest
  | _ => []
  end.

(** The [k] low bytes of [n], most significant first. *)
Fixpoint be_bytes (k : nat) (n : Z) : bytes :=
  match k with
  | O => []
  | S k' => be_bytes k' (n / 256) ++ [byte_of_Z (n mod 256)]
  end.

End CodecVocabulary.

(* ================================================================== *)
(** ** src/core/DKLSParty.ts, continued *)
(* ================================================================== *)
Module PartyMethods.
Import JS Wire Lib Party.

Definition set_keygenSession (s : option handle) (self : DKLSParty) : DKLSParty :=
  {| config := config self; keygenSession := s;
     signSession := signSession self; keyshare := keyshare self;
     messageQueue := messageQueue self |}.

Definition set_messageQueue (q : list WireMessage) (self : DKLSParty) : DKLSParty :=
  {| config := config self; keygenSession := keygenSession self;
     signSession := signSession self; keyshare := keyshare self;
     messageQueue := q |}.

Definition createFirstMessage (self : DKLSParty) : Method WireMessage :=
  match keygenSession self with
  | Some s =>
      lift self (let* msg := call (KeygenCreateFirstMessage s) in toWireMessage msg)
  | None =>
      match signSession self with
      | Some s =>
          lift self (let* msg := call (SignCreateFirstMessage s) in toWireMessage msg)
      | None => Ret (Throw "No active session", self)
      end
  end.

(** [handleMessages(messages, commitments?)]: the messages are decoded
    before the session is looked at. *)
Definition handleMessages (messages : list WireMessage)
    (commitments : option (array Commitment)) (self : DKLSParty)
  : Method (list WireMessage) :=
  lift self
    (let* dklsMessages := mapM (fun m _ => fromWireMessage m) messages in
     match keygenSession self with
     | Some s =>
         let* responses := call (KeygenHandleMessages s dklsMessages commitments) in
         mapM (fun m _ => toWireMessage m) responses
     | None =>
         match signSession self with
         | Some s =>
             let* responses := call (SignHandleMessages s dklsMessages) in
             mapM (fun m _ => toWireMessage m) responses
         | None => throw "No active session"
         end
     end).

Definition calculateChainCodeCommitment (self : DKLSParty) : Method Commitment :=
  match keygenSession self with
  | None => Ret (Throw "No active keygen session", self)
  | Some s => lift self (call (KeygenCalculateChainCodeCommitment s))
  end.

Definition finalizeKeygen (self : DKLSParty) : Method handle :=
  match keygenSession self with
  | None => Ret (Throw "No active keygen session", self)
  | Some s =>
      Call (KeygenKeyshare s) (fun r =>
        match r with
        | Throw msg => Ret (Throw msg, self)
        | Ok k =>
            (* Session is consumed *)
            Ret (Ok k, set_keygenSession None (set_keyshare (Some k) self))
        end)
  end.

Definition getKeyshare (self : DKLSParty) : option handle := keyshare self.

Definition setKeyshare (k : handle) (self : DKLSParty) : DKLSParty :=
  set_keyshare (Some k) self.

(** [serializeKeyshare()]: [Ok None] is the [undefined] result. *)
Definition serializeKeyshare (self : DKLSParty) : Method (option string) :=
  match keyshare self with
  | None => Ret (Ok None, self)
  | Some k =>
      lift self
        (let* bytes := call (KeyshareToBytes k) in
         let* data := call (Base64Encode bytes) in
         ret (Some data))
  end.

Definition deserializeKeyshare (data : string) (self : DKLSParty) : Method unit :=
  pbind (let* bytes := call (Base64Decode data) in call (KeyshareFromBytes bytes))
    (fun r =>
       match r with
       | Throw msg => Ret (Throw msg, self)
       | Ok k => Ret (Ok tt, set_keyshare (Some k) self)
       end).

Definition queueMessage (message : WireMessage) (self : DKLSParty) : DKLSParty :=
  set_messageQueue (messageQueue self ++ [message]) self.

(** [getQueuedMessages()]: the queued messages and the party with its queue
    emptied. *)
Definition getQueuedMessages (self : DKLSParty) : list WireMessage * DKLSParty :=
  (messageQueue self, set_messageQueue [] self).

Definition reset (self : DKLSParty) : DKLSParty :=
  {| config := config self; keygenSession := None; signSession := None;
     keyshare := keyshare self; messageQueue := [] |}.

End PartyMethods.

(* ================================================================== *)
(** ** src/protocols/presignature.ts, continued *)
(* ================================================================== *)
Module PreSigPool.
Import JS Wire Lib PreSig.

(** Whether the object at [l] is a pre-signature not yet consumed. *)
Definition unconsumed_at (st : State) (l : loc) : bool :=
  match heap st !! l with
  | Some ps => negb (consumed ps)
  | None => false
  end.

(** [getAvailableCount()]:
    [Array.from(pool.values()).filter(ps => !ps.consumed).length]. *)
Definition getAvailableCount (st : State) : nat :=
  length (filter (fun l => unconsumed_at st l = true)
            (map snd (map_to_list (preSignaturePool st)))).

(** [cleanupConsumed()]: the pool without the entries whose pre-signature
    is consumed. *)
Definition cleanupConsumed (st : State) : State :=
  {| consumedPreSignatures := consumedPreSignatures st;
     preSignaturePool :=
       filter (fun entry => unconsumed_at st entry.2 = true) (preSignaturePool st);
     heap := heap st |}.

End PreSigPool.

(* ================================================================== *)
(** ** src/BitShardSDK.ts and src/core/DKLSService.ts, continued *)
(* ================================================================== *)
Module Chains.

Section WithConfig.
(** A [ChainConfig] object. *)
Variable ChainConfig : Type.

(** The [chains] table of a [BitShardSDK] is a [Map<string, ChainConfig>]. *)
Definition configureChain (name : string) (config : ChainConfig) (chains : gmap string ChainConfig)
  : gmap string ChainConfig :=
  <[name := config]> chains.

Definition getChainConfig (name : string) (chains : gmap string ChainConfig)
  : option ChainConfig :=
  chains !! name.

(** [getPresetChain]: "Re-use initialized chains". *)
Definition getPresetChain (name : string) (chains : gmap string ChainConfig)
  : option ChainConfig :=
  chains !! name.

Definition usePresetChain (name : string) (chains : gmap string ChainConfig)
  : result (gmap string ChainConfig) :=
  match getPresetChain name chains with
  | Some preset => Ok (<[name := preset]> chains)
  | None => Throw ("Unknown preset chain: " +:+ name)
  end.

End WithConfig.

End Chains.

Module Legacy.
Import JS Wire Lib Service.

(** [DKLSService.signMessageLegacy] *)
Definition signMessageLegacy (messageHash : bytes)
    (serverShareData backupShareData : string) : E SignatureResult :=
  let* serverBytes := call (Base64Decode serverShareData) in
  let* serverKeyshare := call (KeyshareFromBytes serverBytes) in
  let* backupBytes := call (Base64Decode backupShareData) in
  let* backupKeyshare := call (KeyshareFromBytes backupBytes) in
  signMessage messageHash [serverKeyshare; backupKeyshare] 2 None.

(** [BitShardSDK.serializeKeyshares] / [deserializeKeyshares] *)
Definition serializeKeyshares (keyshares : list handle) : E (list string) :=
  mapM (fun ks _ =>
          let* bytes := call (KeyshareToBytes ks) in
          call (Base64Encode bytes)) keyshares.

Definition deserializeKeyshares (serialized : list string) : E (list handle) :=
  mapM (fun b64 _ =>
          let* bytes := call (Base64Decode b64) in
          call (KeyshareFromBytes bytes)) serialized.

End Legacy.

(* ================================================================== *)
(** ** A second stand-in library, with a codec that can be undone *)
(* ================================================================== *)
Module StubCodec.
Import JS Wire Lib.

(** As [Stub.env], except that the base64 codec is replaced by a pair of
    functions that undo each other (the hexadecimal codec of [Buffer]). *)
Definition env (recovered : string) : Env Stub.World :=
  fun X op =>
    match op in Op X return Stub.World -> result X * Stub.World with
    | Base64Encode b => fun w => (Ok (Buffer_to_hex b), w)
    | Base64Decode s => fun w => (Ok (Buffer_from_hex s), w)
    | other => Stub.env recovered _ other
    end.

End StubCodec.
(* ================================================================== *)
(** * Theorems *)
(* ================================================================== *)

(** ** Strings and hexadecimal numerals *)
Section JSFacts.
Import JS.

Lemma substring_all s : String.substring 0 (String.length s) s = s.
Proof. induction s as [| c s IH]; cbn; [reflexivity | now rewrite IH]. Qed.

Lemma substring_length a n s :
  String.length (String.substring a n s) = Nat.min n (String.length s - a).
Proof.
  revert a n. induction s as [| c s IH]; intros [| a] [| n]; cbn; try reflexivity.
  - now rewrite IH, Nat.sub_0_r.
  - apply IH.
  - apply IH.
Qed.

Lemma strip_0x_length s :
  String.length (strip_0x s) = String.length s \/
  String.length (strip_0x s) = (String.length s - 2)%nat.
Proof.
  unfold strip_0x. destruct (startsWith "0x" s); [right | now left].
  unfold slice_from. rewrite substring_length. lia.
Qed.

Lemma hexDigitValue_range c d : hexDigitValue c = Some d -> 0 <= d < 16.
Proof.
  unfold hexDigitValue. intros H.
  repeat match type of H with
         | (if ?b then _ else _) = _ => destruct b eqn:?
         end; inversion H; subst; lia.
Qed.

Lemma parseHex_acc_bounds s : forall acc x,
  0 <= acc -> parseHex_acc acc s = Some x ->
  acc * 16 ^ Z.of_nat (String.length s) <= x
  < (acc + 1) * 16 ^ Z.of_nat (String.length s).
Proof.
  induction s as [| c s IH]; intros acc x Hacc H; cbn [parseHex_acc] in H.
  - inversion H; subst. cbn. lia.
  - destruct (hexDigitValue c) as [d |] eqn:Hd; [| discriminate].
    apply hexDigitValue_range in Hd.
    apply IH in H; [| lia].
    cbn [String.length]. rewrite Nat2Z.inj_succ, Z.pow_succ_r by lia.
    assert (0 < 16 ^ Z.of_nat (String.length s)) by (apply Z.pow_pos_nonneg; lia).
    nia.
Qed.

Lemma BigInt_hex_bounds s x :
  BigInt_hex s = Some x -> 0 <= x < 16 ^ Z.of_nat (String.length s).
Proof.
  intros H. assert (parseHex_acc 0 s = Some x) as H'.
  { destruct s; [discriminate | exact H]. }
  apply parseHex_acc_bounds in H'; lia.
Qed.

Lemma append_cons x (a b : string) : String x a +:+ b = String x (a +:+ b).
Proof. reflexivity. Qed.

Lemma append_nil (b : string) : "" +:+ b = b.
Proof. reflexivity. Qed.

Lemma append_assoc (a b c : string) : (a +:+ b) +:+ c = a +:+ (b +:+ c).
Proof.
  induction a as [| x a IH]; [reflexivity |].
  now rewrite !append_cons, IH.
Qed.

Lemma length_append (a b : string) :
  String.length (a +:+ b) = (String.length a + String.length b)%nat.
Proof.
  induction a as [| x a IH]; [reflexivity |].
  rewrite append_cons. cbn [String.length]. now rewrite IH.
Qed.

Lemma parseHex_acc_app s1 : forall s2 acc,
  parseHex_acc acc (s1 +:+ s2) =
  match parseHex_acc acc s1 with
  | Some acc' => parseHex_acc acc' s2
  | None => None
  end.
Proof.
  induction s1 as [| c s1 IH]; intros s2 acc; [reflexivity |].
  rewrite append_cons.
  cbn [parseHex_acc]. destruct (hexDigitValue c); [apply IH | reflexivity].
Qed.

Lemma hexDigits_acc f : forall n acc,
  hexDigits f n acc = hexDigits f n "" +:+ acc.
Proof.
  induction f as [| f IH]; intros n acc; [reflexivity |].
  cbn [hexDigits]. destruct (n / 16 =? 0); [reflexivity |].
  rewrite (IH _ (String _ acc)), (IH _ (String _ "")).
  now rewrite append_assoc.
Qed.

Lemma hexDigit_roundtrip d : 0 <= d < 16 -> hexDigitValue (hexDigitChar d) = Some d.
Proof.
  intros H.
  assert (d = 0 \/ d = 1 \/ d = 2 \/ d = 3 \/ d = 4 \/ d = 5 \/ d = 6 \/ d = 7 \/
          d = 8 \/ d = 9 \/ d = 10 \/ d = 11 \/ d = 12 \/ d = 13 \/ d = 14 \/ d = 15)
    as Hd by lia.
  repeat (destruct Hd as [-> | Hd]; [reflexivity |]). now subst.
Qed.

(** With enough fuel the digits printed for [n] parse back to [n]. *)
Lemma hexDigits_parse f : forall n,
  0 <= n < 16 ^ Z.of_nat f -> (0 < f)%nat ->
  parseHex_acc 0 (hexDigits f n "") = Some n.
Proof.
  induction f as [| f IH]; intros n Hn Hf; [lia |].
  cbn [hexDigits].
  assert (0 <= n mod 16 < 16) as Hd by (apply Z.mod_pos_bound; lia).
  destruct (n / 16 =? 0) eqn:Hq.
  - apply Z.eqb_eq in Hq. cbn [parseHex_acc].
    rewrite hexDigit_roundtrip by assumption. cbn [parseHex_acc]. f_equal.
    pose proof (Z.div_mod n 16). lia.
  - apply Z.eqb_neq in Hq.
    rewrite hexDigits_acc, parseHex_acc_app.
    rewrite Nat2Z.inj_succ, Z.pow_succ_r in Hn by lia.
    assert (0 <= n / 16 < 16 ^ Z.of_nat f) as Hn'.
    { split; [apply Z.div_pos; lia | apply Z.div_lt_upper_bound; lia]. }
    destruct f as [| f']; [cbn in Hn'; lia |].
    rewrite IH by (try assumption; lia).
    cbn [parseHex_acc]. rewrite hexDigit_roundtrip by assumption.
    cbn [parseHex_acc]. f_equal. pose proof (Z.div_mod n 16). lia.
Qed.

Lemma hexDigits_nonempty f n : (0 < f)%nat -> hexDigits f n "" <> "".
Proof.
  destruct f as [| f]; [lia |]. intros _. cbn [hexDigits].
  destruct (n / 16 =? 0); [discriminate |].
  rewrite hexDigits_acc. destruct (hexDigits f (n / 16) ""); discriminate.
Qed.

(** The printed numeral has at most [d] digits when [n < 16 ^ d]. *)
Lemma hexDigits_length f : forall n d,
  0 <= n < 16 ^ Z.of_nat d -> (0 < d)%nat ->
  (String.length (hexDigits f n "") <= d)%nat.
Proof.
  induction f as [| f IH]; intros n d Hn Hd; [cbn; lia |].
  cbn [hexDigits]. destruct (n / 16 =? 0) eqn:Hq; [cbn; lia |].
  apply Z.eqb_neq in Hq.
  rewrite hexDigits_acc, length_append. cbn [String.length].
  destruct d as [| d]; [lia |].
  rewrite Nat2Z.inj_succ, Z.pow_succ_r in Hn by lia.
  assert (0 <= n / 16 < 16 ^ Z.of_nat d) as Hn'.
  { split; [apply Z.div_pos; lia | apply Z.div_lt_upper_bound; lia]. }
  destruct d as [| d'].
  - cbn in Hn'. assert (n / 16 = 0) by lia. contradiction.
  - specialize (IH (n / 16) (S d') Hn' ltac:(lia)). lia.
Qed.

Lemma toString16_fuel n :
  0 <= n -> n < 16 ^ Z.of_nat (S (Z.to_nat (Z.log2 n))).
Proof.
  intros Hn. destruct (Z.eq_dec n 0) as [-> | Hne]; [now vm_compute |].
  pose proof (Z.log2_spec n ltac:(lia)) as [_ Hlt].
  pose proof (Z.log2_nonneg n) as Hl.
  rewrite Nat2Z.inj_succ, Z2Nat.id by lia.
  eapply Z.lt_le_trans; [exact Hlt |].
  change 16 with (2 ^ 4). rewrite <- Z.pow_mul_r by lia.
  apply Z.pow_le_mono_r; lia.
Qed.

Lemma repeat_char_length c k s :
  String.length (repeat_char c k s) = (k + String.length s)%nat.
Proof. induction k as [| k IH]; cbn; [reflexivity | now rewrite IH]. Qed.

Lemma parse_repeat_zero k : forall s,
  parseHex_acc 0 (repeat_char "0" k s) = parseHex_acc 0 s.
Proof. induction k as [| k IH]; intros s; [reflexivity | exact (IH s)]. Qed.

Lemma substring_app_l a : forall b,
  String.substring 0 (String.length a) (a +:+ b) = a.
Proof.
  induction a as [| c a IH]; intros b.
  - rewrite append_nil. now destruct b.
  - rewrite append_cons. cbn [String.length String.substring]. now rewrite IH.
Qed.

Lemma substring_app_r a : forall b,
  String.substring (String.length a) (String.length b) (a +:+ b) = b.
Proof.
  induction a as [| c a IH]; intros b.
  - rewrite append_nil. apply substring_all.
  - rewrite append_cons. cbn [String.length String.substring]. apply IH.
Qed.

End JSFacts.

(** ** Modular exponentiation *)
Section ModPow.
Import Elliptic.

Lemma rem_mod a b : 0 <= a -> 0 < b -> Z.rem a b = a mod b.
Proof. intros. apply Z.rem_mod_nonneg; lia. Qed.

Lemma mul_pow_mod r c e m :
  0 < m -> 0 <= e -> (r * (c mod m) ^ e) mod m = (r * c ^ e) mod m.
Proof.
  intros Hm He.
  rewrite <- (Z.mul_mod_idemp_r r ((c mod m) ^ e)) by lia.
  rewrite Z.mod_pow_l.
  rewrite Z.mul_mod_idemp_r by lia. reflexivity.
Qed.

Lemma modPow_loop_spec e : forall r b m,
  0 < m -> 0 <= r -> 0 <= b ->
  modPow_loop r b e m = (r * b ^ Zpos e) mod m.
Proof.
  induction e as [e IH | e IH |]; intros r b m Hm Hr Hb; cbn [modPow_loop].
  - rewrite !rem_mod by nia.
    rewrite IH by (try apply Z.mod_pos_bound; lia).
    rewrite mul_pow_mod by lia.
    rewrite Z.mul_mod_idemp_l by lia.
    f_equal. rewrite Pos2Z.inj_xI, Z.pow_add_r, Z.pow_mul_r, Z.pow_2_r, Z.pow_1_r by lia.
    ring.
  - rewrite !rem_mod by nia.
    rewrite IH by (try apply Z.mod_pos_bound; lia).
    rewrite mul_pow_mod by lia.
    f_equal. rewrite Pos2Z.inj_xO, Z.pow_mul_r, Z.pow_2_r by lia. reflexivity.
  - rewrite rem_mod by nia. rewrite Z.pow_1_r. reflexivity.
Qed.

Lemma modPow_spec b e m :
  0 <= b -> 0 < e -> 0 < m -> modPow b e m = (b ^ e) mod m.
Proof.
  intros Hb He Hm. destruct e as [| e | e]; try lia.
  unfold modPow. rewrite rem_mod by lia.
  rewrite modPow_loop_spec by (try apply Z.mod_pos_bound; lia).
  rewrite Z.mul_1_l. apply Z.mod_pow_l.
Qed.

End ModPow.

(** ** Point decompression *)
Section Decompress.
Import JS Elliptic.

Local Abbreviation p := secp256k1_p.

Lemma p_pos : 0 < p.
Proof. now vm_compute. Qed.

Lemma exps_facts :
  0 < legendre_exp /\ 0 < sqrt_exp /\ sqrt_exp + sqrt_exp = legendre_exp + 1.
Proof. vm_compute. repeat split. Qed.

Lemma p_odd : p mod 2 = 1.
Proof. now vm_compute. Qed.

(** When the Legendre power of [a] is 1, the candidate root squares to [a]
    and is a nonzero field element. *)
Lemma sqrt_candidate a :
  0 <= a ->
  modPow a legendre_exp p = 1 ->
  let beta := modPow a sqrt_exp p in
  (beta * beta) mod p = a mod p /\ 0 < beta < p.
Proof.
  intros Ha Hleg beta.
  destruct exps_facts as (Hh & Hk & Hkk).
  pose proof p_pos as Hp.
  rewrite modPow_spec in Hleg by assumption.
  assert (Hsq : (beta * beta) mod p = a mod p).
  { subst beta. rewrite modPow_spec by assumption.
    rewrite <- Z.mul_mod by lia.
    rewrite <- Z.pow_add_r by lia. rewrite Hkk.
    rewrite Z.pow_add_r, Z.pow_1_r by lia.
    rewrite <- Z.mul_mod_idemp_l by lia. rewrite Hleg.
    now rewrite Z.mul_1_l. }
  split; [exact Hsq |].
  assert (0 <= beta < p) as Hb.
  { subst beta. rewrite modPow_spec by assumption. apply Z.mod_pos_bound. lia. }
  destruct (Z.eq_dec beta 0) as [H0 | H0]; [| lia].
  exfalso. rewrite H0 in Hsq. cbn [Z.mul] in Hsq. rewrite Z.mod_0_l in Hsq by lia.
  rewrite <- Z.mod_pow_l, <- Hsq in Hleg.
  rewrite Z.pow_0_l in Hleg by lia. rewrite Z.mod_0_l in Hleg by lia. discriminate Hleg.
Qed.


(** The curve right-hand side as [decompressPublicKey] computes it. *)
Lemma curve_rhs x :
  0 <= x ->
  Z.rem (modPow x 3 p + Z.rem (0 * x) p + 7) p = (x ^ 3 + 7) mod p.
Proof.
  intros Hx. pose proof p_pos as Hp.
  rewrite modPow_spec by lia.
  cbn [Z.mul]. rewrite Z.rem_0_l by lia. rewrite Z.add_0_r.
  assert (0 <= (x ^ 3) mod p < p) by (apply Z.mod_pos_bound; lia).
  rewrite rem_mod by lia.
  now rewrite Z.add_mod_idemp_l by lia.
Qed.

(** What [decompressPublicKey] does on a 33-byte input with a legal prefix
    and hexadecimal digits [xs] of value [x]. *)
Lemma decompress_unfold c pre xs x :
  strip_0x c = pre +:+ xs ->
  pre = "02" \/ pre = "03" ->
  String.length xs = 64%nat ->
  BigInt_hex xs = Some x ->
  decompressPublicKey c =
    if modPow ((x ^ 3 + 7) mod p) legendre_exp p =? 1
    then
      let beta := modPow ((x ^ 3 + 7) mod p) sqrt_exp p in
      Ok (hex64 x +:+
          hex64 (if negb (Bool.eqb (Z.rem beta 2 =? 0) (String.eqb pre "02"))
                 then p - beta else beta))
    else Throw "Invalid public key - no valid y coordinate".
Proof.
  intros Hclean Hpre Hlen Hx.
  pose proof (BigInt_hex_bounds _ _ Hx) as [Hx0 _].
  assert (Hl : String.length (pre +:+ xs) = 66%nat)
    by (destruct Hpre; subst pre; change (S (S (String.length xs)) = 66%nat);
        now rewrite Hlen).
  assert (Hsl : slice 0 2 (pre +:+ xs) = pre)
    by (destruct Hpre; subst pre; destruct xs; reflexivity).
  assert (Hrest : slice_from 2 (pre +:+ xs) = xs).
  { unfold slice_from. rewrite Hl.
    destruct Hpre; subst pre;
      change (String.substring 0 64 xs = xs); rewrite <- Hlen; apply substring_all. }
  unfold decompressPublicKey.
  rewrite Hclean, Hl, Hsl, Hrest, Hx. cbn [Nat.eqb negb].
  replace (negb (String.eqb pre "02") && negb (String.eqb pre "03")) with false
    by (destruct Hpre; subst pre; reflexivity).
  cbv zeta. rewrite curve_rhs by assumption.
  unfold modSqrt. fold legendre_exp. fold sqrt_exp.
  replace (Z.rem p 4 =? 3) with true by (now vm_compute).
  destruct (modPow ((x ^ 3 + 7) mod p) legendre_exp p =? 1); reflexivity.
Qed.

End Decompress.

Section Hex64.
Import JS Elliptic.

Lemma toString16_nonneg n :
  0 <= n -> toString16 n = hexDigits (S (Z.to_nat (Z.log2 n))) n "".
Proof.
  intros Hn. unfold toString16.
  destruct (n <? 0) eqn:Hlt; [apply Z.ltb_lt in Hlt; lia | reflexivity].
Qed.

Lemma hex64_parse n : 0 <= n -> BigInt_hex (hex64 n) = Some n.
Proof.
  intros Hn. unfold hex64, padStart. rewrite toString16_nonneg by assumption.
  set (f := S (Z.to_nat (Z.log2 n))).
  pose proof (hexDigits_nonempty f n ltac:(lia)) as Hne.
  pose proof (hexDigits_parse f n (conj Hn (toString16_fuel n Hn)) ltac:(lia)) as Hp.
  set (k := (64 - String.length (hexDigits f n ""))%nat).
  unfold BigInt_hex.
  destruct (repeat_char "0" k (hexDigits f n "")) eqn:Hr.
  - destruct k; cbn in Hr; [contradiction | discriminate].
  - rewrite <- Hr, parse_repeat_zero. exact Hp.
Qed.

Lemma hex64_length n : 0 <= n < 16 ^ 64 -> String.length (hex64 n) = 64%nat.
Proof.
  intros Hn. unfold hex64, padStart. rewrite repeat_char_length.
  rewrite toString16_nonneg by lia.
  pose proof (hexDigits_length (S (Z.to_nat (Z.log2 n))) n 64 Hn ltac:(lia)).
  lia.
Qed.

(** Reading the two coordinates back from a 64-byte [x || y] string. *)
Lemma coordinates_of_output x y :
  0 <= x < 16 ^ 64 -> 0 <= y < 16 ^ 64 ->
  BigInt_hex (slice 0 64 (hex64 x +:+ hex64 y)) = Some x /\
  BigInt_hex (slice 64 128 (hex64 x +:+ hex64 y)) = Some y.
Proof.
  intros Hx Hy. unfold slice. cbn [Nat.sub].
  pose proof (hex64_length x Hx) as Lx. pose proof (hex64_length y Hy) as Ly.
  split.
  - rewrite <- Lx at 1. rewrite substring_app_l. apply hex64_parse; lia.
  - rewrite <- Lx at 1. rewrite <- Ly at 1. rewrite substring_app_r.
    apply hex64_parse; lia.
Qed.

End Hex64.

(** ** Claims about the curve code *)
Section CurveClaims.
Import JS Elliptic Addresses.

Local Abbreviation p := secp256k1_p.

Lemma Ok_inj {A} (a b : A) : Ok a = Ok b -> a = b.
Proof. intros H. now inversion H. Qed.

Lemma even_rem2 b : 0 <= b -> (Z.rem b 2 =? 0) = Z.even b.
Proof.
  intros Hb. rewrite rem_mod by lia. rewrite Zeven_mod. reflexivity.
Qed.

(** The choice between a root [beta] and [p - beta] by the prefix. *)
Lemma choose_root_facts (want_even : bool) (alpha beta : Z) :
  0 < beta < p ->
  (beta * beta) mod p = alpha ->
  let y := if negb (Bool.eqb (Z.rem beta 2 =? 0) want_even) then p - beta else beta in
  0 < y < p /\ (y * y) mod p = alpha /\ Z.even y = want_even.
Proof.
  intros Hb Hsq. pose proof p_pos as Hp.
  rewrite even_rem2 by lia. cbv zeta.
  destruct (Bool.eqb (Z.even beta) want_even) eqn:He; cbn [negb].
  - apply Bool.eqb_prop in He. repeat split; try lia; assumption.
  - apply Bool.eqb_false_iff in He.
    split; [lia |]. split.
    + replace ((p - beta) * (p - beta)) with (beta * beta + (p - 2 * beta) * p) by ring.
      rewrite Z.mod_add by lia. exact Hsq.
    + rewrite Z.even_sub.
      replace (Z.even p) with false by (now vm_compute).
      destruct (Z.even beta), want_even; cbn; congruence.
Qed.

Lemma p_lt_2_256 : p < 16 ^ 64.
Proof. now vm_compute. Qed.

(** C4. For a 33-byte input (with or without a leading 0x) with prefix 02 or
    03 and abscissa [x]: when [x^3 + 7] is no square modulo p the call
    throws 'Invalid public key - no valid y coordinate'; when the call
    returns, its output is [x || y] with [y * y = x^3 + 7 (mod p)],
    [0 < y < p], and [y] even for prefix 02, odd for prefix 03. *)
Theorem C4_decompress_sound (c pre xs : string) (x : Z) :
  strip_0x c = pre +:+ xs ->
  pre = "02" \/ pre = "03" ->
  String.length xs = 64%nat ->
  BigInt_hex xs = Some x ->
  (~ (exists z, (z * z) mod p = (x ^ 3 + 7) mod p) ->
   decompressPublicKey c =
     Throw "Invalid public key - no valid y coordinate") /\
  (forall out, decompressPublicKey c = Ok out ->
   exists y,
     out = hex64 x +:+ hex64 y /\
     BigInt_hex (slice 0 64 out) = Some x /\
     BigInt_hex (slice 64 128 out) = Some y /\
     0 < y < p /\
     (y * y) mod p = (x ^ 3 + 7) mod p /\
     Z.even y = String.eqb pre "02").
Proof.
  intros Hc Hpre Hlen Hx.
  rewrite (decompress_unfold c pre xs x Hc Hpre Hlen Hx).
  pose proof p_pos as Hp. pose proof p_lt_2_256 as Hp256.
  pose proof (BigInt_hex_bounds _ _ Hx) as Hxb. rewrite Hlen in Hxb.
  change (Z.of_nat 64) with 64 in Hxb.
  assert (0 <= (x ^ 3 + 7) mod p < p) as Ha by (apply Z.mod_pos_bound; lia).
  generalize dependent ((x ^ 3 + 7) mod p). intros alpha Ha.
  destruct (modPow alpha legendre_exp p =? 1) eqn:Hleg.
  - apply Z.eqb_eq in Hleg.
    destruct (sqrt_candidate alpha (proj1 Ha) Hleg) as [Hsq Hb].
    rewrite (Z.mod_small alpha) in Hsq by exact Ha.
    generalize dependent (modPow alpha sqrt_exp p). intros beta Hsq Hb.
    pose proof (choose_root_facts (String.eqb pre "02") alpha beta Hb Hsq) as Hy.
    cbv zeta in Hy |- *.
    generalize dependent
      (if negb (Bool.eqb (Z.rem beta 2 =? 0) (String.eqb pre "02"))
       then p - beta else beta).
    intros y (Hy & Hysq & Hev).
    split.
    + intros Hno. exfalso. apply Hno. exists beta. exact Hsq.
    + intros out Hout. apply Ok_inj in Hout. subst out.
      exists y. split; [reflexivity |].
      destruct (coordinates_of_output x y) as [Hcx Hcy]; [lia | lia |].
      repeat split; try assumption; lia.
  - split; [reflexivity | intros out Hout; discriminate Hout].
Qed.

Lemma C4_decompress_sound_witness :
  let c := "0x020000000000000000000000000000000000000000000000000000000000000001" in
  (~ (exists z, (z * z) mod p = (1 ^ 3 + 7) mod p) ->
   decompressPublicKey c =
     Throw "Invalid public key - no valid y coordinate") /\
  (forall out, decompressPublicKey c = Ok out ->
   exists y,
     out = hex64 1 +:+ hex64 y /\
     BigInt_hex (slice 0 64 out) = Some 1 /\
     BigInt_hex (slice 64 128 out) = Some y /\
     0 < y < p /\
     (y * y) mod p = (1 ^ 3 + 7) mod p /\
     Z.even y = String.eqb "02" "02").
Proof.
  exact (C4_decompress_sound
           "0x020000000000000000000000000000000000000000000000000000000000000001"
           "02" "0000000000000000000000000000000000000000000000000000000000000001" 1
           eq_refl (or_introl eq_refl) eq_refl eq_refl).
Defined.

(** *** C5: no range check on x *)

Lemma curve_rhs_mod x : (x ^ 3 + 7) mod p = ((x mod p) ^ 3 + 7) mod p.
Proof.
  rewrite <- (Z.add_mod_idemp_l (x ^ 3)), <- (Z.add_mod_idemp_l ((x mod p) ^ 3))
    by (now vm_compute).
  now rewrite Z.mod_pow_l.
Qed.

(** C5, as stated, fails: the abscissa [p + 1] is not below the field prime,
    yet the input is decompressed (to the point over [x = 1]). *)
Lemma C5_counterexample :
  let xs := "fffffffffffffffffffffffffffffffffffffffffffffffffffffffefffffc30" in
  BigInt_hex xs = Some (p + 1) /\
  p <= p + 1 /\
  decompressPublicKey ("02" +:+ xs) =
    Ok (xs +:+ "4218f20ae6c646b363db68605822fb14264ca8d2587fdd6fbc750d587e76a7ee").
Proof.
  cbv zeta. split; [vm_compute; reflexivity |]. split; [now vm_compute |].
  vm_cast_no_check
    (eq_refl (Ok ("fffffffffffffffffffffffffffffffffffffffffffffffffffffffefffffc30" +:+
                  "4218f20ae6c646b363db68605822fb14264ca8d2587fdd6fbc750d587e76a7ee"))).
Qed.

(** C5, amended. [decompressPublicKey] never compares x with p; x enters the
    curve computation only modulo p.  Two 33-byte inputs with the same prefix
    and congruent abscissas get the same verdict [r] (the same error, or the
    same y), and each returns its own x unreduced. *)
Theorem C5_decompress_uses_x_mod_p (c c' pre xs xs' : string) (x x' : Z) :
  strip_0x c = pre +:+ xs -> strip_0x c' = pre +:+ xs' ->
  pre = "02" \/ pre = "03" ->
  String.length xs = 64%nat -> BigInt_hex xs = Some x ->
  String.length xs' = 64%nat -> BigInt_hex xs' = Some x' ->
  x mod p = x' mod p ->
  exists r : result Z,
    decompressPublicKey c = result_map (fun y => hex64 x +:+ hex64 y) r /\
    decompressPublicKey c' = result_map (fun y => hex64 x' +:+ hex64 y) r.
Proof.
  intros Hc Hc' Hpre Hlen Hx Hlen' Hx' Hcong.
  rewrite (decompress_unfold c pre xs x Hc Hpre Hlen Hx).
  rewrite (decompress_unfold c' pre xs' x' Hc' Hpre Hlen' Hx').
  rewrite (curve_rhs_mod x), (curve_rhs_mod x'), Hcong.
  generalize (((x' mod p) ^ 3 + 7) mod p). intros alpha.
  generalize (modPow alpha sqrt_exp p). intros beta.
  destruct (modPow alpha legendre_exp p =? 1).
  - exists (Ok (if negb (Bool.eqb (Z.rem beta 2 =? 0) (String.eqb pre "02"))
                then p - beta else beta)).
    split; reflexivity.
  - exists (Throw "Invalid public key - no valid y coordinate").
    split; reflexivity.
Qed.

Lemma C5_decompress_uses_x_mod_p_witness :
  let xs := "fffffffffffffffffffffffffffffffffffffffffffffffffffffffefffffc30" in
  let xs' := "0000000000000000000000000000000000000000000000000000000000000001" in
  exists r : result Z,
    decompressPublicKey ("02" +:+ xs) =
      result_map (fun y => hex64 (p + 1) +:+ hex64 y) r /\
    decompressPublicKey ("02" +:+ xs') =
      result_map (fun y => hex64 1 +:+ hex64 y) r.
Proof.
  apply (C5_decompress_uses_x_mod_p _ _ "02"
           "fffffffffffffffffffffffffffffffffffffffffffffffffffffffefffffc30"
           "0000000000000000000000000000000000000000000000000000000000000001"
           (p + 1) 1).
  - reflexivity.
  - reflexivity.
  - left; reflexivity.
  - reflexivity.
  - vm_compute; reflexivity.
  - reflexivity.
  - reflexivity.
  - vm_compute; reflexivity.
Defined.

(** *** C9: the 64-byte convenience path *)

(** C9, as stated, fails: the 64-byte string of 0x11 bytes is returned as a
    public key although its coordinates do not satisfy the curve equation. *)
Lemma C9_counterexample :
  let s := "11111111111111111111111111111111111111111111111111111111111111111111111111111111111111111111111111111111111111111111111111111111" in
  getUncompressedPublicKey s = Ok s /\
  exists x y,
    BigInt_hex (slice 0 64 s) = Some x /\
    BigInt_hex (slice 64 128 s) = Some y /\
    (y * y) mod p <> (x ^ 3 + 7) mod p.
Proof.
  split; [now vm_compute |].
  eexists; eexists. split; [vm_compute; reflexivity |].
  split; [vm_compute; reflexivity |]. now vm_compute.
Qed.

(** C9, amended. A key of 128 hexadecimal characters (after an optional
    leading 0x) that does not begin with 04 is returned unchanged; the
    curve equation is not consulted. *)
Theorem C9_bare_key_returned_unchecked (s : string) :
  String.length (strip_0x s) = 128%nat ->
  startsWith "04" (strip_0x s) = false ->
  getUncompressedPublicKey s = Ok (strip_0x s).
Proof.
  intros Hlen H04. unfold getUncompressedPublicKey.
  assert (isCompressedPublicKey (strip_0x s) = false) as ->.
  { unfold isCompressedPublicKey.
    destruct (strip_0x_length (strip_0x s)) as [Hl | Hl]; rewrite Hl, Hlen; reflexivity. }
  now rewrite H04, Hlen.
Qed.

Lemma C9_bare_key_returned_unchecked_witness :
  let s := "11111111111111111111111111111111111111111111111111111111111111111111111111111111111111111111111111111111111111111111111111111111" in
  getUncompressedPublicKey s = Ok (strip_0x s).
Proof.
  apply C9_bare_key_returned_unchecked; reflexivity.
Defined.

(** *** C3: compression and decompression as inverses *)

(** C3 fails on the code.  [compressPublicKey] takes a leading "04" for the
    uncompressed-key marker even when the key is the bare 64-byte [x || y]
    and 04 is the first byte of x.  The point [P = xs || ys] below lies on
    the curve; its compression drops the first byte of x, so that
    decompressing it cannot give [P] back (any output would start with the
    shifted x).  In the other direction, the valid encoding 02 || x
    decompresses to [P], whose compression is not 02 || x. *)
Theorem C3_compress_mistakes_x_byte_04_for_marker :
  let xs := "0400000000000000000000000000000000000000000000000000000000000004" in
  let ys := "64cf321098a67cb15bbbb88b6f6f0a44916d3b5ad574c25ed48399ecfa93dd86" in
  let c' := "020000000000000000000000000000000000000000000000000000000000000464" in
  (exists x y, BigInt_hex xs = Some x /\ BigInt_hex ys = Some y /\
               x < p /\ y < p /\ (y * y) mod p = (x ^ 3 + 7) mod p) /\
  compressPublicKey (xs +:+ ys) = Ok c' /\
  decompressPublicKey c' <> Ok (xs +:+ ys) /\
  decompressPublicKey ("02" +:+ xs) = Ok (xs +:+ ys) /\
  c' <> "02" +:+ xs.
Proof.
  cbv zeta. split.
  { eexists; eexists. split; [vm_compute; reflexivity |].
    split; [vm_compute; reflexivity |]. now vm_compute. }
  split; [now vm_compute |].
  split.
  { rewrite (decompress_unfold
               "020000000000000000000000000000000000000000000000000000000000000464"
               "02" "0000000000000000000000000000000000000000000000000000000000000464"
               1124 eq_refl (or_introl eq_refl) eq_refl eq_refl).
    destruct (modPow ((1124 ^ 3 + 7) mod p) legendre_exp p =? 1);
      [| intros H; discriminate H].
    cbv zeta.
    generalize (modPow ((1124 ^ 3 + 7) mod p) sqrt_exp p). intros beta H.
    apply Ok_inj in H. apply (f_equal (String.get 1)) in H.
    revert H.
    generalize (hex64 (if negb (Bool.eqb (Z.rem beta 2 =? 0) (String.eqb "02" "02"))
                       then p - beta else beta)).
    intros yhex H. vm_compute in H. discriminate H. }
  split.
  { vm_cast_no_check
      (eq_refl (Ok ("0400000000000000000000000000000000000000000000000000000000000004" +:+
                    "64cf321098a67cb15bbbb88b6f6f0a44916d3b5ad574c25ed48399ecfa93dd86"))). }
  discriminate.
Qed.

End CurveClaims.

(** ** Routing *)
Section Routing.
Import JS Wire.
Context {P : Type}.
Implicit Types (msgs : list (Frame P)) (f : Frame P) (p : nat).

Lemma filter_ext_Forall (Q1 Q2 : Frame P -> Prop)
    `{!forall x, Decision (Q1 x)} `{!forall x, Decision (Q2 x)} msgs :
  Forall (fun x => Q1 x <-> Q2 x) msgs -> filter Q1 msgs = filter Q2 msgs.
Proof.
  induction 1 as [| x l Hx _ IH]; [reflexivity |].
  rewrite !filter_cons, IH.
  destruct (decide (Q1 x)), (decide (Q2 x)); tauto.
Qed.

Lemma opt_nat_eqb_eq (a b : option nat) : opt_nat_eqb a b = true <-> a = b.
Proof.
  destruct a as [x |], b as [y |]; cbn; try (split; congruence).
  rewrite Nat.eqb_eq. split; congruence.
Qed.

Lemma from_neq_iff f p : negb (from_id f =? p)%nat = true <-> from_id f <> p.
Proof. rewrite negb_true_iff, Nat.eqb_neq. reflexivity. Qed.

Lemma elem_of_filterMessages msgs p f :
  f ∈ filterMessages msgs p <-> f ∈ msgs /\ from_id f <> p.
Proof.
  unfold filterMessages. rewrite list_elem_of_filter, from_neq_iff. tauto.
Qed.

Lemma elem_of_selectMessages msgs p f :
  f ∈ selectMessages msgs p <-> f ∈ msgs /\ to_id f = Some p.
Proof.
  unfold selectMessages. rewrite list_elem_of_filter, opt_nat_eqb_eq. tauto.
Qed.

Lemma filterIncomingMessages_spec p msgs :
  filterIncomingMessages p msgs =
  filter (fun f => spec_broadcast_select p f \/ spec_p2p_select p f) msgs.
Proof.
  unfold filterIncomingMessages. rewrite list_filter_filter.
  apply list_filter_iff. intros f.
  rewrite from_neq_iff, orb_true_iff, !opt_nat_eqb_eq.
  unfold spec_broadcast_select, spec_p2p_select. tauto.
Qed.

End Routing.

Section RoutingClaims.
Import JS Wire.

(** C7, as stated, fails for the two filters of [DKLSService]: on the
    broadcast leg party 0 is handed a frame that party 1 addressed to party 2,
    and the P2P selection hands party 0 a frame it sent itself. *)
Lemma C7_counterexample :
  let f : Message := mkFrame 1 (Some 2%nat) [] in
  let g : Message := mkFrame 0 (Some 0%nat) [] in
  (filterMessages [f] 0 = [f] /\ ~ spec_broadcast_select 0 f) /\
  (selectMessages [g] 0 = [g] /\ ~ spec_p2p_select 0 g).
Proof.
  cbv zeta. split; (split; [reflexivity |]).
  - intros [H _]. discriminate H.
  - intros [_ H]. now apply H.
Qed.

(** C7, amended. [filterMessages] delivers exactly the frames not sent by p
    and [selectMessages] exactly the frames addressed to p.  On a batch of
    broadcast frames the former is the broadcast selection, and on a batch in
    which no frame is addressed to its own sender the latter is the P2P
    selection.  [DKLSParty.filterIncomingMessages] delivers, from any batch,
    exactly the frames of the two selections together. *)
Theorem C7_routing {P : Type} (bs ps : list (Frame P)) (p : nat) :
  Forall (fun f => to_id f = None) bs ->
  Forall (fun f => to_id f <> Some (from_id f)) ps ->
  filterMessages bs p = filter (spec_broadcast_select p) bs /\
  selectMessages ps p = filter (spec_p2p_select p) ps /\
  (forall msgs : list (Frame P),
     filterIncomingMessages p msgs =
     filter (fun f => spec_broadcast_select p f \/ spec_p2p_select p f) msgs) /\
  (forall (msgs : list (Frame P)) f,
     f ∈ filterMessages msgs p <-> f ∈ msgs /\ from_id f <> p) /\
  (forall (msgs : list (Frame P)) f,
     f ∈ selectMessages msgs p <-> f ∈ msgs /\ to_id f = Some p).
Proof.
  intros Hbs Hps. split; [| split; [| split; [| split]]].
  - unfold filterMessages. apply filter_ext_Forall.
    eapply Forall_impl; [exact Hbs |]. intros f Hf. cbn beta.
    rewrite from_neq_iff. unfold spec_broadcast_select. tauto.
  - unfold selectMessages. apply filter_ext_Forall.
    eapply Forall_impl; [exact Hps |]. intros f Hf. cbn beta.
    rewrite opt_nat_eqb_eq. unfold spec_p2p_select.
    split; [| tauto]. intros Ht. split; [exact Ht |]. congruence.
  - intros msgs. apply filterIncomingMessages_spec.
  - intros msgs f. apply elem_of_filterMessages.
  - intros msgs f. apply elem_of_selectMessages.
Qed.

Lemma C7_routing_witness :
  let b1 : Message := mkFrame 0 None [] in
  let b2 : Message := mkFrame 1 None [] in
  let q1 : Message := mkFrame 0 (Some 1%nat) [] in
  let q2 : Message := mkFrame 2 (Some 1%nat) [] in
  let q3 : Message := mkFrame 1 (Some 2%nat) [] in
  filterMessages [b1; b2] 1 = filter (spec_broadcast_select 1) [b1; b2] /\
  selectMessages [q1; q2; q3] 1 = filter (spec_p2p_select 1) [q1; q2; q3].
Proof.
  cbv zeta.
  destruct (C7_routing (P := bytes)
              [mkFrame 0 None []; mkFrame 1 None []]
              [mkFrame 0 (Some 1%nat) []; mkFrame 2 (Some 1%nat) [];
               mkFrame 1 (Some 2%nat) []] 1) as (H1 & H2 & _).
  - repeat constructor.
  - repeat constructor; discriminate.
  - split; [exact H1 | exact H2].
Defined.

End RoutingClaims.

(** ** The commitments vector of [executeDKG] *)
Section Commitments.
Import JS Wire Lib Service.

Lemma array_get_set_eq {A} i (v : option A) (arr : array A) :
  array_get i (array_set i v arr) = v.
Proof.
  unfold array_get, array_set.
  destruct (i <? length arr)%nat eqn:Hi.
  - apply Nat.ltb_lt in Hi. now rewrite list_lookup_insert_eq.
  - apply Nat.ltb_ge in Hi.
    rewrite lookup_app_r by lia.
    rewrite lookup_app_r by (rewrite length_replicate; lia).
    rewrite length_replicate. now rewrite Nat.sub_diag.
Qed.

Lemma array_get_set_ne {A} i j (v : option A) (arr : array A) :
  i <> j -> array_get j (array_set i v arr) = array_get j arr.
Proof.
  intros Hne. unfold array_get, array_set.
  destruct (i <? length arr)%nat eqn:Hi.
  - now rewrite list_lookup_insert_ne.
  - apply Nat.ltb_ge in Hi.
    destruct (decide (j < length arr)%nat) as [Hj | Hj].
    + now rewrite lookup_app_l.
    + rewrite (lookup_ge_None_2 arr j) by lia.
      rewrite lookup_app_r by lia.
      destruct (decide (j < i)%nat) as [Hji | Hji].
      * rewrite lookup_app_l by (rewrite length_replicate; lia).
        rewrite lookup_replicate_2 by lia. reflexivity.
      * rewrite lookup_app_r by (rewrite length_replicate; lia).
        rewrite length_replicate.
        rewrite lookup_ge_None_2 by (cbn; lia). reflexivity.
Qed.

Lemma assign_commitments_other ids : forall idx raws arr j,
  j ∉ ids ->
  array_get j (assign_commitments ids idx raws arr) = array_get j arr.
Proof.
  induction ids as [| id ids IH]; intros idx raws arr j Hj; [reflexivity |].
  cbn [assign_commitments]. rewrite IH by set_solver.
  apply array_get_set_ne. set_solver.
Qed.

Lemma assign_commitments_at ids : forall idx raws arr k id,
  NoDup ids -> ids !! k = Some id ->
  array_get id (assign_commitments ids idx raws arr) = raws !! (idx + k)%nat.
Proof.
  induction ids as [| i ids IH]; intros idx raws arr k id Hnd Hk; [discriminate |].
  apply NoDup_cons in Hnd as [Hi Hnd]. cbn [assign_commitments].
  destruct k as [| k].
  - injection Hk as ->. rewrite assign_commitments_other by assumption.
    rewrite array_get_set_eq. now rewrite Nat.add_0_r.
  - rewrite (IH _ _ _ k id Hnd Hk). f_equal. lia.
Qed.

Lemma lookup_map {A B} (f : A -> B) (l : list A) i :
  map f l !! i = f <$> l !! i.
Proof.
  revert i. induction l as [| a l IH]; intros [| i]; cbn; try reflexivity. apply IH.
Qed.

(** The slot of a party id holds the commitment of the party at the
    position where that id stands. *)
Lemma index_commitments_at
    (msg1 : list Message) (commitmentsRaw : list Commitment)
    (idx : nat) (m : Message) (c : Commitment) :
  NoDup (map from_id msg1) ->
  msg1 !! idx = Some m ->
  commitmentsRaw !! idx = Some c ->
  array_get (from_id m)
    (index_commitments (length msg1) (map from_id msg1) commitmentsRaw) = Some c.
Proof.
  intros Hnd Hm Hc. unfold index_commitments.
  rewrite (assign_commitments_at _ 0 _ _ idx (from_id m) Hnd).
  - exact Hc.
  - rewrite lookup_map, Hm. reflexivity.
Qed.

End Commitments.

(** ** Running programs *)
Section Run.
Import JS Wire Lib Vocabulary.
Context {W : Type} (env : Env W).
Local Abbreviation holds := (Vocabulary.holds env).

Lemma run_pbind {A B} (m : Prog A) (f : A -> Prog B) w :
  run env (pbind m f) w = run env (f (run env m w).1) (run env m w).2.
Proof.
  revert w. induction m as [a | X op k IH]; intros w; [reflexivity |].
  cbn [pbind run]. destruct (env X op w) as [x w']. apply IH.
Qed.

Lemma history_pbind {A B} (m : Prog A) (f : A -> Prog B) w :
  history env (pbind m f) w =
  history env m w ++ history env (f (run env m w).1) (run env m w).2.
Proof.
  revert w. induction m as [a | X op k IH]; intros w; [reflexivity |].
  cbn [pbind run history]. destruct (env X op w) as [x w']. cbn. now rewrite IH.
Qed.

Lemma history_ebind {A B} (m : E A) (f : A -> E B) w :
  history env (ebind m f) w =
  history env m w ++
  match (run env m w).1 with
  | Ok a => history env (f a) (run env m w).2
  | Throw _ => []
  end.
Proof.
  unfold ebind. rewrite history_pbind. now destruct (run env m w).1.
Qed.

Lemma run_ebind {A B} (m : E A) (f : A -> E B) w :
  run env (ebind m f) w =
  match (run env m w).1 with
  | Ok a => run env (f a) (run env m w).2
  | Throw msg => (Throw msg, (run env m w).2)
  end.
Proof.
  unfold ebind. rewrite run_pbind. now destruct (run env m w).1.
Qed.

Lemma holds_ret {R} (r : R) Q w : Q r w -> holds (Ret r) Q w.
Proof. exact id. Qed.

Lemma holds_pbind {A B} (m : Prog A) (f : A -> Prog B) Q w :
  holds m (fun a w' => holds (f a) Q w') w -> holds (pbind m f) Q w.
Proof. unfold holds. now rewrite run_pbind. Qed.

Lemma holds_mono {R} (m : Prog R) (Q Q' : R -> W -> Prop) w :
  holds m Q w -> (forall r w', Q r w' -> Q' r w') -> holds m Q' w.
Proof. unfold holds. auto. Qed.

Lemma holds_call {X} (op : Op X) Q w :
  Q (env X op w).1 (env X op w).2 -> holds (call op) Q w.
Proof. unfold holds, call. cbn. now destruct (env X op w). Qed.

Lemma holds_ebind {A B} (m : E A) (f : A -> E B) (Q : result B -> W -> Prop)
    (I : W -> Prop) (P : A -> W -> Prop) w :
  holds m (on_ok P I) w ->
  (forall a w', P a w' -> holds (f a) Q w') ->
  (forall msg w', I w' -> Q (Throw msg) w') ->
  holds (ebind m f) Q w.
Proof.
  intros Hm Hf Hthrow. unfold ebind. apply holds_pbind.
  eapply holds_mono; [exact Hm |].
  intros [a | msg] w' H; cbn in H; [now apply Hf | now apply Hthrow].
Qed.

Lemma holds_try_catch {A} (m : E A) (h : string -> E A) (Q : result A -> W -> Prop)
    (I : W -> Prop) (P : A -> W -> Prop) w :
  holds m (on_ok P I) w ->
  (forall a w', P a w' -> Q (Ok a) w') ->
  (forall msg w', I w' -> holds (h msg) Q w') ->
  holds (try_catch m h) Q w.
Proof.
  intros Hm Hok Hh. unfold try_catch. apply holds_pbind.
  eapply holds_mono; [exact Hm |].
  intros [a | msg] w' H; cbn in H; [now apply Hok | now apply Hh].
Qed.

(** A loop keeps an invariant [I] on the world and establishes [P] for each
    element it produced. *)
Lemma holds_mapM_from {A B} (f : A -> nat -> E B) (I : W -> Prop)
    (Pre : A -> Prop) (P : B -> Prop) (l : list A) :
  (forall a idx w, Pre a -> I w ->
     holds (f a idx) (on_ok (fun b w' => P b /\ I w') I) w) ->
  forall idx w, Forall Pre l -> I w ->
  holds (mapM_from idx f l) (on_ok (fun bs w' => Forall P bs /\ I w') I) w.
Proof.
  intros Hf. induction l as [| a l IH]; intros idx w Hpre Hw.
  - cbn. split; [constructor | exact Hw].
  - apply Forall_cons in Hpre as [Ha Hl]. cbn [mapM_from].
    eapply holds_ebind; [apply (Hf a idx w Ha Hw) | | intros; assumption].
    intros b w1 [Hb Hw1].
    eapply holds_ebind; [apply (IH (S idx) w1 Hl Hw1) | | intros; assumption].
    intros bs w2 [Hbs Hw2]. cbn. split; [now constructor | exact Hw2].
Qed.

Lemma holds_mapM {A B} (f : A -> nat -> E B) (I : W -> Prop)
    (Pre : A -> Prop) (P : B -> Prop) (l : list A) w :
  (forall a idx w, Pre a -> I w ->
     holds (f a idx) (on_ok (fun b w' => P b /\ I w') I) w) ->
  Forall Pre l -> I w ->
  holds (mapM f l) (on_ok (fun bs w' => Forall P bs /\ I w') I) w.
Proof. intros Hf Hl Hw. exact (holds_mapM_from f I Pre P l Hf 0%nat w Hl Hw). Qed.

Lemma holds_flatMapM {A B} (f : A -> nat -> E (list B)) (I : W -> Prop)
    (Pre : A -> Prop) (l : list A) w :
  (forall a idx w, Pre a -> I w ->
     holds (f a idx) (on_ok (fun _ w' => I w') I) w) ->
  Forall Pre l -> I w ->
  holds (flatMapM f l) (on_ok (fun _ w' => I w') I) w.
Proof.
  intros Hf Hl Hw. unfold flatMapM.
  apply (holds_ebind _ _ _ I (fun bss w' => Forall (fun _ => True) bss /\ I w')).
  - apply (holds_mapM f I Pre (fun _ => True) l w); [| assumption | assumption].
    intros a idx w0 Ha Hw0. eapply holds_mono; [apply (Hf a idx w0 Ha Hw0) |].
    intros [b | msg] w'; cbn; tauto.
  - intros bss w' [_ Hw']. exact Hw'.
  - intros msg w' Hw'. exact Hw'.
Qed.

Lemma holds_forEachM {A B} (f : A -> nat -> E B) (I : W -> Prop)
    (Pre : A -> Prop) (l : list A) w :
  (forall a idx w, Pre a -> I w ->
     holds (f a idx) (on_ok (fun _ w' => I w') I) w) ->
  Forall Pre l -> I w ->
  holds (forEachM f l) (on_ok (fun _ w' => I w') I) w.
Proof.
  intros Hf Hl Hw. unfold forEachM.
  apply (holds_ebind _ _ _ I (fun bss w' => Forall (fun _ => True) bss /\ I w')).
  - apply (holds_mapM f I Pre (fun _ => True) l w); [| assumption | assumption].
    intros a idx w0 Ha Hw0. eapply holds_mono; [apply (Hf a idx w0 Ha Hw0) |].
    intros [b | msg] w'; cbn; tauto.
  - intros bss w' [_ Hw']. exact Hw'.
  - intros msg w' Hw'. exact Hw'.
Qed.

End Run.

(** ** Invariants of the library state *)
Section Preserves.
Import JS Wire Lib Vocabulary.
Context {W : Type} (env : Env W) (I : W -> Prop).
Local Abbreviation holds := (Vocabulary.holds env).
Local Abbreviation preserves := (Vocabulary.preserves env I).

Lemma preserves_ret {A} (a : A) : preserves (ret a).
Proof. intros w Hw. exact Hw. Qed.

Lemma preserves_throw {A} msg : preserves (@throw A msg).
Proof. intros w Hw. exact Hw. Qed.

Lemma preserves_call {X} (op : Op X) :
  (forall w, I w -> I (env X op w).2) -> preserves (call op).
Proof.
  intros Hop w Hw. apply holds_call. specialize (Hop w Hw).
  destruct (env X op w) as [[x | msg] w']; exact Hop.
Qed.

Lemma preserves_ebind {A B} (m : E A) (f : A -> E B) :
  preserves m -> (forall a, preserves (f a)) -> preserves (ebind m f).
Proof.
  intros Hm Hf w Hw.
  apply (holds_ebind env _ _ _ I (fun _ w' => I w')).
  - apply Hm, Hw.
  - intros a w' Hw'. apply Hf, Hw'.
  - intros msg w' Hw'. exact Hw'.
Qed.

Lemma preserves_try_catch {A} (m : E A) (h : string -> E A) :
  preserves m -> (forall msg, preserves (h msg)) -> preserves (try_catch m h).
Proof.
  intros Hm Hh w Hw.
  apply (holds_try_catch env _ _ _ I (fun _ w' => I w')).
  - apply Hm, Hw.
  - intros a w' Hw'. exact Hw'.
  - intros msg w' Hw'. apply Hh, Hw'.
Qed.

Lemma preserves_mapM {A B} (f : A -> nat -> E B) (l : list A) :
  (forall a idx, preserves (f a idx)) -> preserves (mapM f l).
Proof.
  intros Hf w Hw.
  eapply holds_mono.
  - apply (holds_mapM env f I (fun _ => True) (fun _ => True) l w).
    + intros a idx w0 _ Hw0. eapply holds_mono; [apply (Hf a idx w0 Hw0) |].
      intros [b | msg] w'; cbn; tauto.
    + now apply Forall_forall.
    + exact Hw.
  - intros [bs | msg] w'; cbn; tauto.
Qed.

Lemma preserves_flatMapM {A B} (f : A -> nat -> E (list B)) (l : list A) :
  (forall a idx, preserves (f a idx)) -> preserves (flatMapM f l).
Proof.
  intros Hf. unfold flatMapM. apply preserves_ebind; [now apply preserves_mapM |].
  intros bss. apply preserves_ret.
Qed.

Lemma preserves_forEachM {A B} (f : A -> nat -> E B) (l : list A) :
  (forall a idx, preserves (f a idx)) -> preserves (forEachM f l).
Proof.
  intros Hf. unfold forEachM. apply preserves_ebind; [now apply preserves_mapM |].
  intros bss. apply preserves_ret.
Qed.

End Preserves.

(** ** Histories *)
Section Logging.
Import JS Wire Lib Vocabulary.
Context {W : Type} (env : Env W).

Lemma run_logging {R} (m : Prog R) : forall w log,
  run (logging env) m (w, log) =
  ((run env m w).1, ((run env m w).2, log ++ history env m w)).
Proof.
  induction m as [r | X op k IH]; intros w log; cbn [run history].
  - now rewrite app_nil_r.
  - unfold logging at 1. cbn [fst snd].
    destruct (env X op w) as [x w']. rewrite IH. cbn [fst snd].
    now rewrite <- app_assoc.
Qed.

(** A property of single events that a program keeps on the log holds of
    every call the program makes and the answer it gets. *)
Lemma history_Forall {A} (P : Event -> Prop) (m : E A) w :
  Vocabulary.preserves (logging env) (fun wl => Forall P wl.2) m ->
  Forall P (history env m w).
Proof.
  intros Hm. specialize (Hm (w, []) (Forall_nil_2 P)).
  unfold holds in Hm. rewrite run_logging in Hm. cbn [fst snd] in Hm.
  destruct (run env m w).1; exact Hm.
Qed.

Lemma calls_Forall {A} (P : AnyOp -> Prop) (m : E A) w :
  Vocabulary.preserves (logging env) (fun wl => Forall (fun e => P (event_op e)) wl.2) m ->
  Forall P (calls env m w).
Proof.
  intros Hm. unfold calls. apply Forall_fmap. now apply history_Forall.
Qed.

(** The same for a loop whose callback is only known on the elements of
    the list. *)
Lemma history_mapM_Forall {A B} (P : Event -> Prop) (f : A -> nat -> E B) l w :
  (forall a idx, a ∈ l ->
     Vocabulary.preserves (logging env) (fun wl => Forall P wl.2) (f a idx)) ->
  Forall P (history env (mapM f l) w).
Proof.
  intros Hf.
  pose proof (holds_mapM (logging env) f (fun wl => Forall P wl.2)
                (fun a => a ∈ l) (fun _ => True) l (w, [])) as Hm.
  unfold Vocabulary.holds in Hm. rewrite run_logging in Hm. cbn [fst snd] in Hm.
  assert (Hgoal : on_ok (fun (bs : list B) (wl : W * list Event) =>
                           Forall (fun _ => True) bs /\ Forall P wl.2)
                    (fun wl => Forall P wl.2)
                    (run env (mapM f l) w).1
                    ((run env (mapM f l) w).2, [] ++ history env (mapM f l) w)).
  { apply Hm.
    - intros a idx wl Ha Hwl. eapply holds_mono; [apply (Hf a idx Ha wl Hwl) |].
      intros [b | msg] wl'; cbn; tauto.
    - now apply Forall_forall.
    - constructor. }
  destruct (run env (mapM f l) w).1; cbn in Hgoal; tauto.
Qed.

Lemma logged_call {X} (P : Event -> Prop) (op : Op X) :
  (forall answer, P (event op answer)) ->
  Vocabulary.preserves (logging env) (fun wl => Forall P wl.2) (call op).
Proof.
  intros Hop. apply preserves_call. intros [w log] Hlog.
  unfold logging. cbn [fst snd] in *. destruct (env X op w) as [x w'].
  cbn [snd]. apply Forall_app. split; [exact Hlog |]. constructor; [apply Hop | constructor].
Qed.

End Logging.

Section CallAnswers.
Import JS Wire Lib Vocabulary Service.
Context {W : Type} (env : Env W).

Lemma run_call {X} (op : Op X) w : run env (call op) w = env X op w.
Proof. unfold call. cbn. now destruct (env X op w). Qed.

Lemma history_call {X} (op : Op X) w :
  history env (call op) w = [event op (env X op w).1].
Proof. unfold call. cbn. now destruct (env X op w). Qed.

(** The answers a loop of calls collects are the answers recorded. *)
Lemma mapM_from_answers {A X} (mk : A -> nat -> Op X) (l : list A) :
  forall idx w bs,
  (run env (mapM_from idx (fun a i => call (mk a i)) l) w).1 = Ok bs ->
  Forall2 (fun a b => exists i,
             event (mk a i) (Ok b) ∈
             history env (mapM_from idx (fun a i => call (mk a i)) l) w) l bs.
Proof.
  induction l as [| a l IH]; intros idx w bs Hrun.
  - cbn in Hrun. injection Hrun as <-. constructor.
  - cbn [mapM_from] in *.
    rewrite run_ebind, run_call in Hrun. rewrite history_ebind, run_call, history_call.
    destruct (env X (mk a idx) w) as [[b | msg] w1]; cbn [fst snd] in *; [| discriminate].
    rewrite run_ebind in Hrun. rewrite history_ebind.
    specialize (IH (S idx) w1).
    destruct (run env (mapM_from (S idx) (fun a i => call (mk a i)) l) w1)
      as [[bs' | msg] w2]; cbn [fst snd] in *; [| discriminate].
    cbn in Hrun. injection Hrun as <-.
    constructor.
    + exists idx. apply elem_of_cons. now left.
    + eapply Forall2_impl; [apply (IH bs' eq_refl) |].
      intros a' b' [i Hi]. exists i. apply elem_of_cons. right.
      apply elem_of_app. now left.
Qed.

(** What holds between each element and its result after the callback ran
    holds between them after the loop, when later calls cannot undo it. *)
Lemma mapM_from_related {A B} (f : A -> nat -> E B)
    (R : A -> B -> list Event -> Prop) :
  (forall a b h h', R a b h -> h ⊆ h' -> R a b h') ->
  (forall a idx w b, (run env (f a idx) w).1 = Ok b -> R a b (history env (f a idx) w)) ->
  forall l idx w bs,
  (run env (mapM_from idx f l) w).1 = Ok bs ->
  Forall2 (fun a b => R a b (history env (mapM_from idx f l) w)) l bs.
Proof.
  intros Hmono Hstep.
  induction l as [| a l IH]; intros idx w bs Hrun.
  - cbn in Hrun. injection Hrun as <-. constructor.
  - cbn [mapM_from] in *.
    rewrite run_ebind in Hrun. rewrite history_ebind.
    specialize (Hstep a idx w).
    destruct (run env (f a idx) w) as [[b | msg] w1]; cbn [fst snd] in *; [| discriminate].
    rewrite run_ebind in Hrun. rewrite history_ebind.
    specialize (IH (S idx) w1).
    destruct (run env (mapM_from (S idx) f l) w1)
      as [[bs' | msg] w2]; cbn [fst snd] in *; [| discriminate].
    cbn in Hrun. injection Hrun as <-.
    constructor.
    + apply (Hmono a b _ _ (Hstep b eq_refl)). intros e He. apply elem_of_app. now left.
    + eapply Forall2_impl; [apply (IH bs' eq_refl) |].
      intros a' b' HR. apply (Hmono a' b' _ _ HR). intros e He.
      apply elem_of_app. right. apply elem_of_app. now left.
Qed.

(** A handler that only rethrows makes no call. *)
Lemma history_try_catch_rethrow {A} (m : E A) (g : string -> string) w :
  history env (try_catch m (fun msg => throw (g msg))) w = history env m w.
Proof.
  unfold try_catch. rewrite history_pbind.
  destruct (run env m w).1; cbn; apply app_nil_r.
Qed.

Lemma run_try_catch_rethrow_ok {A} (m : E A) (g : string -> string) w a :
  (run env (try_catch m (fun msg => throw (g msg))) w).1 = Ok a ->
  (run env m w).1 = Ok a.
Proof.
  unfold try_catch. rewrite run_pbind.
  destruct (run env m w).1; cbn; [trivial | discriminate].
Qed.

End CallAnswers.

Section HistoryFacts.
Import JS Wire Lib Vocabulary Service.
Context {W : Type} (env : Env W).

Lemma elem_of_history_ebind {A B} (m : E A) (f : A -> E B) w e :
  e ∈ history env (ebind m f) w ->
  e ∈ history env m w \/
  exists a, (run env m w).1 = Ok a /\ e ∈ history env (f a) (run env m w).2.
Proof.
  rewrite history_ebind. intros He. apply elem_of_app in He as [He | He]; [now left |].
  destruct (run env m w).1 as [a | msg]; [right; eauto | inversion He].
Qed.

Lemma history_ebind_subseteq_l {A B} (m : E A) (f : A -> E B) w :
  history env m w ⊆ history env (ebind m f) w.
Proof. rewrite history_ebind. intros e He. apply elem_of_app. now left. Qed.

Lemma history_ebind_subseteq_r {A B} (m : E A) (f : A -> E B) w a :
  (run env m w).1 = Ok a ->
  history env (f a) (run env m w).2 ⊆ history env (ebind m f) w.
Proof.
  intros Ha. rewrite history_ebind, Ha. intros e He. apply elem_of_app. now right.
Qed.

Lemma no_commitments_in {A} (m : E A) w e cm :
  Vocabulary.preserves (logging env)
    (fun wl => Forall (fun e => commitments_arg e = None) wl.2) m ->
  e ∈ history env m w -> commitments_arg e = Some cm -> False.
Proof.
  intros Hm He Harg. apply history_Forall with (w := w) in Hm.
  rewrite Forall_forall in Hm. specialize (Hm e He). congruence.
Qed.

End HistoryFacts.

(** Step into the continuation of a [let*] whose first program returned. *)
Ltac descend He Hinc a R :=
  apply elem_of_history_ebind in He as [He | (a & R & He)];
  [ | lazymatch type of Hinc with
      | Lib.history ?env (Lib.ebind ?m ?f) ?w ⊆ _ =>
          let Hs := fresh "Hs" in
          pose proof (history_ebind_subseteq_r env m f w _ R) as Hs;
          let Hn := fresh "Hinc" in
          pose proof (transitivity Hs Hinc) as Hn; clear Hs
      end ].


(** ** The calls [signMessage] makes *)
Section SignMessageCalls.
Import JS Wire Lib Vocabulary Service.
Context {W : Type} (env : Env W) (I : W -> Prop).
Local Abbreviation preserves := (Vocabulary.preserves env I).

Lemma try_recovery_preserves cands d r s expected v :
  (forall d r s v, preserves (call (EthersRecoverAddress d r s v))) ->
  preserves (try_recovery cands d r s expected v).
Proof.
  intros Hrec. induction cands as [| testV rest IH]; cbn [try_recovery].
  - apply preserves_ret.
  - apply preserves_ebind.
    + apply preserves_try_catch; [| intros _; apply preserves_ret].
      apply preserves_ebind; [apply Hrec | intros a; apply preserves_ret].
    + intros [|]; [apply preserves_ret | exact IH].
Qed.

Lemma deriveEthereumAddress_preserves pk :
  (forall x, preserves (call (ViemKeccak256 x))) ->
  preserves (deriveEthereumAddress pk).
Proof.
  intros Hk. unfold deriveEthereumAddress.
  destruct (Elliptic.getUncompressedPublicKey _); [| apply preserves_throw].
  apply preserves_ebind; [apply Hk | intros hash; apply preserves_ret].
Qed.

End SignMessageCalls.

(** The part of [signMessage] after the sessions are built: the four
    rounds, the online round, the combination and the v byte.  [solve_op]
    closes the goal of each library call. *)
Ltac sign_rounds solve_op :=
  apply preserves_ebind; [apply preserves_mapM; intros ? ?; solve_op |];
  intros ?; apply preserves_ebind; [apply preserves_flatMapM; intros ? ?; solve_op |];
  intros ?; apply preserves_ebind; [apply preserves_flatMapM; intros ? ?; solve_op |];
  intros ?; apply preserves_ebind; [apply preserves_forEachM; intros ? ?; solve_op |];
  intros _; apply preserves_ebind; [apply preserves_mapM; intros ? ?; solve_op |];
  intros ?; apply preserves_ebind; [apply preserves_mapM; intros ? ?; solve_op |];
  intros [| [| ? [| ? ?]] ?]; try apply preserves_throw;
  (apply preserves_ebind; [| intros ?; apply preserves_ret]);
  lazymatch goal with
  | |- context [Service.truthy ?pk] =>
      destruct (Service.truthy pk); [| apply preserves_ret]
  end;
  apply preserves_ebind;
  [ apply deriveEthereumAddress_preserves; intros ?; solve_op
  | intros ?; apply try_recovery_preserves; intros ? ? ? ?; solve_op ].

Section SignMessageInvariant.
Import JS Wire Lib Vocabulary Service.
Context {W : Type} (env : Env W) (I : W -> Prop).
Local Abbreviation preserves := (Vocabulary.preserves env I).

(** [signMessage] issues these calls and no others; the online round is
    always given [messageHash] itself, and every session is opened on the
    path "m". *)
Lemma signMessage_preserves messageHash keyshares threshold publicKey :
  (forall ks, preserves (call (KeyshareToBytes ks))) ->
  (forall b, preserves (call (KeyshareFromBytes b))) ->
  (forall ks, preserves (call (SignSessionNew ks "m"))) ->
  (forall s, preserves (call (SignCreateFirstMessage s))) ->
  (forall s msgs, preserves (call (SignHandleMessages s msgs))) ->
  (forall s, preserves (call (SignLastMessage s messageHash))) ->
  (forall s msgs, preserves (call (SignCombine s msgs))) ->
  (forall d r s v, preserves (call (EthersRecoverAddress d r s v))) ->
  (forall x, preserves (call (ViemKeccak256 x))) ->
  preserves (signMessage messageHash keyshares threshold publicKey).
Proof.
  intros HtoB HfromB Hnew Hfirst Hhandle Hlast Hcombine Hrec Hkeccak.
  unfold signMessage.
  apply preserves_try_catch; [| intros msg; apply preserves_throw].
  destruct (length keyshares <? threshold)%nat; [apply preserves_throw |].
  apply preserves_ebind.
  { apply preserves_mapM. intros ks _.
    apply preserves_ebind; [apply HtoB | intros b; apply HfromB]. }
  intros signingShares. apply preserves_ebind.
  { apply preserves_mapM. intros ks _. apply Hnew. }
  intros parties.
  sign_rounds ltac:(first [apply Hfirst | apply Hhandle | apply Hlast | apply Hcombine
                          | apply Hrec | apply Hkeccak]).
Qed.

End SignMessageInvariant.


(** ** [signMessage] and the caller's keyshares *)
Section KeyshareFrame.
Import JS Wire Lib Vocabulary Service.
Context {W K : Type} (env : Env W) (view : W -> handle -> option K).
Context (contract : KeyshareContract env view).
Context (w0 : W).
Local Abbreviation holds := (Vocabulary.holds env).

Local Abbreviation kept := (Vocabulary.kept view w0).
Local Abbreviation fresh_share := (Vocabulary.fresh_share view w0).

Lemma kept_op {X} (op : Op X) :
  (forall w h, view (env X op w).2 h = view w h) ->
  Vocabulary.preserves env kept (call op).
Proof.
  intros Hop. apply preserves_call. intros w Hw h Hh. rewrite Hop. now apply Hw.
Qed.

Lemma clone_keeps ks w :
  kept w ->
  holds (let* bytes := call (KeyshareToBytes ks) in call (KeyshareFromBytes bytes))
    (on_ok (fun k w' => fresh_share k /\ kept w') kept) w.
Proof.
  intros Hw.
  apply (holds_ebind env _ _ _ kept (fun _ w' => kept w')).
  - apply (kept_op (KeyshareToBytes ks)); [apply (toBytes_reads env view contract) | exact Hw].
  - intros b w1 Hw1. apply holds_call.
    pose proof (fromBytes_fresh env view contract b w1) as Hf.
    destruct (env _ (KeyshareFromBytes b) w1) as [[k | msg] w2]; cbn.
    + destruct Hf as [Hnone Hother].
      assert (Hk : fresh_share k).
      { unfold Vocabulary.fresh_share. destruct (view w0 k) as [x |] eqn:E; [| reflexivity].
        rewrite (Hw1 k) in Hnone by (rewrite E; eauto). congruence. }
      split; [exact Hk |].
      intros h Hh. rewrite Hother; [now apply Hw1 |].
      intros ->. unfold Vocabulary.fresh_share in Hk. rewrite Hk in Hh. now destruct Hh.
    + intros h Hh. rewrite Hf. now apply Hw1.
  - intros msg w' Hw'. exact Hw'.
Qed.

Lemma signNew_keeps ks path w :
  fresh_share ks -> kept w ->
  holds (call (SignSessionNew ks path)) (on_ok (fun _ w' => True /\ kept w') kept) w.
Proof.
  intros Hks Hw. apply holds_call.
  assert (kept (env _ (SignSessionNew ks path) w).2) as Hkept.
  { intros h Hh. rewrite (signNew_consumes_one env view contract); [now apply Hw |].
    intros ->. unfold Vocabulary.fresh_share in Hks. rewrite Hks in Hh. now destruct Hh. }
  destruct (env _ (SignSessionNew ks path) w) as [[s | msg] w']; cbn in *; auto.
Qed.

Lemma clone_copy ks w k :
  (run env (let* bytes := call (KeyshareToBytes ks) in call (KeyshareFromBytes bytes)) w).1
  = Ok k ->
  copy_of (history env (let* bytes := call (KeyshareToBytes ks) in
                        call (KeyshareFromBytes bytes)) w) ks k.
Proof.
  rewrite run_ebind, history_ebind, run_call, history_call.
  destruct (env _ (KeyshareToBytes ks) w) as [[b | msg] w1]; cbn [fst snd];
    [| discriminate].
  rewrite run_call, history_call. intros Hk. exists b. split.
  - apply elem_of_cons. now left.
  - apply elem_of_cons. right. rewrite Hk. apply elem_of_cons. now left.
Qed.

(** Every copy the cloning loop returns is a new object. *)
Lemma clones_fresh (l : list handle) w :
  kept w ->
  holds (mapM (fun ks _ =>
           let* bytes := call (KeyshareToBytes ks) in
           call (KeyshareFromBytes bytes)) l)
    (on_ok (fun shares w' => Forall fresh_share shares /\ kept w') kept) w.
Proof.
  intros Hw.
  apply (holds_mapM env _ kept (fun _ => True) fresh_share); [| | exact Hw].
  - intros ks idx w1 _ Hw1. now apply clone_keeps.
  - now apply Forall_forall.
Qed.

(** The library calls that touch no keyshare. *)
Ltac keyshare_free contract :=
  apply kept_op;
  first [ apply (signFirst_keeps _ _ contract) | apply (signHandle_keeps _ _ contract)
        | apply (signLast_keeps _ _ contract) | apply (signCombine_keeps _ _ contract)
        | apply (keccak_keeps _ _ contract) | apply (recover_keeps _ _ contract) ].

Lemma signMessage_keeps messageHash keyshares threshold publicKey :
  holds (signMessage messageHash keyshares threshold publicKey)
    (fun _ w' => kept w') w0.
Proof.
  assert (kept w0) as H0 by (intros h _; reflexivity).
  unfold signMessage.
  apply (holds_try_catch env _ _ _ kept (fun _ w' => kept w'));
    [| intros; assumption | intros msg w' Hw'; exact Hw'].
  destruct (length keyshares <? threshold)%nat; [exact H0 |].
  (* cloning *)
  apply (holds_ebind env _ _ _ kept (fun shares w' => Forall fresh_share shares /\ kept w'));
    [| | intros; assumption].
  { now apply clones_fresh. }
  intros signingShares w1 [Hfresh Hw1].
  (* sessions *)
  apply (holds_ebind env _ _ _ kept (fun ps w' => Forall (fun _ => True) ps /\ kept w'));
    [| | intros; assumption].
  { apply (holds_mapM env _ kept fresh_share (fun _ => True)); [| exact Hfresh | exact Hw1].
    intros ks idx w Hks Hw. now apply signNew_keeps. }
  intros parties w2 [_ Hw2].
  (* the rounds, the online round and the v byte touch no keyshare *)
  revert w2 Hw2.
  match goal with
  | |- forall w2, kept w2 -> Vocabulary.holds env ?m _ w2 =>
      enough (Vocabulary.preserves env kept m) as Hp
  end.
  { intros w2 Hw2. exact (Hp w2 Hw2). }
  sign_rounds ltac:(keyshare_free contract).
Qed.

(** Where the sessions come from: the only keyshares [signMessage]
    serialises are among the first [threshold] of the caller's, and every
    session is built on a new object, the copy of one of them. *)
Lemma signMessage_sessions messageHash keyshares threshold publicKey e :
  e ∈ history env (signMessage messageHash keyshares threshold publicKey) w0 ->
  (forall ks, serialised_keyshare e = Some ks -> ks ∈ take threshold keyshares) /\
  (forall k, session_keyshare e = Some k ->
     fresh_share k /\
     exists ks, ks ∈ take threshold keyshares /\
       copy_of (history env (signMessage messageHash keyshares threshold publicKey) w0)
         ks k).
Proof.
  intros He.
  assert (kept w0) as H0 by (intros h _; reflexivity).
  remember (history env (signMessage messageHash keyshares threshold publicKey) w0)
    as Hall eqn:EH.
  assert (Hinc : history env (signMessage messageHash keyshares threshold publicKey) w0
                 ⊆ Hall) by now rewrite EH.
  rewrite EH in He. clear EH. unfold signMessage in He, Hinc.
  rewrite history_try_catch_rethrow in He, Hinc.
  destruct (length keyshares <? threshold)%nat; [inversion He |].
  (* cloning *)
  pose proof (clones_fresh (take threshold keyshares) w0 H0) as F1.
  pose proof (mapM_from_related env
                (fun ks (_ : nat) =>
                   let* bytes := call (KeyshareToBytes ks) in
                   call (KeyshareFromBytes bytes))
                (fun ks k h => copy_of h ks k)) as A1.
  descend He Hinc shares R1.
  { assert (Forall (fun e => (forall ks, serialised_keyshare e = Some ks ->
                                ks ∈ take threshold keyshares) /\
                             session_keyshare e = None)
              (history env
                 (mapM (fun ks (_ : nat) =>
                    let* bytes := call (KeyshareToBytes ks) in
                    call (KeyshareFromBytes bytes)) (take threshold keyshares)) w0))
      as Hc.
    { apply history_mapM_Forall. intros ks idx Hks. apply preserves_ebind.
      - apply logged_call. intros answer. split; [| reflexivity].
        intros ks' [= <-]. exact Hks.
      - intros b. apply logged_call. intros answer. split; [| reflexivity].
        intros ks' [=]. }
    rewrite Forall_forall in Hc. destruct (Hc e He) as [Hs Hn].
    split; [exact Hs |]. intros k Hk. congruence. }
  unfold Vocabulary.holds in F1. unfold mapM in R1. fold (@mapM) in R1.
  assert (Hfresh : Forall fresh_share shares).
  { unfold mapM in F1. rewrite R1 in F1. apply F1. }
  assert (Hcopies : Forall2 (fun ks k => copy_of Hall ks k)
                      (take threshold keyshares) shares).
  { eapply Forall2_impl.
    - apply (A1 ltac:(intros a b h h' (x & H1 & H2) Hsub; exists x; split; now apply Hsub)
               (fun ks _ w k => clone_copy ks w k)
               (take threshold keyshares) 0%nat w0 shares R1).
    - intros ks k (b & H1 & H2).
      exists b. split; apply Hinc; now apply history_ebind_subseteq_l. }
  clear A1 F1 R1 Hinc.
  match type of He with _ ∈ history env _ ?w' => generalize dependent w' end.
  intros w1 He Hinc.
  (* sessions *)
  descend He Hinc parties R2.
  { assert (Forall (fun e => serialised_keyshare e = None /\
                             forall k, session_keyshare e = Some k -> k ∈ shares)
              (history env (mapM (fun ks (_ : nat) => call (SignSessionNew ks "m")) shares)
                 w1)) as Hs.
    { apply history_mapM_Forall. intros k idx Hk. apply logged_call.
      intros answer. split; [reflexivity |]. intros k' [= <-]. exact Hk. }
    rewrite Forall_forall in Hs. destruct (Hs e He) as [Hn Hk].
    split; [intros ks Hks; congruence |].
    intros k Hsess. specialize (Hk k Hsess).
    split; [rewrite Forall_forall in Hfresh; now apply Hfresh |].
    apply list_elem_of_lookup in Hk as [i Hi].
    destruct (Forall2_lookup_r _ _ _ _ _ Hcopies Hi) as (ks & Hks & Hcopy).
    exists ks. split; [now apply list_elem_of_lookup_2 with i | exact Hcopy]. }
  (* the rounds open no session and serialise no keyshare *)
  match type of He with
  | _ ∈ history env ?m ?w' =>
      assert (Forall (fun e => serialised_keyshare e = None /\ session_keyshare e = None)
                (history env m w')) as Hn
        by (apply history_Forall; sign_rounds ltac:(now apply logged_call))
  end.
  rewrite Forall_forall in Hn. destruct (Hn e He) as [Hn1 Hn2].
  split; intros; congruence.
Qed.

(** When [signMessage] returns, each of the first [threshold] keyshares
    was serialised and copied. *)
Lemma signMessage_copies_all messageHash keyshares threshold publicKey r ks :
  (run env (signMessage messageHash keyshares threshold publicKey) w0).1 = Ok r ->
  ks ∈ take threshold keyshares ->
  exists k,
    copy_of (history env (signMessage messageHash keyshares threshold publicKey) w0) ks k.
Proof.
  unfold signMessage. rewrite history_try_catch_rethrow. intros Hrun Hks.
  apply run_try_catch_rethrow_ok in Hrun.
  destruct (length keyshares <? threshold)%nat; [discriminate |].
  rewrite run_ebind in Hrun.
  match type of Hrun with
  | context [run env (mapM ?f ?l) w0] =>
      destruct (run env (mapM f l) w0).1 as [shares | msg] eqn:R1; [| discriminate]
  end.
  clear Hrun.
  pose proof (mapM_from_related env _ (fun ks k h => copy_of h ks k)
                ltac:(intros a b h h' (x & H1 & H2) Hsub; exists x; split; now apply Hsub)
                (fun ks _ w k => clone_copy ks w k)
                (take threshold keyshares) 0%nat w0 shares R1) as Hcopies.
  apply list_elem_of_lookup in Hks as [i Hi].
  destruct (Forall2_lookup_l _ _ _ _ _ Hcopies Hi) as (k & _ & b & H1 & H2).
  exists k, b. split; now apply history_ebind_subseteq_l.
Qed.

End KeyshareFrame.

(** C10. [signMessage] does not consume or change the caller's keyshares.
    Against every library that honours the keyshare contract, and whether
    the call returns or throws: every keyshare object that was live before
    the call is afterwards as it was; the only keyshares the call
    serialises are among the first [threshold] of the caller's; every
    [SignSession] it opens is built on an object that did not exist before
    the call, the one [Keyshare.fromBytes] answered for the bytes [toBytes]
    gave for one of those keyshares; and when the call returns, each of
    the first [threshold] keyshares was copied in this way. *)
Theorem C10_signMessage_keeps_caller_keyshares
    {W K : Type} (env : Lib.Env W) (view : W -> nat -> option K)
    (messageHash : list byte) (keyshares : list nat) (threshold : nat)
    (publicKey : option string) (w : W) :
  Vocabulary.KeyshareContract env view ->
  (forall h, is_Some (view w h) ->
     view (Lib.run env (Service.signMessage messageHash keyshares threshold publicKey) w).2 h
     = view w h) /\
  (forall e,
     e ∈ Lib.history env (Service.signMessage messageHash keyshares threshold publicKey) w ->
     (forall ks, Vocabulary.serialised_keyshare e = Some ks ->
        ks ∈ take threshold keyshares) /\
     (forall k, Vocabulary.session_keyshare e = Some k ->
        view w k = None /\
        exists ks, ks ∈ take threshold keyshares /\
          Vocabulary.copy_of
            (Lib.history env
               (Service.signMessage messageHash keyshares threshold publicKey) w) ks k)) /\
  (forall r ks,
     (Lib.run env (Service.signMessage messageHash keyshares threshold publicKey) w).1
     = Ok r ->
     ks ∈ take threshold keyshares ->
     exists k,
       Vocabulary.copy_of
         (Lib.history env
            (Service.signMessage messageHash keyshares threshold publicKey) w) ks k).
Proof.
  intros contract. split; [| split].
  - intros h Hh.
    exact (signMessage_keeps env view contract w messageHash keyshares threshold
             publicKey h Hh).
  - intros e He.
    exact (signMessage_sessions env view contract w messageHash keyshares threshold
             publicKey e He).
  - intros r ks Hr Hks.
    exact (signMessage_copies_all env w messageHash keyshares threshold publicKey
             r ks Hr Hks).
Qed.

Section StubFacts.
Import JS Wire Lib Vocabulary.

Lemma stub_contract recovered :
  KeyshareContract (Stub.env recovered) (fun w h => w !! h).
Proof.
  constructor; try reflexivity.
  - intros ks w h. cbn. now destruct (w !! ks).
  - intros b w. cbn. split.
    + apply not_elem_of_dom, is_fresh.
    + intros h Hh. now apply lookup_insert_ne.
  - intros ks path w h Hh. cbn. destruct (w !! ks); [| reflexivity].
    cbn. now apply lookup_delete_ne.
  - intros s mh w h. cbn. now destruct (length mh =? 32)%nat.
Qed.


End StubFacts.

Lemma C10_signMessage_keeps_caller_keyshares_witness :
  (Lib.run (Stub.env "0x00")
     (Service.signMessage (replicate 32 Byte.x00) [0; 1]%nat 2 None)
     Stub.two_shares).2 !! 0%nat
  = Stub.two_shares !! 0%nat /\
  (Stub.two_shares !! 2%nat = None /\
   exists ks, ks ∈ take 2 [0; 1]%nat /\
     Vocabulary.copy_of
       (Lib.history (Stub.env "0x00")
          (Service.signMessage (replicate 32 Byte.x00) [0; 1]%nat 2 None)
          Stub.two_shares) ks 2%nat) /\
  (exists k,
     Vocabulary.copy_of
       (Lib.history (Stub.env "0x00")
          (Service.signMessage (replicate 32 Byte.x00) [0; 1]%nat 2 None)
          Stub.two_shares) 1%nat k).
Proof.
  destruct (C10_signMessage_keeps_caller_keyshares (Stub.env "0x00") (fun w h => w !! h)
              (replicate 32 Byte.x00) [0; 1]%nat 2 None Stub.two_shares
              (stub_contract "0x00")) as (Hkept & Hsessions & Hcopies).
  split; [| split].
  - apply Hkept. exists [Byte.x00]. reflexivity.
  - apply (Hsessions (Lib.event (Lib.SignSessionNew 2 "m") (Ok 2%nat))); [| reflexivity].
    apply list_elem_of_lookup_2 with 4%nat. reflexivity.
  - apply (Hcopies {| Service.signature := "0x0102"; Service.sig_r := "0x01";
                      Service.sig_s := "0x02"; Service.sig_v := 27 |} 1%nat).
    + reflexivity.
    + apply elem_of_cons. right. apply elem_of_cons. now left.
Defined.

(** ** The digest length *)
Section DigestLength.
Import JS Wire Lib Vocabulary Service SDK.

(** C6, as stated, fails for [DKLSService.signMessage], which [signHash]
    wraps and which is exported on its own: handed a 31-byte hash it clones
    the keyshares, opens the sessions and runs the three pre-signature
    rounds; the short hash only reaches the library in the online round
    (where the stand-in library rejects it). *)
Lemma C6_counterexample :
  let h31 : bytes := replicate 31 Byte.x00 in
  let m (s : nat) : Message := mkFrame s None [] in
  length h31 = 31%nat /\
  calls (Stub.env "0x00") (signMessage h31 [0; 1]%nat 2 None) Stub.two_shares =
    [anyOp (KeyshareToBytes 0); anyOp (KeyshareFromBytes [Byte.x00]);
     anyOp (KeyshareToBytes 1); anyOp (KeyshareFromBytes [Byte.x01]);
     anyOp (SignSessionNew 2 "m"); anyOp (SignSessionNew 3 "m");
     anyOp (SignCreateFirstMessage 2); anyOp (SignCreateFirstMessage 3);
     anyOp (SignHandleMessages 2 [m 3%nat]); anyOp (SignHandleMessages 3 [m 2%nat]);
     anyOp (SignHandleMessages 2 []); anyOp (SignHandleMessages 3 []);
     anyOp (SignHandleMessages 2 []); anyOp (SignHandleMessages 3 []);
     anyOp (SignLastMessage 2 h31)] /\
  (run (Stub.env "0x00") (signMessage h31 [0; 1]%nat 2 None) Stub.two_shares).1 =
    Throw "Failed to sign message: Invalid message hash length".
Proof. vm_compute. repeat split. Qed.

Lemma signMessage_online_digest {W} (env : Env W) w messageHash keyshares threshold
    publicKey :
  Forall (fun o => forall d, online_digest o = Some d -> d = messageHash)
    (calls env (signMessage messageHash keyshares threshold publicKey) w).
Proof.
  apply calls_Forall.
  apply signMessage_preserves; intros; apply logged_call; cbn;
    intros answer d' Hd; congruence.
Qed.

(** C6, amended. [BitShardSDK.signHash] accepts exactly 32 bytes and hashes
    nothing.  When the hash, decoded from hexadecimal if it is a string, has
    any other length, the call throws 'Invalid hash length' and no library
    call is made, whatever the library is.  In any case, a digest that
    [signHash] hands to the library's online round is the 32 bytes it was
    given. *)
Theorem C6_signHash_accepts_32_bytes
    {W : Type} (env : Env W) (w : W)
    (hash : HashInput) (keyshares : list nat) (options : SignOptions) :
  (length (hashBytes_of hash) <> 32%nat ->
   run env (signHash hash keyshares options) w =
     (Throw ("Invalid hash length: expected 32 bytes, got "
             +:+ Elliptic.show_nat (length (hashBytes_of hash))), w) /\
   calls env (signHash hash keyshares options) w = []) /\
  Forall (fun o => forall d, online_digest o = Some d ->
                   d = hashBytes_of hash /\ length d = 32%nat)
    (calls env (signHash hash keyshares options) w).
Proof.
  unfold signHash.
  destruct (length (hashBytes_of hash) =? 32)%nat eqn:Hlen; cbn [negb].
  - apply Nat.eqb_eq in Hlen. split; [intros Hne; contradiction |].
    eapply Forall_impl; [apply signMessage_online_digest |].
    cbn beta. intros o Ho d Hd. specialize (Ho d Hd). subst d. now split.
  - split; [intros _; split; reflexivity | constructor].
Qed.

Lemma C6_signHash_accepts_32_bytes_witness :
  let call_ := signHash (HashString "0x1234") [0; 1]%nat (mkSignOptions None None) in
  run (Stub.env "0x00") call_ Stub.two_shares =
    (Throw ("Invalid hash length: expected 32 bytes, got "
            +:+ Elliptic.show_nat (length (hashBytes_of (HashString "0x1234")))),
     Stub.two_shares) /\
  calls (Stub.env "0x00") call_ Stub.two_shares = [].
Proof.
  apply (C6_signHash_accepts_32_bytes (Stub.env "0x00") Stub.two_shares
           (HashString "0x1234") [0; 1]%nat (mkSignOptions None None)).
  vm_compute. discriminate.
Defined.

End DigestLength.

(** ** The recovery id *)
Section RecoveryId.
Import JS Wire Lib Vocabulary Service.

Lemma returns_only_any_ebind {W} (env : Env W) {A B} (P : B -> Prop)
    (m : E A) (f : A -> E B) :
  (forall a, returns_only env P (f a)) -> returns_only env P (ebind m f).
Proof.
  intros Hf w.
  apply (holds_ebind env _ _ _ (fun _ => True) (fun _ _ => True)).
  - unfold holds. now destruct (run env m w).1.
  - intros a w' _. apply Hf.
  - intros msg w' _. exact I.
Qed.

Lemma returns_only_ebind {W} (env : Env W) {A B} (PA : A -> Prop) (P : B -> Prop)
    (m : E A) (f : A -> E B) :
  returns_only env PA m ->
  (forall a, PA a -> returns_only env P (f a)) -> returns_only env P (ebind m f).
Proof.
  intros Hm Hf w.
  apply (holds_ebind env _ _ _ (fun _ => True) (fun a _ => PA a)).
  - apply Hm.
  - intros a w' Ha. now apply Hf.
  - intros msg w' _. exact I.
Qed.

Lemma returns_only_try_catch {W} (env : Env W) {A} (P : A -> Prop)
    (m : E A) (h : string -> E A) :
  returns_only env P m -> (forall msg, returns_only env P (h msg)) ->
  returns_only env P (try_catch m h).
Proof.
  intros Hm Hh w.
  apply (holds_try_catch env _ _ _ (fun _ => True) (fun a _ => P a)).
  - apply Hm.
  - intros a w' Ha. exact Ha.
  - intros msg w' _. apply Hh.
Qed.







End RecoveryId.

(** ** One-shot sessions and pre-signatures *)
Section OneShot.
Import JS Wire Lib Vocabulary.

(** After a [combine] that returned, the party holds no sign session. *)
Lemma party_combine_clears {W} (env : Env W) w messages self sig self' w' :
  run env (Party.combine messages self) w = ((Ok sig, self'), w') ->
  Party.signSession self' = None.
Proof.
  unfold Party.combine. destruct (Party.signSession self) as [s |] eqn:Hs.
  - rewrite run_pbind.
    destruct (run env _ w) as [[signature | msg] w1]; cbn [fst snd run].
    + destruct signature as [| sig0 [| sig1 [| sig2 rest]]]; cbn [run];
        intros H; inversion H; reflexivity.
    + intros H; inversion H.
  - cbn [run]. intros H; inversion H.
Qed.

Lemma party_spent self :
  Party.signSession self = None ->
  (forall messageHash,
     Party.lastMessage messageHash self = Ret (Throw "No active sign session", self)) /\
  (forall messages,
     Party.combine messages self = Ret (Throw "No active sign session", self)) /\
  Party.getSessionType self <> Party.signing.
Proof.
  intros Hs. unfold Party.lastMessage, Party.combine, Party.getSessionType.
  rewrite Hs. repeat split. destruct (Party.keygenSession self); discriminate.
Qed.

(** What a first [signWithPreSignature] leaves behind. *)
Lemma presig_first_call {W} (env : Env W) w messageHash l st ps :
  PreSig.heap st !! l = Some ps ->
  let out := run env (PreSig.signWithPreSignature messageHash l st) w in
  let st' := out.1.2 in
  exists ps',
    PreSig.heap st' !! l = Some ps' /\ PreSig.id ps' = PreSig.id ps /\
    (PreSig.isConsumed (PreSig.id ps) st' = true \/ PreSig.consumed ps' = true) /\
    (is_throw out.1.1 = false ->
     PreSig.isConsumed (PreSig.id ps) st' = true /\ PreSig.consumed ps' = true).
Proof.
  intros Hl. cbv zeta. unfold PreSig.signWithPreSignature. rewrite Hl.
  destruct (bool_decide (PreSig.id ps ∈ PreSig.consumedPreSignatures st)) eqn:Hset.
  - cbn [run fst snd is_throw]. exists ps.
    split; [exact Hl |]. split; [reflexivity |]. split; [left; exact Hset |].
    intros H; discriminate H.
  - destruct (PreSig.consumed ps) eqn:Hflag.
    + cbn [run fst snd is_throw]. exists ps.
      split; [exact Hl |]. split; [reflexivity |]. split; [now right |].
      intros H; discriminate H.
    + rewrite run_pbind. cbn [run fst snd PreSig.heap PreSig.consumedPreSignatures].
      exists (PreSig.set_consumed ps).
      assert (PreSig.isConsumed (PreSig.id ps)
                {| PreSig.consumedPreSignatures :=
                     {[PreSig.id ps]} ∪ PreSig.consumedPreSignatures st;
                   PreSig.preSignaturePool := PreSig.preSignaturePool st;
                   PreSig.heap := <[l := PreSig.set_consumed ps]> (PreSig.heap st) |}
              = true) as Hc.
      { unfold PreSig.isConsumed. apply bool_decide_eq_true. cbn. set_solver. }
      split; [apply lookup_insert_eq |]. split; [reflexivity |].
      split; [now left |]. intros _. split; [exact Hc | reflexivity].
Qed.

Lemma presig_spent messageHash l st ps :
  PreSig.heap st !! l = Some ps ->
  PreSig.isConsumed (PreSig.id ps) st = true \/ PreSig.consumed ps = true ->
  exists msg, PreSig.signWithPreSignature messageHash l st = Ret (Throw msg, st).
Proof.
  intros Hl Hspent. unfold PreSig.signWithPreSignature. rewrite Hl.
  unfold PreSig.isConsumed in Hspent.
  destruct (bool_decide (PreSig.id ps ∈ PreSig.consumedPreSignatures st)); [eauto |].
  destruct Hspent as [H | H]; [discriminate H |]. rewrite H. eauto.
Qed.

(** C1. A sign session and a pre-signature sign once.
    - [DKLSParty]: once [combine] has returned a signature, the party holds
      no sign session; a further [lastMessage] or [combine] throws
      'No active sign session' without calling the library, and
      [getSessionType] no longer answers 'signing'.
    - [PreSignatureManager]: after a first [signWithPreSignature] on a
      pre-signature, whatever its outcome, every further call on the same
      pre-signature throws without calling the library and leaves the state
      alone; when the first call returned a signature, [isConsumed] answers
      true and the object's [consumed] flag is set. *)
Theorem C1_one_shot {W : Type} (env : Env W) (w : W) :
  (forall messages self sig self' w',
     run env (Party.combine messages self) w = ((Ok sig, self'), w') ->
     (forall messageHash,
        Party.lastMessage messageHash self' =
        Ret (Throw "No active sign session", self')) /\
     (forall messages',
        Party.combine messages' self' = Ret (Throw "No active sign session", self')) /\
     Party.getSessionType self' <> Party.signing) /\
  (forall messageHash l st ps,
     PreSig.heap st !! l = Some ps ->
     let out := run env (PreSig.signWithPreSignature messageHash l st) w in
     let st' := out.1.2 in
     (forall messageHash', exists msg,
        PreSig.signWithPreSignature messageHash' l st' = Ret (Throw msg, st')) /\
     (is_throw out.1.1 = false ->
      PreSig.isConsumed (PreSig.id ps) st' = true /\
      exists ps', PreSig.heap st' !! l = Some ps' /\ PreSig.consumed ps' = true)).
Proof.
  split.
  - intros messages self sig self' w' Hrun.
    apply party_spent. exact (party_combine_clears env w messages self sig self' w' Hrun).
  - intros messageHash l st ps Hl.
    destruct (presig_first_call env w messageHash l st ps Hl)
      as (ps' & Hl' & Hid & Hspent & Hok).
    cbv zeta in *. split.
    + intros messageHash'. apply (presig_spent messageHash' l _ ps' Hl').
      now rewrite Hid.
    + intros Hnothrow. destruct (Hok Hnothrow) as [Hc Hf].
      split; [exact Hc |]. exists ps'. split; assumption.
Qed.

Lemma C1_one_shot_witness :
  let self :=
    Party.mkParty (Party.mkPartyConfig 0 3 2) None (Some 7%nat) None [] in
  let st :=
    PreSig.mkState ∅ {[ "presig-1" := 0%nat ]}
      {[ 0%nat := PreSig.mkPreSignature "presig-1" [2; 3]%nat 0 false ]} in
  (forall messageHash,
     Party.lastMessage messageHash (Party.set_signSession None self) =
     Ret (Throw "No active sign session", Party.set_signSession None self)) /\
  (forall messageHash', exists msg,
     PreSig.signWithPreSignature messageHash' 0
       (run (Stub.env "0x00")
          (PreSig.signWithPreSignature (replicate 32 Byte.x00) 0 st) ∅).1.2 =
     Ret (Throw msg,
          (run (Stub.env "0x00")
             (PreSig.signWithPreSignature (replicate 32 Byte.x00) 0 st) ∅).1.2)).
Proof.
  cbv zeta.
  destruct (C1_one_shot (Stub.env "0x00") ∅) as [Hparty Hpresig].
  split.
  - refine (proj1 (Hparty []
              (Party.mkParty (Party.mkPartyConfig 0 3 2) None (Some 7%nat) None [])
              ([Byte.x01], [Byte.x02]) _ ∅ _)).
    reflexivity.
  - refine (proj1 (Hpresig (replicate 32 Byte.x00) 0%nat
              (PreSig.mkState ∅ {[ "presig-1" := 0%nat ]}
                 {[ 0%nat := PreSig.mkPreSignature "presig-1" [2; 3]%nat 0 false ]})
              (PreSig.mkPreSignature "presig-1" [2; 3]%nat 0 false) _)).
    reflexivity.
Defined.

End OneShot.

(** ** The keygen rounds *)



Section KeygenHistory.
Import JS Wire Lib Vocabulary Service.
Context {W : Type} (env : Env W).

Lemma executeDKG_commitments parties w e cm :
  e ∈ history env (executeDKG parties) w ->
  commitments_arg e = Some cm ->
  exists msg1 raws,
    Forall2 (fun p m => event (KeygenCreateFirstMessage p) (Ok m)
                        ∈ history env (executeDKG parties) w) parties msg1 /\
    Forall2 (fun p c => event (KeygenCalculateChainCodeCommitment p) (Ok c)
                        ∈ history env (executeDKG parties) w) parties raws /\
    cm = index_commitments (length parties) (map from_id msg1) raws.
Proof.
  intros He Harg.
  remember (history env (executeDKG parties) w) as Hall eqn:EH.
  assert (Hinc : history env (executeDKG parties) w ⊆ Hall) by now rewrite EH.
  rewrite EH in He. clear EH. unfold executeDKG in He, Hinc.
  (* round 1 *)
  pose proof (mapM_from_answers env (fun p _ => KeygenCreateFirstMessage p) parties 0 w) as A1.
  descend He Hinc msg1 R1.
  { exfalso. revert He Harg. apply no_commitments_in.
    apply preserves_mapM. intros p idx. now apply logged_call. }
  assert (A1' : Forall2 (fun p m => event (KeygenCreateFirstMessage p) (Ok m) ∈ Hall)
                  parties msg1).
  { eapply Forall2_impl; [exact (A1 msg1 R1) |]. intros p m [i Hi]. apply Hinc.
    now apply history_ebind_subseteq_l. }
  clear A1 Hinc R1.
  match type of He with _ ∈ history env _ ?w' => generalize dependent w' end.
  intros w1 He Hinc.
  (* round 2 *)
  descend He Hinc msg2 R2.
  { exfalso. revert He Harg. apply no_commitments_in.
    apply preserves_flatMapM. intros p idx. now apply logged_call. }
  clear Hinc R2.
  match type of He with _ ∈ history env _ ?w' => generalize dependent w' end.
  intros w2 He Hinc.
  (* the commitments *)
  pose proof (mapM_from_answers env (fun p _ => KeygenCalculateChainCodeCommitment p)
                parties 0 w2) as Ac.
  descend He Hinc raws Rc.
  { exfalso. revert He Harg. apply no_commitments_in.
    apply preserves_mapM. intros p idx. now apply logged_call. }
  assert (Ac' : Forall2 (fun p c => event (KeygenCalculateChainCodeCommitment p) (Ok c)
                                    ∈ Hall) parties raws).
  { eapply Forall2_impl; [exact (Ac raws Rc) |]. intros p c [i Hi]. apply Hinc.
    now apply history_ebind_subseteq_l. }
  clear Ac Hinc Rc.
  match type of He with _ ∈ history env _ ?w' => generalize dependent w' end.
  intros w3 He Hinc.
  exists msg1, raws. split; [exact A1' |]. split; [exact Ac' |].
  clear A1' Ac'.
  (* round 3 *)
  descend He Hinc msg3 R3.
  { exfalso. revert He Harg. apply no_commitments_in.
    apply preserves_flatMapM. intros p idx. now apply logged_call. }
  clear Hinc Hinc0 R3.
  match type of He with _ ∈ history env _ ?w' => generalize dependent w' end.
  intros w4 He.
  (* round 4: the sessions are handed the commitments *)
  apply elem_of_history_ebind in He as [He | (msg4 & R4 & He)].
  { assert (Forall (fun e => commitments_arg e =
                      Some (index_commitments (length parties) (map from_id msg1) raws))
              (history env
                 (flatMapM (fun p idx =>
                    call (KeygenHandleMessages p
                            (selectMessages_at msg3 (map from_id msg1) idx)
                            (Some (index_commitments (length parties)
                                     (map from_id msg1) raws)))) parties) w4)) as Hall4.
    { apply history_Forall. apply preserves_flatMapM. intros p idx.
      now apply logged_call. }
    rewrite Forall_forall in Hall4. specialize (Hall4 e He). congruence. }
  exfalso. clear R4.
  match type of He with _ ∈ history env _ ?w' => generalize dependent w' end.
  intros w5 He.
  apply elem_of_history_ebind in He as [He | (u & R5 & He)].
  { revert He Harg. apply no_commitments_in.
    apply preserves_forEachM. intros p idx. now apply logged_call. }
  revert He Harg. apply no_commitments_in.
  apply preserves_mapM. intros p idx. now apply logged_call.
Qed.

End KeygenHistory.

Section KeygenClaims.
Import JS Wire Lib Vocabulary Service.

(** C8. In every run of [executeDKG], against any library, a commitments
    vector [cm] handed to a keygen session is indexed by party id: with
    [msg1] the round-1 frames and [raws] the chain-code commitments that the
    parties' sessions answered in this run, position by position, the slot
    [cm[from_id]] of the frame of the party at position [idx] holds the
    commitment computed by that party, wherever the ids lie. *)
Theorem C8_commitments_indexed_by_from_id
    {W : Type} (env : Env W) (w : W) (parties : list nat)
    (e : Event) (cm : list (option (list byte))) :
  e ∈ history env (executeDKG parties) w ->
  commitments_arg e = Some cm ->
  exists (msg1 : list Message) (raws : list Commitment),
    Forall2 (fun p m => event (KeygenCreateFirstMessage p) (Ok m)
                        ∈ history env (executeDKG parties) w) parties msg1 /\
    Forall2 (fun p c => event (KeygenCalculateChainCodeCommitment p) (Ok c)
                        ∈ history env (executeDKG parties) w) parties raws /\
    (NoDup (map from_id msg1) ->
     forall idx m c,
       msg1 !! idx = Some m -> raws !! idx = Some c ->
       array_get (from_id m) cm = Some c).
Proof.
  intros He Harg.
  destruct (executeDKG_commitments env parties w e cm He Harg)
    as (msg1 & raws & H1 & Hc & ->).
  exists msg1, raws. split; [exact H1 |]. split; [exact Hc |].
  intros Hnd idx m c Hm Hraw.
  rewrite (Forall2_length _ _ _ H1).
  exact (index_commitments_at msg1 raws idx m c Hnd Hm Hraw).
Qed.

Lemma C8_commitments_indexed_by_from_id_witness :
  let cm : list (option (list byte)) :=
    [None; None; None; None; None;
     Some [Byte.x05]; Some [Byte.x06]; Some [Byte.x07]] in
  exists (msg1 : list Message) (raws : list Commitment),
    Forall2 (fun p m => event (KeygenCreateFirstMessage p) (Ok m)
                        ∈ history (Stub.env "0x00") (executeDKG [5; 6; 7]%nat) ∅)
      [5; 6; 7]%nat msg1 /\
    Forall2 (fun p c => event (KeygenCalculateChainCodeCommitment p) (Ok c)
                        ∈ history (Stub.env "0x00") (executeDKG [5; 6; 7]%nat) ∅)
      [5; 6; 7]%nat raws /\
    (NoDup (map from_id msg1) ->
     forall idx m c,
       msg1 !! idx = Some m -> raws !! idx = Some c ->
       array_get (from_id m) cm = Some c).
Proof.
  apply (C8_commitments_indexed_by_from_id (Stub.env "0x00") ∅ [5; 6; 7]%nat
           (event (KeygenHandleMessages 5 []
                     (Some [None; None; None; None; None;
                            Some [Byte.x05]; Some [Byte.x06]; Some [Byte.x07]]))
                  (Ok []))).
  - apply list_elem_of_lookup. exists 12%nat. vm_compute. reflexivity.
  - reflexivity.
Defined.

End KeygenClaims.

(* ================================================================== *)
(** * The byte and hex codecs of [crypto/encoding.ts] *)
(* ================================================================== *)

(** ** Bytes *)
Section ByteFacts.
Import JS JSNumber CodecVocabulary.

Lemma byteValue_range b : 0 <= byteValue b < 256.
Proof.
  unfold byteValue. pose proof (Byte.to_N_bounded b). lia.
Qed.

Lemma byte_of_Z_byteValue b : byte_of_Z (byteValue b) = b.
Proof.
  unfold byte_of_Z, byteValue. rewrite N2Z.id. now rewrite Byte.of_to_N.
Qed.

Lemma byteValue_byte_of_Z z : 0 <= z < 256 -> byteValue (byte_of_Z z) = z.
Proof.
  intros Hz. unfold byte_of_Z, byteValue.
  destruct (Byte.of_N (Z.to_N z)) as [b |] eqn:E.
  - apply Byte.to_of_N in E. rewrite E. lia.
  - apply Byte.of_N_None_iff in E. lia.
Qed.

Lemma byteValue_inj a b : byteValue a = byteValue b -> a = b.
Proof.
  intros H. rewrite <- (byte_of_Z_byteValue a), <- (byte_of_Z_byteValue b). now rewrite H.
Qed.

Lemma be_value_app acc a b : be_value acc (a ++ b) = be_value (be_value acc a) b.
Proof. unfold be_value. apply fold_left_app. Qed.

Lemma be_value_acc b : forall acc,
  be_value acc b = acc * 256 ^ Z.of_nat (length b) + be_value 0 b.
Proof.
  induction b as [| x b IH]; intros acc.
  - cbn. lia.
  - cbn [be_value fold_left length]. fold (be_value (acc * 256 + byteValue x) b).
    fold (be_value (0 * 256 + byteValue x) b).
    rewrite IH, (IH (0 * 256 + byteValue x)).
    rewrite Nat2Z.inj_succ, Z.pow_succ_r by lia. ring.
Qed.

Lemma be_value_bounds b : 0 <= be_value 0 b < 256 ^ Z.of_nat (length b).
Proof.
  induction b as [| x b IH] using rev_ind.
  - cbn. lia.
  - rewrite be_value_app, length_app. cbn [length be_value fold_left].
    fold (be_value 0 b). pose proof (byteValue_range x).
    replace (Z.of_nat (length b + 1)) with (Z.succ (Z.of_nat (length b))) by lia.
    rewrite Z.pow_succ_r by lia. lia.
Qed.

Lemma be_value_cons x b :
  be_value 0 (x :: b) = byteValue x * 256 ^ Z.of_nat (length b) + be_value 0 b.
Proof.
  cbn [be_value fold_left]. fold (be_value (0 * 256 + byteValue x) b).
  rewrite be_value_acc. ring.
Qed.

(** Byte strings of one length with one value are equal. *)
Lemma be_value_inj a : forall b,
  length a = length b -> be_value 0 a = be_value 0 b -> a = b.
Proof.
  induction a as [| x a IH]; intros [| y b] Hlen Hval; try discriminate; [reflexivity |].
  injection Hlen as Hlen.
  rewrite !be_value_cons, <- Hlen in Hval.
  pose proof (be_value_bounds a) as Ha. pose proof (be_value_bounds b) as Hb.
  rewrite <- Hlen in Hb.
  pose proof (byteValue_range x). pose proof (byteValue_range y).
  assert (0 < 256 ^ Z.of_nat (length a)) as Hpos by (apply Z.pow_pos_nonneg; lia).
  assert (byteValue x = byteValue y) as Hxy by nia.
  f_equal; [now apply byteValue_inj |].
  apply IH; [exact Hlen |]. rewrite Hxy in Hval. lia.
Qed.

Lemma be_value_zeros k b : be_value 0 (replicate k Byte.x00 ++ b) = be_value 0 b.
Proof.
  induction k as [| k IH]; [reflexivity |].
  cbn [replicate app be_value fold_left]. exact IH.
Qed.

End ByteFacts.

(** ** Hexadecimal text *)
Section HexFacts.
Import JS JSNumber Encoding CodecVocabulary.

Lemma number_toString16_pair b :
  padStart 2 "0" (toString16 (byteValue b)) = hex_pair b.
Proof. destruct b; reflexivity. Qed.

Lemma parseInt16_pair b : ToUint8 (parseInt16 (hex_pair b)) = b.
Proof. destruct b; reflexivity. Qed.

Lemma Buffer_to_hex_cons b bs : Buffer_to_hex (b :: bs) = hex_pair b +:+ Buffer_to_hex bs.
Proof. reflexivity. Qed.

Lemma Buffer_to_hex_app a : forall b,
  Buffer_to_hex (a ++ b) = Buffer_to_hex a +:+ Buffer_to_hex b.
Proof.
  induction a as [| x a IH]; intros b; [reflexivity |].
  cbn [app]. rewrite !Buffer_to_hex_cons, IH. now rewrite append_assoc.
Qed.

Lemma Buffer_to_hex_length b : String.length (Buffer_to_hex b) = (2 * length b)%nat.
Proof. induction b as [| x b IH]; cbn in *; lia. Qed.

Lemma bytesToHex_Buffer b : bytesToHex b false = Buffer_to_hex b.
Proof.
  unfold bytesToHex. induction b as [| x b IH]; [reflexivity |].
  cbn [map]. rewrite Buffer_to_hex_cons, <- IH, number_toString16_pair.
  destruct b as [| y b]; [reflexivity |]. reflexivity.
Qed.

Lemma hexDigitChar_not_x d : 0 <= d < 16 -> hexDigitChar d <> "x"%char.
Proof.
  intros Hd E. pose proof (hexDigit_roundtrip d Hd) as H. rewrite E in H. discriminate H.
Qed.

Lemma strip_0x_prefixed s : strip_0x ("0x" +:+ s) = s.
Proof.
  unfold strip_0x. change ("0x" +:+ s) with (String "0" (String "x" s)).
  cbn [startsWith Ascii.eqb Bool.eqb]. unfold slice_from. cbn [String.length].
  replace (S (S (String.length s)) - 2)%nat with (String.length s) by lia.
  cbn [String.substring]. apply substring_all.
Qed.

Lemma strip_0x_Buffer_to_hex b : strip_0x (Buffer_to_hex b) = Buffer_to_hex b.
Proof.
  destruct b as [| x b]; [reflexivity |].
  unfold strip_0x. cbn [Buffer_to_hex startsWith].
  destruct (Ascii.eqb "0" _); [| reflexivity].
  destruct (Ascii.eqb "x" _) eqn:E; [| reflexivity].
  apply Ascii.eqb_eq in E. symmetry in E.
  apply hexDigitChar_not_x in E; [destruct E |].
  apply Z.mod_pos_bound. lia.
Qed.

Lemma map_substr_pairs {A} (f : string -> A) : forall n s,
  String.length s = (2 * n)%nat ->
  map (fun i => f (String.substring (i * 2) 2 s)) (seq 0 n) = map_pairs f s.
Proof.
  induction n as [| n IH]; intros s Hs.
  - destruct s; [reflexivity | discriminate].
  - destruct s as [| a [| c rest]]; try discriminate.
    { cbn in Hs. lia. }
    cbn [seq map map_pairs]. f_equal.
    + cbn. now destruct rest.
    + rewrite <- seq_shift, map_map. rewrite <- (IH rest) by (cbn in Hs; lia).
      apply map_ext. intros i. reflexivity.
Qed.

Lemma map_pairs_Buffer_to_hex {A} (f : string -> A) b :
  map_pairs f (Buffer_to_hex b) = map (fun x => f (hex_pair x)) b.
Proof. induction b as [| x b IH]; [reflexivity |]. cbn. now rewrite <- IH. Qed.

Lemma even_double n : (2 * n mod 2 =? 0)%nat = true.
Proof.
  apply Nat.eqb_eq. rewrite Nat.mul_comm. apply Nat.Div0.mod_mul.
Qed.

Lemma half_double n : (2 * n / 2)%nat = n.
Proof. rewrite Nat.mul_comm. apply Nat.div_mul. lia. Qed.

Lemma hexToBytes_of_Buffer_to_hex h b :
  strip_0x h = Buffer_to_hex b -> hexToBytes h = Ok b.
Proof.
  intros Hclean. unfold hexToBytes. rewrite Hclean, Buffer_to_hex_length.
  rewrite even_double, half_double. cbn [negb]. f_equal.
  rewrite (map_substr_pairs (fun s => ToUint8 (parseInt16 s)) (length b))
    by apply Buffer_to_hex_length.
  rewrite map_pairs_Buffer_to_hex.
  erewrite map_ext; [apply map_id |]. intros x. apply parseInt16_pair.
Qed.

Lemma Buffer_from_to_hex b : Buffer_from_hex (Buffer_to_hex b) = b.
Proof.
  induction b as [| x b IH]; [reflexivity |].
  cbn [Buffer_to_hex Buffer_from_hex].
  pose proof (byteValue_range x) as Hx. unfold byteValue in Hx.
  rewrite !hexDigit_roundtrip by
    (try apply Z.mod_pos_bound; try (split; [apply Z.div_pos | apply Z.div_lt_upper_bound]);
     lia).
  rewrite IH. f_equal.
  rewrite Z.mul_comm, <- Z.div_mod by lia. apply byte_of_Z_byteValue.
Qed.

End HexFacts.

(** ** Well-formed hexadecimal text *)
Section WellFormedHex.
Import JS JSNumber Encoding CodecVocabulary Address.

(** The characters [hexDigitValue] accepts, with their values. *)
Lemma hexDigitValue_cases a v :
  hexDigitValue a = Some v ->
  In (a, v)
    [("0", 0); ("1", 1); ("2", 2); ("3", 3); ("4", 4); ("5", 5); ("6", 6); ("7", 7);
     ("8", 8); ("9", 9); ("a", 10); ("b", 11); ("c", 12); ("d", 13); ("e", 14);
     ("f", 15); ("A", 10); ("B", 11); ("C", 12); ("D", 13); ("E", 14); ("F", 15)]%char.
Proof.
  destruct a as [[] [] [] [] [] [] [] []]; cbv [hexDigitValue]; cbn;
    intros H; try discriminate H; injection H as <-;
    repeat first [left; reflexivity | right].
Qed.

Ltac hex_cases H :=
  apply hexDigitValue_cases in H; cbn [In] in H;
  repeat (destruct H as [H | H]; [inversion H; subst; clear H |]); [.. | destruct H].

(** [parseInt] and [Buffer.from] read a pair of digits alike, and [Buffer]
    prints the byte in lower case. *)
Lemma parseInt16_digits a c va vc :
  hexDigitValue a = Some va -> hexDigitValue c = Some vc ->
  ToUint8 (parseInt16 (String a (String c ""))) = byte_of_Z (va * 16 + vc) /\
  hex_pair (byte_of_Z (va * 16 + vc)) = String (lower_char a) (String (lower_char c) "").
Proof.
  intros Ha Hc. hex_cases Ha; hex_cases Hc; split; reflexivity.
Qed.

Lemma all_hex_cons c s :
  all_hex (String c s) = true <-> (exists v, hexDigitValue c = Some v) /\ all_hex s = true.
Proof.
  cbn. destruct (hexDigitValue c) as [v |]; split.
  - intros H. split; [eauto | exact H].
  - intros [_ H]. exact H.
  - discriminate.
  - intros [[v Hv] _]. discriminate.
Qed.

Lemma all_hex_app a : forall b,
  all_hex (a +:+ b) = all_hex a && all_hex b.
Proof.
  induction a as [| c a IH]; intros b; [reflexivity |].
  rewrite append_cons. cbn. destruct (hexDigitValue c); [apply IH | reflexivity].
Qed.

Lemma all_hex_strip_0x s : all_hex s = true -> strip_0x s = s.
Proof.
  intros H. unfold strip_0x. destruct s as [| a [| c s]]; [reflexivity | |].
  { cbn [startsWith]. now destruct (Ascii.eqb "0" a). }
  cbn [startsWith]. destruct (Ascii.eqb "0" a); [| reflexivity].
  destruct (Ascii.eqb "x" c) eqn:E; [| reflexivity].
  apply Ascii.eqb_eq in E. subst c.
  apply all_hex_cons in H as [_ H]. apply all_hex_cons in H as [[v Hv] _]. discriminate.
Qed.

(** Induction over a string two characters at a time. *)
Lemma even_string_ind (P : string -> Prop) :
  P "" ->
  (forall a c s, P s -> P (String a (String c s))) ->
  forall s, (String.length s mod 2 =? 0)%nat = true -> P s.
Proof.
  intros H0 H2.
  assert (forall n s, (String.length s <= n)%nat ->
                      (String.length s mod 2 =? 0)%nat = true -> P s) as H.
  { induction n as [| n IH]; intros s Hn He.
    - destruct s; [exact H0 | cbn in Hn; lia].
    - destruct s as [| a [| c s]]; [exact H0 | discriminate He |].
      apply H2. apply IH; [cbn in Hn; lia |].
      cbn [String.length] in He.
      replace (S (S (String.length s))) with (String.length s + 1 * 2)%nat in He by lia.
      now rewrite Nat.Div0.mod_add in He. }
  intros s. apply (H (String.length s)). lia.
Qed.

Lemma even_length_half s :
  (String.length s mod 2 =? 0)%nat = true ->
  String.length s = (2 * (String.length s / 2))%nat.
Proof.
  intros H. apply Nat.eqb_eq in H.
  pose proof (Nat.div_mod_eq (String.length s) 2). lia.
Qed.

(** On well-formed text [hexToBytes] and [Buffer.from(_, 'hex')] agree. *)
Lemma map_pairs_well_formed s :
  (String.length s mod 2 =? 0)%nat = true -> all_hex s = true ->
  map_pairs (fun p => ToUint8 (parseInt16 p)) s = Buffer_from_hex s /\
  Buffer_to_hex (Buffer_from_hex s) = toLowerCase s /\
  length (Buffer_from_hex s) = (String.length s / 2)%nat /\
  forall acc, parseHex_acc acc s = Some (be_value acc (Buffer_from_hex s)).
Proof.
  intros He. pattern s. revert s He. apply even_string_ind.
  - intros _. repeat split.
  - intros a c s IH H.
    apply all_hex_cons in H as [[va Ha] H]. apply all_hex_cons in H as [[vc Hc] H].
    destruct (IH H) as (IH1 & IH2 & IH3 & IH4).
    destruct (parseInt16_digits a c va vc Ha Hc) as [Hp Hl].
    cbn [map_pairs Buffer_from_hex]. rewrite Ha, Hc.
    split; [now rewrite Hp, IH1 |]. split.
    { rewrite Buffer_to_hex_cons, Hl, IH2. reflexivity. }
    split.
    { cbn [length String.length]. rewrite IH3.
      replace (S (S (String.length s))) with (String.length s + 1 * 2)%nat by lia.
      rewrite Nat.div_add by lia. lia. }
    intros acc. cbn [parseHex_acc]. rewrite Ha, Hc, IH4.
    cbn [be_value fold_left]. f_equal.
    fold (be_value (acc * 256 + byteValue (byte_of_Z (va * 16 + vc))) (Buffer_from_hex s)).
    pose proof (hexDigitValue_range a va Ha). pose proof (hexDigitValue_range c vc Hc).
    rewrite byteValue_byte_of_Z by lia. f_equal. ring.
Qed.

Lemma hexToBytes_well_formed h :
  (String.length (strip_0x h) mod 2 =? 0)%nat = true ->
  all_hex (strip_0x h) = true ->
  hexToBytes h = Ok (hexToBuffer h).
Proof.
  intros He Hh. unfold hexToBytes, hexToBuffer. rewrite He. cbn [negb]. f_equal.
  rewrite (map_substr_pairs (fun s => ToUint8 (parseInt16 s)) (String.length (strip_0x h) / 2))
    by now apply even_length_half.
  now apply map_pairs_well_formed.
Qed.

Lemma parseHex_Buffer_to_hex b acc :
  parseHex_acc acc (Buffer_to_hex b) = Some (be_value acc b).
Proof.
  revert acc. induction b as [| x b IH]; intros acc; [reflexivity |].
  cbn [Buffer_to_hex parseHex_acc].
  pose proof (byteValue_range x) as Hx. unfold byteValue in Hx.
  rewrite !hexDigit_roundtrip by
    (try apply Z.mod_pos_bound; try (split; [apply Z.div_pos | apply Z.div_lt_upper_bound]);
     lia).
  rewrite IH. cbn [be_value fold_left]. f_equal.
  fold (be_value (acc * 256 + byteValue x) b). f_equal. unfold byteValue.
  pose proof (Z.div_mod (Z.of_N (Byte.to_N x)) 16 ltac:(lia)). lia.
Qed.

Lemma all_hex_Buffer_to_hex b : all_hex (Buffer_to_hex b) = true.
Proof.
  induction b as [| x b IH]; [reflexivity |].
  cbn [Buffer_to_hex all_hex].
  pose proof (byteValue_range x) as Hx. unfold byteValue in Hx.
  rewrite !hexDigit_roundtrip by
    (try apply Z.mod_pos_bound; try (split; [apply Z.div_pos | apply Z.div_lt_upper_bound]);
     lia).
  exact IH.
Qed.

End WellFormedHex.

(** ** Numbers as bytes *)
Section NumberFacts.
Import JS JSNumber Encoding CodecVocabulary.

Lemma ToInt32_range n : - 2 ^ 31 <= ToInt32 n < 2 ^ 31.
Proof.
  unfold ToInt32. pose proof (Z.mod_pos_bound (n + 2 ^ 31) (2 ^ 32) ltac:(lia)). lia.
Qed.

Lemma ToInt32_small n : - 2 ^ 31 <= n < 2 ^ 31 -> ToInt32 n = n.
Proof.
  intros Hn. unfold ToInt32. rewrite Z.mod_small by lia. lia.
Qed.

Lemma ToInt32_mod n : ToInt32 n mod 2 ^ 32 = n mod 2 ^ 32.
Proof.
  unfold ToInt32.
  rewrite <- Zminus_mod_idemp_l, Z.mod_mod by lia.
  rewrite Zminus_mod_idemp_l. f_equal. lia.
Qed.

Lemma ToInt32_congr a b : a mod 2 ^ 32 = b mod 2 ^ 32 -> ToInt32 a = ToInt32 b.
Proof.
  intros H. unfold ToInt32.
  rewrite <- (Zplus_mod_idemp_l a), <- (Zplus_mod_idemp_l b), H. reflexivity.
Qed.

Lemma land_shifted_byte a v : 0 <= v < 256 -> Z.land (a * 256) v = 0.
Proof.
  intros Hv. apply Z.bits_inj'. intros i Hi. rewrite Z.land_spec, Z.bits_0.
  destruct (Z.lt_ge_cases i 8) as [Hlt | Hge].
  - change 256 with (2 ^ 8). rewrite Z.mul_pow2_bits_low by lia. reflexivity.
  - destruct (Z.eq_dec v 0) as [-> | Hnz]; [now rewrite Z.bits_0, andb_false_r |].
    rewrite (Z.bits_above_log2 v i), andb_false_r; [reflexivity | lia |].
    apply Z.lt_le_trans with 8; [| exact Hge].
    apply Z.log2_lt_pow2; lia.
Qed.

(** One step of [bytesToNumber]. *)
Lemma shift_or_step num v :
  0 <= v < 256 ->
  Z.lor (ToInt32 (Z.shiftl (ToInt32 num) 8)) v = ToInt32 (num * 256 + v).
Proof.
  intros Hv. rewrite Z.shiftl_mul_pow2 by lia. change (2 ^ 8) with 256.
  assert (exists k, ToInt32 (ToInt32 num * 256) = k * 256) as [k Hk].
  { exists ((ToInt32 num * 256 + 2 ^ 31) / 2 ^ 8 mod 2 ^ 24 - 2 ^ 23).
    unfold ToInt32 at 1.
    change (2 ^ 32) with (2 ^ 8 * 2 ^ 24). rewrite Z.rem_mul_r by lia.
    replace (ToInt32 num * 256 + 2 ^ 31) with (0 + (ToInt32 num + 2 ^ 23) * 2 ^ 8) at 1 by lia.
    rewrite Z.mod_add by lia. rewrite Z.mod_0_l by lia. lia. }
  rewrite Hk, <- Z.add_nocarry_lor by now apply land_shifted_byte.
  pose proof (ToInt32_range (ToInt32 num * 256)) as Hr. rewrite Hk in Hr.
  rewrite <- Hk.
  rewrite <- (ToInt32_small (ToInt32 (ToInt32 num * 256) + v)) by (rewrite Hk; lia).
  apply ToInt32_congr.
  rewrite <- Zplus_mod_idemp_l, ToInt32_mod, Zplus_mod_idemp_l.
  rewrite <- (Zplus_mod_idemp_l (num * 256)), <- (Zplus_mod_idemp_l (ToInt32 num * 256)).
  f_equal. f_equal.
  rewrite <- Zmult_mod_idemp_l, ToInt32_mod, Zmult_mod_idemp_l. reflexivity.
Qed.

Lemma bytesToNumber_fold b : forall acc,
  ToInt32 acc = acc ->
  fold_left
    (fun num byte => Z.lor (ToInt32 (Z.shiftl (ToInt32 num) 8)) (byteValue byte)) b acc
  = ToInt32 (be_value acc b).
Proof.
  induction b as [| x b IH]; intros acc Hacc; [now cbn |].
  cbn [fold_left be_value].
  rewrite shift_or_step by apply byteValue_range.
  rewrite IH.
  - fold (be_value (acc * 256 + byteValue x) b).
    rewrite (be_value_acc b (ToInt32 _)), (be_value_acc b (acc * 256 + _)).
    apply ToInt32_congr.
    rewrite <- Zplus_mod_idemp_l, <- Zmult_mod_idemp_l, ToInt32_mod.
    now rewrite Zmult_mod_idemp_l, Zplus_mod_idemp_l.
  - apply ToInt32_small, ToInt32_range.
Qed.

Lemma bytesToNumber_value b : bytesToNumber b = ToInt32 (be_value 0 b).
Proof. unfold bytesToNumber. now apply bytesToNumber_fold. Qed.

(** The bytes [numberToBytes] writes. *)
Lemma numberToBytes_loop_spec todo : forall num arr,
  (todo <= length arr)%nat ->
  numberToBytes_loop todo num arr = be_bytes todo (ToInt32 num) ++ drop todo arr.
Proof.
  induction todo as [| i IH]; intros num arr Hlen; [now rewrite drop_0 |].
  cbn [numberToBytes_loop be_bytes].
  rewrite IH by (rewrite length_insert; lia).
  rewrite <- app_assoc. f_equal.
  - f_equal. rewrite Z.shiftr_div_pow2 by lia. change (2 ^ 8) with 256.
    apply ToInt32_small. pose proof (ToInt32_range num).
    split.
    + apply Z.div_le_lower_bound; lia.
    + apply Z.div_lt_upper_bound; lia.
  - rewrite (drop_S (<[i := _]> arr) (ToUint8 (Some (Z.land (ToInt32 num) 255))) i)
      by (apply list_lookup_insert_eq; lia).
    cbn [app]. f_equal.
    + unfold ToUint8. change 255 with (Z.ones 8). rewrite Z.land_ones by lia.
      change (2 ^ 8) with 256. now rewrite Z.mod_mod by lia.
    + rewrite drop_insert_lt by lia. reflexivity.
Qed.

Lemma be_bytes_length k n : length (be_bytes k n) = k.
Proof.
  revert n. induction k as [| k IH]; intros n; [reflexivity |].
  cbn [be_bytes]. rewrite length_app, IH. cbn. lia.
Qed.

Lemma be_bytes_value k : forall n,
  be_value 0 (be_bytes k n) = n mod 256 ^ Z.of_nat k.
Proof.
  induction k as [| k IH]; intros n.
  - cbn. now rewrite Z.mod_1_r.
  - cbn [be_bytes]. rewrite be_value_app, IH. cbn [be_value fold_left].
    rewrite byteValue_byte_of_Z by (apply Z.mod_pos_bound; lia).
    rewrite Nat2Z.inj_succ, Z.pow_succ_r by lia.
    rewrite (Z.rem_mul_r n 256 (256 ^ Z.of_nat k)) by (try apply Z.pow_nonzero; lia).
    lia.
Qed.

Lemma numberToBytes_spec num k : numberToBytes num k = be_bytes k (ToInt32 num).
Proof.
  unfold numberToBytes. rewrite numberToBytes_loop_spec by (rewrite length_replicate; lia).
  rewrite drop_ge by (rewrite length_replicate; lia). apply app_nil_r.
Qed.

End NumberFacts.

(** ** BigInt text *)
Section BigIntText.
Import JS JSNumber Encoding CodecVocabulary Address.

Lemma hexDigitChar_is_hex d : 0 <= d < 16 -> exists v, hexDigitValue (hexDigitChar d) = Some v.
Proof. intros Hd. exists d. now apply hexDigit_roundtrip. Qed.

Lemma hexDigits_all_hex f : forall n acc,
  all_hex acc = true -> all_hex (hexDigits f n acc) = true.
Proof.
  induction f as [| f IH]; intros n acc Hacc; [exact Hacc |].
  cbn [hexDigits].
  assert (all_hex (String (hexDigitChar (n mod 16)) acc) = true) as H.
  { apply all_hex_cons. split; [| exact Hacc].
    apply hexDigitChar_is_hex, Z.mod_pos_bound. lia. }
  destruct (n / 16 =? 0); [exact H | now apply IH].
Qed.

(** [n.toString(16)], padded to an even number of digits. *)
Lemma even_pad_facts n :
  0 <= n ->
  let hex := toString16 n in
  let padded := if negb (String.length hex mod 2 =? 0)%nat then "0" +:+ hex else hex in
  all_hex padded = true /\
  (String.length padded mod 2 =? 0)%nat = true /\
  parseHex_acc 0 padded = Some n /\
  (0 < String.length padded)%nat /\
  forall d, (0 < d)%nat -> n < 256 ^ Z.of_nat d -> (String.length padded <= 2 * d)%nat.
Proof.
  intros Hn hex padded.
  assert (all_hex hex = true) as Hhex.
  { subst hex. rewrite toString16_nonneg by exact Hn. now apply hexDigits_all_hex. }
  assert (parseHex_acc 0 hex = Some n) as Hparse.
  { subst hex. rewrite toString16_nonneg by exact Hn.
    apply hexDigits_parse; [split; [exact Hn | now apply toString16_fuel] | lia]. }
  assert (hex <> "") as Hne.
  { subst hex. rewrite toString16_nonneg by exact Hn. apply hexDigits_nonempty. lia. }
  assert (forall d, (0 < d)%nat -> n < 256 ^ Z.of_nat d -> (String.length hex <= 2 * d)%nat)
    as Hlen.
  { intros d Hd Hlt. subst hex. rewrite toString16_nonneg by exact Hn.
    apply hexDigits_length; [| lia]. split; [exact Hn |].
    replace (Z.of_nat (2 * d)) with (2 * Z.of_nat d) by lia.
    rewrite Z.pow_mul_r by lia. exact Hlt. }
  subst padded. destruct (String.length hex mod 2 =? 0)%nat eqn:He; cbn [negb].
  - repeat split; try assumption.
    + destruct hex; [now destruct Hne | cbn; lia].
  - assert (String.length hex mod 2 = 1)%nat as Hodd.
    { apply Nat.eqb_neq in He. pose proof (Nat.mod_upper_bound (String.length hex) 2). lia. }
    change ("0" +:+ hex) with (String "0" hex).
    split; [exact Hhex |]. split.
    { cbn [String.length]. apply Nat.eqb_eq.
      replace (S (String.length hex)) with (1 + String.length hex)%nat by lia.
      rewrite <- Nat.Div0.add_mod_idemp_r, Hodd. reflexivity. }
    split; [exact Hparse |]. split; [cbn; lia |].
    intros d Hd Hlt. specialize (Hlen d Hd Hlt). cbn [String.length].
    assert (String.length hex <> 2 * d)%nat; [| lia].
    intros E. rewrite E, Nat.mul_comm, Nat.Div0.mod_mul in Hodd. discriminate.
Qed.

(** The bytes [Buffer.from] and [hexToBytes] read from the padded text of
    [n] are the shortest big-endian byte string of [n]. *)
Lemma padded_bytes n :
  0 <= n ->
  let hex := toString16 n in
  let padded := if negb (String.length hex mod 2 =? 0)%nat then "0" +:+ hex else hex in
  hexToBytes padded = Ok (Buffer_from_hex padded) /\
  be_value 0 (Buffer_from_hex padded) = n /\
  (0 < length (Buffer_from_hex padded))%nat /\
  forall d, (0 < d)%nat -> n < 256 ^ Z.of_nat d -> (length (Buffer_from_hex padded) <= d)%nat.
Proof.
  intros Hn hex padded.
  destruct (even_pad_facts n Hn) as (Hhex & Heven & Hparse & Hpos & Hlen).
  fold hex in Hhex, Heven, Hparse, Hpos, Hlen. fold padded in Hhex, Heven, Hparse, Hpos, Hlen.
  destruct (map_pairs_well_formed padded Heven Hhex) as (_ & _ & Hl & Hv).
  split.
  { rewrite <- (all_hex_strip_0x padded Hhex) at 2.
    apply hexToBytes_well_formed; now rewrite (all_hex_strip_0x padded Hhex). }
  split.
  { specialize (Hv 0). rewrite Hparse in Hv. now injection Hv. }
  rewrite Hl. pose proof (even_length_half padded Heven) as Hhalf. split; [lia |].
  intros d Hd Hlt. specialize (Hlen d Hd Hlt). lia.
Qed.

Lemma typed_set_pad b len :
  (length b < len)%nat ->
  typed_set b (len - length b) (replicate len Byte.x00)
  = Ok (replicate (len - length b) Byte.x00 ++ b).
Proof.
  intros Hlt. unfold typed_set.
  destruct (len - length b + length b <=? length (replicate len Byte.x00))%nat eqn:E.
  - f_equal. rewrite take_replicate, drop_replicate.
    rewrite Nat.min_l by lia.
    replace (len - (len - length b + length b))%nat with 0%nat by lia.
    cbn [replicate]. now rewrite app_nil_r.
  - apply Nat.leb_gt in E. rewrite length_replicate in E. lia.
Qed.

Lemma bytesToBigint_value b : bytesToBigint b = Ok (be_value 0 b).
Proof.
  unfold bytesToBigint. destruct b as [| x b]; [reflexivity |].
  cbn [length Nat.eqb]. rewrite bytesToHex_Buffer.
  unfold BigInt_hex. rewrite parseHex_Buffer_to_hex.
  now destruct (Buffer_to_hex (x :: b)) eqn:E.
Qed.

End BigIntText.

(** ** Comparing and joining byte arrays *)
Section ArrayFacts.
Import JS JSNumber Encoding.

Lemma bytesEqual_loop_spec todo : forall i a b,
  bytesEqual_loop todo i a b = true <->
  forall j, (i <= j < i + todo)%nat -> a !! j = b !! j.
Proof.
  induction todo as [| todo IH]; intros i a b.
  - cbn. split; [intros _ j Hj; lia | reflexivity].
  - cbn [bytesEqual_loop].
    assert ((forall j, (i <= j < i + S todo)%nat -> a !! j = b !! j) <->
            a !! i = b !! i /\ forall j, (S i <= j < S i + todo)%nat -> a !! j = b !! j)
      as Hsplit.
    { split.
      - intros H. split; [apply H; lia | intros j Hj; apply H; lia].
      - intros [H0 H] j Hj. destruct (Nat.eq_dec j i) as [-> | Hne]; [exact H0 |].
        apply H. lia. }
    rewrite Hsplit. clear Hsplit.
    destruct (a !! i) as [x |], (b !! i) as [y |].
    + destruct (Byte.eqb x y) eqn:E; cbn [negb].
      * apply Byte.byte_dec_bl in E. subst y. rewrite IH. tauto.
      * split; [discriminate |]. intros [H0 _]. injection H0 as ->.
        rewrite (Byte.byte_dec_lb (eq_refl y)) in E. discriminate.
    + split; [discriminate | intros [H0 _]; discriminate].
    + split; [discriminate | intros [H0 _]; discriminate].
    + rewrite IH. tauto.
Qed.

Lemma total_length_fold (arrays : list bytes) : forall acc,
  fold_left (fun sum arr => (sum + length arr)%nat) arrays acc
  = (acc + length (concat arrays))%nat.
Proof.
  induction arrays as [| arr rest IH]; intros acc; cbn [fold_left concat].
  - cbn. lia.
  - rewrite IH, length_app. lia.
Qed.

Lemma concatBytes_loop_spec arrays : forall pre,
  concatBytes_loop arrays (length pre)
    (pre ++ replicate (length (concat arrays)) Byte.x00)
  = Ok (pre ++ concat arrays).
Proof.
  induction arrays as [| arr rest IH]; intros pre.
  - cbn. reflexivity.
  - cbn [concatBytes_loop concat]. unfold typed_set.
    rewrite !length_app, length_replicate.
    destruct (length pre + length arr <=? length pre + (length arr + length (concat rest)))%nat
      eqn:E; [| apply Nat.leb_gt in E; lia].
    rewrite take_app_length.
    rewrite drop_app_ge by lia. rewrite drop_replicate.
    replace (length arr + length (concat rest) - (length pre + length arr - length pre))%nat
      with (length (concat rest)) by lia.
    replace (length pre + length arr)%nat with (length (pre ++ arr)) by apply length_app.
    rewrite (app_assoc pre arr), IH. now rewrite <- app_assoc.
Qed.

End ArrayFacts.

(** ** Base58 *)
Section Base58Facts.
Import JS JSNumber CodecVocabulary Base58.

(** The alphabet and its inverse map. *)
Lemma alphabet_nat n :
  (n < 58)%nat ->
  exists c, String.get n ALPHABET = Some c /\
            ALPHABET_MAP c = Some (Z.of_nat n) /\
            Ascii.eqb c "1" = (n =? 0)%nat.
Proof.
  intros H.
  do 58 (destruct n as [| n]; [eexists; split; [reflexivity | split; reflexivity] |]).
  lia.
Qed.

Lemma prepend_digit_spec d :
  0 <= d < 58 ->
  exists c, (forall acc, prepend_digit d acc = String c acc) /\
            ALPHABET_MAP c = Some d /\
            Ascii.eqb c "1" = (d =? 0).
Proof.
  intros Hd. destruct (alphabet_nat (Z.to_nat d) ltac:(lia)) as (c & Hget & Hmap & Hone).
  exists c. split; [intros acc; unfold prepend_digit; now rewrite Hget |].
  rewrite Z2Nat.id in Hmap by lia. split; [exact Hmap |].
  rewrite Hone. destruct (Z.eqb_spec d 0) as [-> | Hne]; [reflexivity |].
  apply Nat.eqb_neq. lia.
Qed.

Lemma encode_loop_zero f acc : encode_loop f 0 acc = acc.
Proof. now destruct f. Qed.

Lemma encode_loop_acc f : forall n acc,
  0 <= n -> encode_loop f n acc = encode_loop f n "" +:+ acc.
Proof.
  induction f as [| f IH]; intros n acc Hn; [reflexivity |].
  cbn [encode_loop]. destruct (0 <? n) eqn:E; [| reflexivity].
  rewrite !Z.rem_mod_nonneg, !Z.quot_div_nonneg by lia.
  assert (0 <= n / 58) as Hq by (apply Z.div_pos; lia).
  destruct (prepend_digit_spec (n mod 58) ltac:(apply Z.mod_pos_bound; lia))
    as (c & Hc & _).
  rewrite !Hc, (IH _ (String c acc)), (IH _ (String c "")) by exact Hq.
  now rewrite append_assoc.
Qed.

Lemma decode_loop_app s1 : forall s2 v,
  decode_loop (s1 +:+ s2) v =
  match decode_loop s1 v with
  | Ok v' => decode_loop s2 v'
  | Throw msg => Throw msg
  end.
Proof.
  induction s1 as [| c s1 IH]; intros s2 v; [reflexivity |].
  rewrite append_cons. cbn [decode_loop]. destruct (ALPHABET_MAP c); [apply IH | reflexivity].
Qed.

Lemma decode_encode f : forall n,
  0 <= n < 58 ^ Z.of_nat f -> decode_loop (encode_loop f n "") 0 = Ok n.
Proof.
  induction f as [| f IH]; intros n Hn.
  - cbn in Hn. assert (n = 0) as -> by lia. reflexivity.
  - cbn [encode_loop]. destruct (0 <? n) eqn:E.
    + rewrite Z.rem_mod_nonneg, Z.quot_div_nonneg by lia.
      destruct (prepend_digit_spec (n mod 58) ltac:(apply Z.mod_pos_bound; lia))
        as (c & Hc & Hmap & _).
      rewrite Hc, encode_loop_acc by (apply Z.div_pos; lia).
      rewrite decode_loop_app, IH.
      * cbn [decode_loop]. rewrite Hmap. f_equal.
        pose proof (Z.div_mod n 58 ltac:(lia)). lia.
      * rewrite Nat2Z.inj_succ, Z.pow_succ_r in Hn by lia.
        split; [apply Z.div_pos; lia | apply Z.div_lt_upper_bound; lia].
    + apply Z.ltb_ge in E. assert (n = 0) as -> by lia. reflexivity.
Qed.

(** The text of a positive number starts with its leading digit, which is
    not '1' (the digit zero). *)
Lemma encode_first_char f : forall n,
  0 < n < 58 ^ Z.of_nat f ->
  exists c s, encode_loop f n "" = String c s /\ Ascii.eqb c "1" = false.
Proof.
  induction f as [| f IH]; intros n Hn; [cbn in Hn; lia |].
  cbn [encode_loop]. destruct (0 <? n) eqn:E; [| apply Z.ltb_ge in E; lia].
  rewrite Z.rem_mod_nonneg, Z.quot_div_nonneg by lia.
  destruct (prepend_digit_spec (n mod 58) ltac:(apply Z.mod_pos_bound; lia))
    as (c & Hc & _ & Hone).
  rewrite Hc. destruct (Z.eq_dec (n / 58) 0) as [Hq | Hq].
  - rewrite Hq, encode_loop_zero. exists c, "". split; [reflexivity |].
    rewrite Hone. apply Z.eqb_neq.
    pose proof (Z.div_mod n 58 ltac:(lia)). lia.
  - assert (0 <= n / 58) by (apply Z.div_pos; lia).
    rewrite encode_loop_acc by lia.
    destruct (IH (n / 58)) as (c' & s' & Hs & Hc').
    { rewrite Nat2Z.inj_succ, Z.pow_succ_r in Hn by lia.
      split; [lia | apply Z.div_lt_upper_bound; lia]. }
    rewrite Hs, append_cons. eauto.
Qed.

Lemma bit_length_fuel n : 0 <= n -> n < 58 ^ Z.of_nat (S (Z.to_nat (Z.log2 n))).
Proof.
  intros Hn. destruct (Z.eq_dec n 0) as [-> | Hnz]; [reflexivity |].
  pose proof (Z.log2_spec n ltac:(lia)) as [_ Hlt].
  pose proof (Z.log2_nonneg n) as Hl.
  rewrite Nat2Z.inj_succ, Z2Nat.id by lia.
  apply Z.lt_le_trans with (2 ^ Z.succ (Z.log2 n)); [exact Hlt |].
  apply Z.pow_le_mono_l. lia.
Qed.

Lemma leading_ones_repeat k s :
  leading_ones (repeat_char "1" k s) = (k + leading_ones s)%nat.
Proof. induction k as [| k IH]; [reflexivity |]. cbn. now rewrite IH. Qed.

Lemma decode_loop_ones k s : decode_loop (repeat_char "1" k s) 0 = decode_loop s 0.
Proof. induction k as [| k IH]; [reflexivity |]. cbn [repeat_char decode_loop]. exact IH. Qed.

Lemma byteValue_zero b : byteValue b = 0 <-> b = Byte.x00.
Proof.
  split; [| now intros ->].
  intros H. apply byteValue_inj. now rewrite H.
Qed.

(** A buffer is its leading zero bytes followed by nothing or by a byte
    that is not zero. *)
Lemma leading_zero_bytes_split buffer :
  exists rest,
    buffer = replicate (leading_zero_bytes buffer) Byte.x00 ++ rest /\
    (rest = [] \/ exists x r, rest = x :: r /\ byteValue x <> 0).
Proof.
  induction buffer as [| b buffer (rest & Hsplit & Hrest)].
  - exists []. split; [reflexivity | now left].
  - cbn [leading_zero_bytes]. destruct (Z.eqb_spec (byteValue b) 0) as [Hz | Hnz].
    + apply byteValue_zero in Hz. subst b. exists rest. split; [| exact Hrest].
      cbn [replicate app]. now rewrite <- Hsplit.
    + exists (b :: buffer). split; [reflexivity |]. right. eauto.
Qed.

Lemma encode_unfold buffer :
  buffer <> [] ->
  base58Encode buffer =
  Ok (repeat_char "1" (leading_zero_bytes buffer)
        (encode_loop (S (Z.to_nat (Z.log2 (be_value 0 buffer)))) (be_value 0 buffer) "")).
Proof.
  intros Hne. unfold base58Encode, BigInt_hex. rewrite parseHex_Buffer_to_hex.
  destruct buffer as [| x b]; [now destruct Hne |]. reflexivity.
Qed.

Lemma decode_unfold s num :
  decode_loop s 0 = Ok num ->
  base58Decode s =
  Ok (replicate (leading_ones s) Byte.x00 ++
      Buffer_from_hex
        (if negb (String.length (toString16 num) mod 2 =? 0)%nat
         then "0" +:+ toString16 num else toString16 num)).
Proof. intros H. unfold base58Decode. now rewrite H. Qed.

Lemma exists_nonzero_rest k rest :
  (exists x, x ∈ replicate k Byte.x00 ++ rest /\ x <> Byte.x00) -> rest <> [].
Proof.
  intros (x & Hin & Hx) ->. rewrite app_nil_r in Hin.
  apply elem_of_replicate in Hin as [-> _]. now destruct Hx.
Qed.

Lemma base58Decode_base58Encode_roundtrip_core (buffer : list byte) :
  (exists x, x ∈ buffer /\ x <> Byte.x00) ->
  exists encoded, base58Encode buffer = Ok encoded /\ base58Decode encoded = Ok buffer.
Proof.
  intros Hnz.
  destruct (leading_zero_bytes_split buffer) as (rest & Hsplit & Hrest).
  remember (leading_zero_bytes buffer) as k eqn:Hk.
  assert (rest <> []) as Hne by (rewrite Hsplit in Hnz; now apply exists_nonzero_rest in Hnz).
  destruct Hrest as [-> | (x & r & -> & Hx)]; [now destruct Hne |].
  assert (buffer <> []) as Hbuf by (rewrite Hsplit; now destruct k).
  rewrite (encode_unfold buffer Hbuf), <- Hk.
  assert (be_value 0 buffer = be_value 0 (x :: r)) as Hval
    by (rewrite Hsplit at 1; apply be_value_zeros).
  rewrite Hval. set (V := be_value 0 (x :: r)).
  pose proof (be_value_bounds (x :: r)) as HV. fold V in HV.
  assert (256 ^ Z.of_nat (length r) <= V) as Hlow.
  { subst V. rewrite be_value_cons. pose proof (be_value_bounds r).
    pose proof (byteValue_range x).
    assert (0 < 256 ^ Z.of_nat (length r)) by (apply Z.pow_pos_nonneg; lia). nia. }
  assert (0 < V) as Hpos.
  { assert (0 < 256 ^ Z.of_nat (length r)) by (apply Z.pow_pos_nonneg; lia). lia. }
  set (enc := encode_loop (S (Z.to_nat (Z.log2 V))) V "").
  exists (repeat_char "1" k enc). split; [reflexivity |].
  assert (decode_loop (repeat_char "1" k enc) 0 = Ok V) as Hdec.
  { rewrite decode_loop_ones. apply decode_encode.
    split; [lia | apply bit_length_fuel; lia]. }
  rewrite (decode_unfold _ V Hdec), leading_ones_repeat.
  destruct (encode_first_char (S (Z.to_nat (Z.log2 V))) V) as (c & s & Hs & Hc).
  { split; [exact Hpos | apply bit_length_fuel; lia]. }
  fold enc in Hs. rewrite Hs. cbn [leading_ones]. rewrite Hc, Nat.add_0_r.
  destruct (padded_bytes V (proj1 HV)) as (_ & Hbv & _ & Hmax). cbv zeta in Hbv, Hmax.
  set (bs := Buffer_from_hex _) in *.
  rewrite Hsplit. f_equal. f_equal.
  apply be_value_inj; [| exact Hbv].
  specialize (Hmax (length (x :: r)) ltac:(cbn; lia) (proj2 HV)).
  pose proof (be_value_bounds bs) as Hbs. rewrite Hbv in Hbs.
  assert (Z.of_nat (length r) < Z.of_nat (length bs)).
  { apply (Z.pow_lt_mono_r_iff 256); lia. }
  cbn [length] in *. lia.
Qed.

End Base58Facts.

(** ** Properties of [crypto/encoding.ts] *)
Section EncodingProperties.
Import JS JSNumber Encoding CodecVocabulary Address.

(** X22. [hexToBytes(bytesToHex(bytes, prefix))] gives back [bytes], for
    every byte array, with and without the "0x" prefix. *)
Theorem hexToBytes_bytesToHex_roundtrip (b : list byte) (prefix : bool) :
  hexToBytes (bytesToHex b prefix) = Ok b.
Proof.
  apply hexToBytes_of_Buffer_to_hex.
  unfold bytesToHex. fold (bytesToHex b false). rewrite bytesToHex_Buffer.
  destruct prefix; [apply strip_0x_prefixed | apply strip_0x_Buffer_to_hex].
Qed.

(** X23. [hexToBuffer(bufferToHex(buffer, prefix))] gives back [buffer], and
    [bytesToHex] and [bufferToHex] print every byte array as the same text:
    two lower-case digits per byte after the optional "0x". *)
Theorem hexToBuffer_bufferToHex_roundtrip (b : list byte) (prefix : bool) :
  hexToBuffer (bufferToHex b prefix) = b /\
  bytesToHex b prefix = bufferToHex b prefix /\
  String.length (bufferToHex b prefix) = ((if prefix then 2 else 0) + 2 * length b)%nat.
Proof.
  split; [| split].
  - unfold hexToBuffer, bufferToHex.
    destruct prefix; [rewrite strip_0x_prefixed | rewrite strip_0x_Buffer_to_hex];
      apply Buffer_from_to_hex.
  - unfold bytesToHex, bufferToHex. fold (bytesToHex b false).
    now rewrite bytesToHex_Buffer.
  - unfold bufferToHex. destruct prefix.
    + rewrite length_append, Buffer_to_hex_length. reflexivity.
    + rewrite Buffer_to_hex_length. reflexivity.
Qed.

(** X24. On text that, after an optional "0x", is an even number of
    hexadecimal digits, [hexToBytes] and [hexToBuffer] decode the same
    bytes, one per pair of digits, and printing them gives the digits back
    in lower case. *)
Theorem hexToBytes_well_formed_text (h : string) :
  (String.length (strip_0x h) mod 2 =? 0)%nat = true ->
  all_hex (strip_0x h) = true ->
  hexToBytes h = Ok (hexToBuffer h) /\
  length (hexToBuffer h) = (String.length (strip_0x h) / 2)%nat /\
  bytesToHex (hexToBuffer h) false = toLowerCase (strip_0x h).
Proof.
  intros He Hh. split; [now apply hexToBytes_well_formed |].
  destruct (map_pairs_well_formed (strip_0x h) He Hh) as (_ & Hlow & Hlen & _).
  split; [exact Hlen |]. rewrite bytesToHex_Buffer. exact Hlow.
Qed.

Lemma hexToBytes_well_formed_text_witness :
  hexToBytes "0xDEADbeef" = Ok (hexToBuffer "0xDEADbeef") /\
  length (hexToBuffer "0xDEADbeef") = (String.length (strip_0x "0xDEADbeef") / 2)%nat /\
  bytesToHex (hexToBuffer "0xDEADbeef") false = toLowerCase (strip_0x "0xDEADbeef").
Proof.
  apply hexToBytes_well_formed_text; reflexivity.
Defined.

(** X25. [bytesToNumber] reads its argument as a signed 32-bit number: the
    result is the big-endian value wrapped into [-2^31, 2^31).  Up to three
    bytes read as their plain value; four bytes whose first is 0x80 or
    more read as a negative number. *)
Theorem bytesToNumber_is_signed_32_bit (b : list byte) :
  bytesToNumber b = ToInt32 (be_value 0 b) /\
  ((length b <= 3)%nat -> bytesToNumber b = be_value 0 b) /\
  (forall x rest, b = x :: rest -> length rest = 3%nat -> 128 <= byteValue x ->
     bytesToNumber b = be_value 0 b - 2 ^ 32 /\ bytesToNumber b < 0).
Proof.
  pose proof (bytesToNumber_value b) as Hv. split; [exact Hv |]. split.
  - intros Hlen. rewrite Hv. apply ToInt32_small.
    pose proof (be_value_bounds b) as Hb.
    assert (256 ^ Z.of_nat (length b) <= 256 ^ 3) by (apply Z.pow_le_mono_r; lia).
    lia.
  - intros x rest -> Hrest Hx. rewrite Hv.
    pose proof (be_value_bounds rest) as Hb. rewrite Hrest in Hb.
    pose proof (byteValue_range x) as Hxr.
    rewrite be_value_cons, Hrest.
    change (256 ^ Z.of_nat 3) with 16777216 in *.
    assert (ToInt32 (byteValue x * 16777216 + be_value 0 rest)
            = byteValue x * 16777216 + be_value 0 rest - 2 ^ 32) as E.
    { rewrite <- (ToInt32_small (_ - 2 ^ 32)) by lia.
      apply ToInt32_congr.
      rewrite <- (Z.mod_add (_ - 2 ^ 32) 1 (2 ^ 32)) by lia. f_equal. lia. }
    rewrite E. lia.
Qed.

(** X26. [numberToBytes] writes the low [bytes] bytes of the signed 32-bit
    reading of [num], most significant first.  So
    [numberToBytes(bytesToNumber(b), b.length)] gives back [b] for up to
    four bytes, and [bytesToNumber(numberToBytes(num, 4))] is [num] wrapped
    into [-2^31, 2^31): [num] itself exactly when it lies in that range. *)
Theorem numberToBytes_bytesToNumber_roundtrip :
  (forall num k, length (numberToBytes num k) = k /\
                 be_value 0 (numberToBytes num k) = ToInt32 num mod 256 ^ Z.of_nat k) /\
  (forall b, (length b <= 4)%nat -> numberToBytes (bytesToNumber b) (length b) = b) /\
  (forall num, bytesToNumber (numberToBytes num 4) = ToInt32 num) /\
  (forall num, bytesToNumber (numberToBytes num 4) = num <-> - 2 ^ 31 <= num < 2 ^ 31).
Proof.
  assert (forall num, bytesToNumber (numberToBytes num 4) = ToInt32 num) as Hback.
  { intros num. rewrite bytesToNumber_value, numberToBytes_spec, be_bytes_value.
    apply ToInt32_congr. change (256 ^ Z.of_nat 4) with (2 ^ 32).
    rewrite Z.mod_mod by lia. apply ToInt32_mod. }
  split; [| split; [| split]].
  - intros num k. rewrite numberToBytes_spec. split; [apply be_bytes_length |].
    apply be_bytes_value.
  - intros b Hlen. apply be_value_inj.
    + rewrite numberToBytes_spec. apply be_bytes_length.
    + rewrite numberToBytes_spec, be_bytes_value, bytesToNumber_value.
      rewrite ToInt32_small by apply ToInt32_range.
      pose proof (be_value_bounds b) as Hb.
      assert (exists q, 2 ^ 32 = q * 256 ^ Z.of_nat (length b)) as [q Hq].
      { exists (256 ^ Z.of_nat (4 - length b)).
        rewrite <- Z.pow_add_r by lia.
        replace (Z.of_nat (4 - length b) + Z.of_nat (length b)) with 4 by lia.
        reflexivity. }
      assert (0 < 256 ^ Z.of_nat (length b)) as Hpos by (apply Z.pow_pos_nonneg; lia).
      unfold ToInt32. rewrite (Z.mod_eq (be_value 0 b + 2 ^ 31) (2 ^ 32)) by lia.
      replace (be_value 0 b + 2 ^ 31 - 2 ^ 32 * ((be_value 0 b + 2 ^ 31) / 2 ^ 32) - 2 ^ 31)
        with (be_value 0 b
              + - ((be_value 0 b + 2 ^ 31) / 2 ^ 32 * q) * 256 ^ Z.of_nat (length b))
        by (rewrite Hq; ring).
      rewrite Z.mod_add by lia. apply Z.mod_small. exact Hb.
  - exact Hback.
  - intros num. rewrite Hback. split.
    + intros <-. apply ToInt32_range.
    + apply ToInt32_small.
Qed.

(** X27. For a BigInt [n >= 0], [bigintToBytes(n, length)] returns bytes that
    [bytesToBigint] reads back as [n]; with a [length] the result has at
    least that many bytes. *)
Theorem bytesToBigint_bigintToBytes_roundtrip (n : Z) (len : option nat) :
  0 <= n ->
  exists bs,
    bigintToBytes n len = Ok bs /\
    bytesToBigint bs = Ok n /\
    (forall l, len = Some l -> (l <= length bs)%nat).
Proof.
  intros Hn. unfold bigintToBytes.
  destruct (padded_bytes n Hn) as (Hdec & Hval & Hpos & _). cbv zeta in Hdec, Hval, Hpos.
  rewrite Hdec.
  set (bs := Buffer_from_hex _) in *.
  destruct len as [len |].
  - destruct (negb (len =? 0)%nat && (length bs <? len)%nat) eqn:E.
    + apply andb_true_iff in E as [_ E]. apply Nat.ltb_lt in E.
      rewrite typed_set_pad by exact E.
      eexists. split; [reflexivity |]. split.
      * rewrite bytesToBigint_value, be_value_zeros. now rewrite Hval.
      * intros l [= <-]. rewrite length_app, length_replicate. lia.
    + exists bs. split; [reflexivity |]. split.
      * rewrite bytesToBigint_value. now rewrite Hval.
      * intros l [= <-]. apply andb_false_iff in E as [E | E].
        -- apply negb_false_iff, Nat.eqb_eq in E. lia.
        -- apply Nat.ltb_ge in E. exact E.
  - exists bs. split; [reflexivity |]. split; [| discriminate].
    rewrite bytesToBigint_value. now rewrite Hval.
Qed.

Lemma bytesToBigint_bigintToBytes_roundtrip_witness :
  exists bs,
    bigintToBytes 4660 (Some 4%nat) = Ok bs /\
    bytesToBigint bs = Ok 4660 /\
    (forall l, Some 4%nat = Some l -> (l <= length bs)%nat).
Proof.
  apply bytesToBigint_bigintToBytes_roundtrip. lia.
Defined.

(** X28. [bytesToBigint] reads a byte array as its big-endian value (0 for
    the empty array), and for a non-empty array [b],
    [bigintToBytes(bytesToBigint(b), b.length)] gives back [b], leading
    zero bytes included. *)
Theorem bigintToBytes_bytesToBigint_roundtrip (b : list byte) :
  b <> [] ->
  bytesToBigint b = Ok (be_value 0 b) /\
  bigintToBytes (be_value 0 b) (Some (length b)) = Ok b.
Proof.
  intros Hne. split; [apply bytesToBigint_value |].
  pose proof (be_value_bounds b) as Hb.
  assert (0 < length b)%nat as Hlen by (destruct b; [now destruct Hne | cbn; lia]).
  unfold bigintToBytes.
  destruct (padded_bytes (be_value 0 b) (proj1 Hb)) as (Hdec & Hval & Hpos & Hmax).
  cbv zeta in Hdec, Hval, Hpos, Hmax. rewrite Hdec.
  set (bs := Buffer_from_hex _) in *.
  specialize (Hmax (length b) Hlen (proj2 Hb)).
  destruct (negb (length b =? 0)%nat && (length bs <? length b)%nat) eqn:E.
  - apply andb_true_iff in E as [_ E]. apply Nat.ltb_lt in E.
    rewrite typed_set_pad by exact E. f_equal. apply be_value_inj.
    + rewrite length_app, length_replicate. lia.
    + now rewrite be_value_zeros.
  - f_equal. apply be_value_inj; [| exact Hval].
    apply andb_false_iff in E as [E | E].
    + apply negb_false_iff, Nat.eqb_eq in E. lia.
    + apply Nat.ltb_ge in E. lia.
Qed.

Lemma bigintToBytes_bytesToBigint_roundtrip_witness :
  bytesToBigint [Byte.x00; Byte.x12; Byte.x34]
  = Ok (be_value 0 [Byte.x00; Byte.x12; Byte.x34]) /\
  bigintToBytes (be_value 0 [Byte.x00; Byte.x12; Byte.x34])
    (Some (length [Byte.x00; Byte.x12; Byte.x34]))
  = Ok [Byte.x00; Byte.x12; Byte.x34].
Proof.
  apply bigintToBytes_bytesToBigint_roundtrip. discriminate.
Defined.

(** X29. [bytesEqual(a, b)] is true exactly when the two arrays are the same
    sequence of bytes. *)
Theorem bytesEqual_iff_equal (a b : list byte) : bytesEqual a b = true <-> a = b.
Proof.
  unfold bytesEqual. destruct (length a =? length b)%nat eqn:El; cbn [negb].
  - apply Nat.eqb_eq in El. rewrite bytesEqual_loop_spec. split.
    + intros H. apply list_eq. intros j.
      destruct (Nat.lt_ge_cases j (length a)) as [Hlt | Hge].
      * apply H. lia.
      * rewrite !lookup_ge_None_2 by lia. reflexivity.
    + intros -> j _. reflexivity.
  - apply Nat.eqb_neq in El. split; [discriminate | intros ->; now destruct El].
Qed.

(** X30. [concatBytes(...arrays)] returns the arrays joined in order; its
    [set] calls never run out of bounds. *)
Theorem concatBytes_is_concat (arrays : list (list byte)) :
  concatBytes arrays = Ok (concat arrays).
Proof.
  unfold concatBytes. rewrite total_length_fold. cbn [Nat.add].
  exact (concatBytes_loop_spec arrays []).
Qed.

End EncodingProperties.

(** ** Properties of [crypto/addresses.ts] *)
Section Base58Properties.
Import JS JSNumber CodecVocabulary Base58.

(** X6. [base58Decode(base58Encode(buffer))] gives back [buffer] for every
    buffer that holds a byte other than zero, leading zero bytes included. *)
Theorem base58Decode_base58Encode_roundtrip (buffer : list byte) :
  (exists x, x ∈ buffer /\ x <> Byte.x00) ->
  exists encoded, base58Encode buffer = Ok encoded /\ base58Decode encoded = Ok buffer.
Proof. apply base58Decode_base58Encode_roundtrip_core. Qed.

Lemma base58Decode_base58Encode_roundtrip_witness :
  exists encoded,
    base58Encode [Byte.x00; Byte.x00; Byte.x2a] = Ok encoded /\
    base58Decode encoded = Ok [Byte.x00; Byte.x00; Byte.x2a].
Proof.
  apply base58Decode_base58Encode_roundtrip.
  exists Byte.x2a. split; [| discriminate].
  apply elem_of_cons. right. apply elem_of_cons. right. apply elem_of_cons. now left.
Defined.

(** X7. Buffers of zero bytes do not survive the round trip: [k >= 1] zero
    bytes encode to [k] characters '1', which decode to [k + 1] zero bytes
    (so does the empty text, to one zero byte); and [base58Encode] of the
    empty buffer throws a [SyntaxError]. *)
Theorem base58_zero_buffers_gain_a_byte :
  (forall k, (0 < k)%nat ->
     base58Encode (replicate k Byte.x00) = Ok (repeat_char "1" k "")) /\
  (forall k, base58Decode (repeat_char "1" k "") = Ok (replicate (S k) Byte.x00)) /\
  base58Encode [] = Throw "SyntaxError: Cannot convert 0x to a BigInt".
Proof.
  split; [| split; [| reflexivity]].
  - intros k Hk. rewrite encode_unfold by (destruct k; [lia | discriminate]).
    assert (be_value 0 (replicate k Byte.x00) = 0) as ->.
    { rewrite <- (app_nil_r (replicate k Byte.x00)). apply be_value_zeros. }
    assert (leading_zero_bytes (replicate k Byte.x00) = k) as ->.
    { clear Hk. induction k as [| k IH]; [reflexivity |]. cbn. now rewrite IH. }
    reflexivity.
  - intros k. rewrite (decode_unfold _ 0) by (now rewrite decode_loop_ones).
    rewrite leading_ones_repeat. cbn [leading_ones Nat.add]. rewrite Nat.add_0_r.
    change (Buffer_from_hex _) with [Byte.x00]. f_equal.
    clear. induction k as [| k IH]; [reflexivity |]. cbn. now rewrite IH.
Qed.

End Base58Properties.

Section BitcoinProperties.
Import JS JSNumber CodecVocabulary Base58 Addresses Address.
Variable sha256 : list byte -> list byte.
Variable ripemd160 : list byte -> list byte.

Lemma deriveBitcoinAddress_unfold publicKeyHex network address :
  deriveBitcoinAddress sha256 ripemd160 publicKeyHex network = Ok address ->
  exists compressed,
    compressPublicKey (strip_0x publicKeyHex) = Ok compressed /\
    let version := match network with mainnet => Byte.x00 | _ => Byte.x6f end in
    let hash160 := ripemd160 (sha256 (Buffer_from_hex compressed)) in
    let payload := version :: hash160 in
    base58Encode (payload ++ take 4 (sha256 (sha256 payload))) = Ok address.
Proof.
  unfold deriveBitcoinAddress.
  destruct (compressPublicKey (strip_0x publicKeyHex)) as [compressed | msg];
    [| discriminate].
  intros H. exists compressed. split; [reflexivity | exact H].
Qed.

(** X8. Every mainnet address [deriveBitcoinAddress] returns starts with
    the character '1', whatever the key and the digests. *)
Theorem deriveBitcoinAddress_mainnet_starts_with_1 (publicKeyHex address : string) :
  deriveBitcoinAddress sha256 ripemd160 publicKeyHex mainnet = Ok address ->
  startsWith "1" address = true.
Proof.
  intros H. apply deriveBitcoinAddress_unfold in H as (compressed & _ & H).
  cbv zeta in H. rewrite encode_unfold in H by discriminate.
  injection H as <-. reflexivity.
Qed.

(** X9. A testnet or regtest address decodes, with [base58Decode], to the
    25-byte-style payload it was built from: the version byte 0x6f, the
    RIPEMD-160 of the SHA-256 of the compressed key, and the first four
    bytes of the double SHA-256 of these. *)
Theorem deriveBitcoinAddress_testnet_decodes
    (publicKeyHex address : string) (network : Network) :
  network <> mainnet ->
  deriveBitcoinAddress sha256 ripemd160 publicKeyHex network = Ok address ->
  exists compressed,
    compressPublicKey (strip_0x publicKeyHex) = Ok compressed /\
    let hash160 := ripemd160 (sha256 (Buffer_from_hex compressed)) in
    let payload := Byte.x6f :: hash160 in
    base58Decode address = Ok (payload ++ take 4 (sha256 (sha256 payload))).
Proof.
  intros Hnet H. apply deriveBitcoinAddress_unfold in H as (compressed & Hc & H).
  exists compressed. split; [exact Hc |]. cbv zeta in *.
  assert (match network with mainnet => Byte.x00 | _ => Byte.x6f end = Byte.x6f) as E
    by (destruct network; [now destruct Hnet | reflexivity | reflexivity]).
  rewrite E in H.
  destruct (base58Decode_base58Encode_roundtrip_core
              (Byte.x6f :: ripemd160 (sha256 (Buffer_from_hex compressed)) ++
               take 4 (sha256 (sha256
                 (Byte.x6f :: ripemd160 (sha256 (Buffer_from_hex compressed)))))))
    as (enc & Henc & Hdec).
  { exists Byte.x6f. split; [apply elem_of_cons; now left | discriminate]. }
  cbn [app] in H. rewrite Henc in H. injection H as <-. exact Hdec.
Qed.

End BitcoinProperties.

Lemma deriveBitcoinAddress_mainnet_starts_with_1_witness :
  JS.startsWith "1" "14W5bHkK5" = true.
Proof.
  apply (deriveBitcoinAddress_mainnet_starts_with_1
           (fun _ => [Byte.x01; Byte.x02; Byte.x03; Byte.x04; Byte.x05])
           (fun _ => [Byte.x07; Byte.x08])
           ("0000000000000000000000000000000000000000000000000000000000000001" +:+
            "0000000000000000000000000000000000000000000000000000000000000002")).
  reflexivity.
Defined.

Lemma deriveBitcoinAddress_testnet_decodes_witness :
  exists compressed,
    Addresses.compressPublicKey
      (JS.strip_0x
         ("0000000000000000000000000000000000000000000000000000000000000001" +:+
          "0000000000000000000000000000000000000000000000000000000000000002"))
    = Ok compressed /\
    let hash160 := [Byte.x07; Byte.x08] in
    let payload := Byte.x6f :: hash160 in
    Base58.base58Decode "5D2qgqzULb"
    = Ok (payload ++ take 4 [Byte.x01; Byte.x02; Byte.x03; Byte.x04; Byte.x05]).
Proof.
  apply (deriveBitcoinAddress_testnet_decodes
           (fun _ => [Byte.x01; Byte.x02; Byte.x03; Byte.x04; Byte.x05])
           (fun _ => [Byte.x07; Byte.x08])
           ("0000000000000000000000000000000000000000000000000000000000000001" +:+
            "0000000000000000000000000000000000000000000000000000000000000002")
           "5D2qgqzULb" Address.testnet); [discriminate | reflexivity].
Defined.

(** ** Properties of [crypto/elliptic.ts] *)
Section EllipticProperties.
Import JS JSNumber CodecVocabulary Elliptic Addresses Address.

Local Abbreviation p := secp256k1_p.

Lemma parseHex_all_hex s : forall acc v, parseHex_acc acc s = Some v -> all_hex s = true.
Proof.
  induction s as [| c s IH]; intros acc v H; [reflexivity |].
  cbn in *. destruct (hexDigitValue c); [eapply IH; exact H | discriminate].
Qed.

Lemma lower_hexDigitChar d : 0 <= d < 16 -> lower_char (hexDigitChar d) = hexDigitChar d.
Proof.
  intros Hd.
  assert (d = 0 \/ d = 1 \/ d = 2 \/ d = 3 \/ d = 4 \/ d = 5 \/ d = 6 \/ d = 7 \/
          d = 8 \/ d = 9 \/ d = 10 \/ d = 11 \/ d = 12 \/ d = 13 \/ d = 14 \/ d = 15)
    as H by lia.
  repeat (destruct H as [-> | H]; [reflexivity |]). now subst.
Qed.

Lemma toLowerCase_hexDigits f : forall n acc,
  toLowerCase acc = acc -> toLowerCase (hexDigits f n acc) = hexDigits f n acc.
Proof.
  induction f as [| f IH]; intros n acc Hacc; [exact Hacc |].
  cbn [hexDigits].
  assert (toLowerCase (String (hexDigitChar (n mod 16)) acc)
          = String (hexDigitChar (n mod 16)) acc) as H.
  { cbn [toLowerCase]. rewrite Hacc, lower_hexDigitChar; [reflexivity |].
    apply Z.mod_pos_bound. lia. }
  destruct (n / 16 =? 0); [exact H | now apply IH].
Qed.

Lemma toLowerCase_repeat_zero k s :
  toLowerCase (repeat_char "0" k s) = repeat_char "0" k (toLowerCase s).
Proof. induction k as [| k IH]; [reflexivity |]. cbn. now rewrite IH. Qed.

Lemma all_hex_repeat_zero k s : all_hex (repeat_char "0" k s) = all_hex s.
Proof. induction k as [| k IH]; [reflexivity |]. exact IH. Qed.

Lemma hex64_lower n : 0 <= n -> toLowerCase (hex64 n) = hex64 n /\ all_hex (hex64 n) = true.
Proof.
  intros Hn. unfold hex64, padStart. rewrite toString16_nonneg by exact Hn. split.
  - rewrite toLowerCase_repeat_zero. f_equal. now apply toLowerCase_hexDigits.
  - rewrite all_hex_repeat_zero. now apply hexDigits_all_hex.
Qed.

(** Two texts of hexadecimal digits with the same even length and the same
    value differ at most in the case of their letters. *)
Lemma same_value_same_text s t v :
  String.length s = String.length t ->
  (String.length s mod 2 =? 0)%nat = true ->
  s <> "" ->
  BigInt_hex s = Some v -> BigInt_hex t = Some v ->
  toLowerCase s = toLowerCase t.
Proof.
  intros Hlen Heven Hne Hs Ht.
  assert (t <> "") as Hne' by (intros ->; destruct s; [now destruct Hne | discriminate]).
  assert (parseHex_acc 0 s = Some v) as Ps by (destruct s; [now destruct Hne | exact Hs]).
  assert (parseHex_acc 0 t = Some v) as Pt by (destruct t; [now destruct Hne' | exact Ht]).
  destruct (map_pairs_well_formed s Heven (parseHex_all_hex _ _ _ Ps)) as (_ & Ls & Ns & Vs).
  rewrite Hlen in Heven.
  destruct (map_pairs_well_formed t Heven (parseHex_all_hex _ _ _ Pt)) as (_ & Lt & Nt & Vt).
  rewrite <- Ls, <- Lt. f_equal. apply be_value_inj.
  - rewrite Ns, Nt, Hlen. reflexivity.
  - specialize (Vs 0). specialize (Vt 0). rewrite Ps in Vs. rewrite Pt in Vt. congruence.
Qed.

(** What a successful decompression returns. *)
Lemma decompress_output c pre xs x out :
  strip_0x c = pre +:+ xs ->
  pre = "02" \/ pre = "03" ->
  String.length xs = 64%nat ->
  BigInt_hex xs = Some x ->
  decompressPublicKey c = Ok out ->
  exists y, out = hex64 x +:+ hex64 y /\ 0 < y < p /\ Z.even y = String.eqb pre "02".
Proof.
  intros Hc Hpre Hlen Hx.
  rewrite (decompress_unfold c pre xs x Hc Hpre Hlen Hx).
  pose proof p_pos as Hp.
  assert (0 <= (x ^ 3 + 7) mod p < p) as Ha by (apply Z.mod_pos_bound; lia).
  generalize dependent ((x ^ 3 + 7) mod p). intros alpha Ha.
  destruct (modPow alpha legendre_exp p =? 1) eqn:Hleg; [| intros H; discriminate H].
  apply Z.eqb_eq in Hleg.
  destruct (sqrt_candidate alpha (proj1 Ha) Hleg) as [Hsq Hb].
  rewrite (Z.mod_small alpha) in Hsq by exact Ha.
  generalize dependent (modPow alpha sqrt_exp p). intros beta Hsq Hb.
  pose proof (choose_root_facts (String.eqb pre "02") alpha beta Hb Hsq) as Hy.
  cbv zeta in Hy |- *.
  generalize dependent
    (if negb (Bool.eqb (Z.rem beta 2 =? 0) (String.eqb pre "02"))
     then p - beta else beta).
  intros y (Hy & _ & Hev) Hout. apply Ok_inj in Hout. subst out.
  exists y. repeat split; try assumption; lia.
Qed.

Lemma startsWith_app_long pre a b :
  (String.length pre <= String.length a)%nat ->
  startsWith pre (a +:+ b) = startsWith pre a.
Proof.
  revert a. induction pre as [| c pre IH]; intros a Hlen; [reflexivity |].
  destruct a as [| d a]; [cbn in Hlen; lia |].
  rewrite append_cons. cbn [startsWith]. destruct (Ascii.eqb c d); [| reflexivity].
  apply IH. cbn in Hlen. lia.
Qed.

Lemma startsWith_04_lower s : startsWith "04" (toLowerCase s) = startsWith "04" s.
Proof.
  destruct s as [| a [| b s]]; [reflexivity | |].
  - cbn [toLowerCase startsWith].
    destruct a as [[] [] [] [] [] [] [] []]; reflexivity.
  - cbn [toLowerCase startsWith].
    assert (Ascii.eqb "0" (lower_char a) = Ascii.eqb "0" a) as ->
      by (destruct a as [[] [] [] [] [] [] [] []]; reflexivity).
    assert (Ascii.eqb "4" (lower_char b) = Ascii.eqb "4" b) as ->
      by (destruct b as [[] [] [] [] [] [] [] []]; reflexivity).
    reflexivity.
Qed.

Lemma compress_of_output_core c pre xs x out :
  strip_0x c = pre +:+ xs ->
  pre = "02" \/ pre = "03" ->
  String.length xs = 64%nat ->
  BigInt_hex xs = Some x ->
  startsWith "04" xs = false ->
  decompressPublicKey c = Ok out ->
  compressPublicKey out = Ok (pre +:+ toLowerCase xs).
Proof.
  intros Hc Hpre Hlen Hx H04 Hout.
  destruct (decompress_output c pre xs x out Hc Hpre Hlen Hx Hout) as (y & -> & Hy & Hev).
  pose proof (BigInt_hex_bounds _ _ Hx) as Hxb. rewrite Hlen in Hxb.
  change (Z.of_nat 64) with 64 in Hxb.
  pose proof p_lt_2_256 as Hp256.
  pose proof (hex64_length x Hxb) as Lx.
  pose proof (hex64_length y ltac:(lia)) as Ly.
  destruct (hex64_lower x (proj1 Hxb)) as [Lowx _].
  assert (hex64 x = toLowerCase xs) as Ex.
  { rewrite <- Lowx. apply (same_value_same_text _ _ x).
    - now rewrite Lx, Hlen.
    - now rewrite Lx.
    - intros E. rewrite E in Lx. discriminate Lx.
    - apply hex64_parse. lia.
    - exact Hx. }
  destruct (coordinates_of_output x y Hxb ltac:(lia)) as [_ Hcy].
  unfold compressPublicKey.
  assert (startsWith "04" (hex64 x +:+ hex64 y) = false) as E04.
  { rewrite startsWith_app_long by (rewrite Lx; cbn; lia).
    now rewrite Ex, startsWith_04_lower. }
  rewrite E04, Hcy.
  assert (slice 0 64 (hex64 x +:+ hex64 y) = hex64 x) as ->.
  { unfold slice. rewrite <- Lx at 1. cbn [Nat.sub]. rewrite Nat.sub_0_r.
    apply substring_app_l. }
  rewrite even_rem2 by lia. rewrite Hev, Ex.
  destruct Hpre as [-> | ->]; reflexivity.
Qed.

(** X1. Compressing what [decompressPublicKey] returned gives the compressed
    key back, without its 0x and in lower case, provided the x coordinate
    does not begin with the byte 04 (the marker [compressPublicKey] strips). *)
Theorem compressPublicKey_decompressPublicKey_roundtrip
    (c pre xs out : string) (x : Z) :
  strip_0x c = pre +:+ xs ->
  pre = "02" \/ pre = "03" ->
  String.length xs = 64%nat ->
  BigInt_hex xs = Some x ->
  startsWith "04" xs = false ->
  decompressPublicKey c = Ok out ->
  compressPublicKey out = Ok (pre +:+ toLowerCase xs).
Proof. apply compress_of_output_core. Qed.

Lemma compressPublicKey_decompressPublicKey_roundtrip_witness :
  compressPublicKey
    ("79be667ef9dcbbac55a06295ce870b07029bfcdb2dce28d959f2815b16f81798" +:+
     "483ada7726a3c4655da4fbfc0e1108a8fd17b448a68554199c47d08ffb10d4b8")
  = Ok ("02" +:+
        toLowerCase "79BE667EF9DCBBAC55A06295CE870B07029BFCDB2DCE28D959F2815B16F81798").
Proof.
  apply (compressPublicKey_decompressPublicKey_roundtrip
           "0x0279BE667EF9DCBBAC55A06295CE870B07029BFCDB2DCE28D959F2815B16F81798"
           "02" "79BE667EF9DCBBAC55A06295CE870B07029BFCDB2DCE28D959F2815B16F81798" _
           55066263022277343669578718895168534326250603453777594175500187360389116729240);
    [reflexivity | now left | reflexivity | vm_compute; reflexivity | reflexivity
    | vm_compute; reflexivity].
Defined.

(** The general form of [modPow], for every exponent. *)
Lemma modPow_power b e m :
  0 <= b -> 0 <= e -> 1 < m -> modPow b e m = b ^ e mod m.
Proof.
  intros Hb He Hm. destruct (Z.eq_dec e 0) as [-> | Hne].
  - cbn. now rewrite Z.mod_small by lia.
  - apply modPow_spec; lia.
Qed.

(** X2. [modPow(base, exp, mod)] is [base^exp mod mod] for a non-negative base
    and exponent and a modulus above 1; with modulus 1 it still is for a
    positive exponent, but [modPow(base, 0, 1)] is 1, not 0. *)
Theorem modPow_computes_the_power :
  (forall b e m, 0 <= b -> 0 <= e -> 1 < m -> modPow b e m = b ^ e mod m) /\
  (forall b e, 0 <= b -> 0 < e -> modPow b e 1 = b ^ e mod 1) /\
  (forall b, modPow b 0 1 = 1 /\ b ^ 0 mod 1 = 0).
Proof.
  split; [exact modPow_power |]. split.
  - intros b e Hb He. apply modPow_spec; lia.
  - intros b. split; reflexivity.
Qed.

(** X3. [modSqrt(a, p)] for any modulus [p > 1] and [a >= 0]: a number it
    returns is a square root of [a] modulo [p], and it returns one only
    when [p % 4 == 3]; it returns [null] exactly when the Legendre power
    [a^((p-1)/2) mod p] is not 1; it throws 'Unsupported prime' when that
    power is 1 and [p % 4 != 3]. *)
Theorem modSqrt_sound (a m : Z) :
  0 <= a -> 1 < m ->
  (forall r, modSqrt a m = Ok (Some r) ->
     m mod 4 = 3 /\ 0 <= r < m /\ (r * r) mod m = a mod m) /\
  (modSqrt a m = Ok None <-> a ^ ((m - 1) / 2) mod m <> 1) /\
  (a ^ ((m - 1) / 2) mod m = 1 -> m mod 4 <> 3 ->
   modSqrt a m = Throw "Unsupported prime for square root").
Proof.
  intros Ha Hm. unfold modSqrt.
  rewrite !Z.quot_div_nonneg by lia. rewrite rem_mod by lia.
  assert (0 <= (m - 1) / 2) as He by (apply Z.div_pos; lia).
  assert (0 <= (m + 1) / 4) as Hs by (apply Z.div_pos; lia).
  rewrite !modPow_power by lia.
  destruct (Z.eqb_spec (a ^ ((m - 1) / 2) mod m) 1) as [Hleg | Hleg]; cbn [negb].
  - destruct (Z.eqb_spec (m mod 4) 3) as [H4 | H4].
    + split; [| split].
      * intros r [= <-]. split; [exact H4 |].
        split; [apply Z.mod_pos_bound; lia |].
        rewrite <- Z.mul_mod by lia. rewrite <- Z.pow_add_r by lia.
        assert ((m + 1) / 4 + (m + 1) / 4 = (m - 1) / 2 + 1) as ->.
        { pose proof (Z.div_mod m 4 ltac:(lia)) as Hd. rewrite H4 in Hd.
          set (k := m / 4) in *.
          replace (m + 1) with ((k + 1) * 4) by lia.
          replace (m - 1) with ((2 * k + 1) * 2) by lia.
          rewrite !Z.div_mul by lia. lia. }
        rewrite Z.pow_add_r, Z.pow_1_r by lia.
        rewrite <- Z.mul_mod_idemp_l by lia. rewrite Hleg. now rewrite Z.mul_1_l.
      * split; [discriminate | intros H; now destruct H].
      * intros _ H. now destruct H.
    + split; [| split].
      * intros r H. discriminate H.
      * split; [discriminate | intros H; now destruct H].
      * reflexivity.
  - split; [| split].
    + intros r H. discriminate H.
    + split; [intros _; exact Hleg | reflexivity].
    + intros H. now destruct Hleg.
Qed.

Lemma modSqrt_sound_witness :
  (forall r, modSqrt 2 7 = Ok (Some r) ->
     7 mod 4 = 3 /\ 0 <= r < 7 /\ (r * r) mod 7 = 2 mod 7) /\
  (modSqrt 2 7 = Ok None <-> 2 ^ ((7 - 1) / 2) mod 7 <> 1) /\
  (2 ^ ((7 - 1) / 2) mod 7 = 1 -> 7 mod 4 <> 3 ->
   modSqrt 2 7 = Throw "Unsupported prime for square root").
Proof.
  apply modSqrt_sound; lia.
Defined.

End EllipticProperties.

(** ** Ethereum addresses *)
Section EthereumProperties.
Import JS JSNumber CodecVocabulary Lib Elliptic Addresses Address Service.

Lemma toLowerCase_length s : String.length (toLowerCase s) = String.length s.
Proof. induction s as [| c s IH]; [reflexivity |]. cbn. now rewrite IH. Qed.

Lemma lower_char_idem c : lower_char (lower_char c) = lower_char c.
Proof. destruct c as [[] [] [] [] [] [] [] []]; reflexivity. Qed.

Lemma toLowerCase_idem s : toLowerCase (toLowerCase s) = toLowerCase s.
Proof.
  induction s as [| c s IH]; [reflexivity |]. cbn. now rewrite IH, lower_char_idem.
Qed.

Lemma lower_char_hex c :
  match hexDigitValue (lower_char c), hexDigitValue c with
  | Some _, Some _ | None, None => True
  | _, _ => False
  end.
Proof. destruct c as [[] [] [] [] [] [] [] []]; exact I. Qed.

Lemma all_hex_toLowerCase s : all_hex (toLowerCase s) = all_hex s.
Proof.
  induction s as [| c s IH]; [reflexivity |]. cbn.
  pose proof (lower_char_hex c) as H.
  destruct (hexDigitValue (lower_char c)), (hexDigitValue c); try destruct H;
    [exact IH | reflexivity].
Qed.

Lemma slice_last_length k s :
  (k <= String.length s)%nat -> String.length (slice_last k s) = k.
Proof.
  intros Hk. unfold slice_last, slice_from. rewrite substring_length. lia.
Qed.

Lemma isValid_0x s :
  String.length s = 40%nat -> all_hex s = true ->
  isValidEthereumAddress (String "0" (String "x" s)) = true.
Proof.
  intros Hlen Hhex. unfold isValidEthereumAddress, slice_from.
  cbn [startsWith String.length]. rewrite Hlen.
  change (String.substring 2 (42 - 2) (String "0" (String "x" s)))
    with (String.substring 0 40 s).
  assert (String.substring 0 40 s = s) as -> by (rewrite <- Hlen; apply substring_all).
  rewrite Hhex. reflexivity.
Qed.

(** X4. When the hash function answers with at least 40 characters of
    which the last 40 are hexadecimal digits (as keccak256 does), every
    address [deriveEthereumAddress] returns passes
    [isValidEthereumAddress] and is in lower case. *)
Theorem deriveEthereumAddress_returns_valid_address
    {W : Type} (env : Env W) (publicKeyHex : string) (w : W) (address : string) :
  (forall x w' h, (env _ (ViemKeccak256 x) w').1 = Ok h ->
     (40 <= String.length h)%nat /\ all_hex (slice_last 40 h) = true) ->
  (run env (deriveEthereumAddress publicKeyHex) w).1 = Ok address ->
  isValidEthereumAddress address = true /\ toLowerCase address = address.
Proof.
  intros Hk. unfold deriveEthereumAddress.
  destruct (getUncompressedPublicKey (strip_0x publicKeyHex)) as [u | msg];
    [| discriminate].
  rewrite run_ebind, run_call.
  specialize (Hk ("0x" +:+ u) w).
  destruct (env _ (ViemKeccak256 ("0x" +:+ u)) w) as [[h | msg] w1]; cbn [fst snd] in *;
    [| discriminate].
  destruct (Hk h eq_refl) as [Hlen Hhex].
  intros [= <-].
  set (t := toLowerCase (slice_last 40 h)).
  change (isValidEthereumAddress (String "0" (String "x" t)) = true /\
          toLowerCase (String "0" (String "x" t)) = String "0" (String "x" t)).
  subst t. split.
  - apply isValid_0x.
    + now rewrite toLowerCase_length, slice_last_length.
    + now rewrite all_hex_toLowerCase.
  - assert (forall t, toLowerCase (String "0" (String "x" t))
                      = String "0" (String "x" (toLowerCase t))) as -> by reflexivity.
    now rewrite toLowerCase_idem.
Qed.

Lemma startsWith_04_hex b rest :
  startsWith "04" (Buffer_to_hex (b :: rest)) = true -> b = Byte.x04.
Proof.
  cbn [Buffer_to_hex startsWith].
  destruct b; intros H; try reflexivity; vm_compute in H; discriminate H.
Qed.

(** X5. [deriveEthereumAddressFromBytes] takes a first byte 0x04 for the
    marker of an uncompressed key whatever the length: a 65-byte key loses
    its marker, but a bare 64-byte key [x || y] whose x starts with 0x04
    (and goes on with another byte) is cut to 63 bytes and rejected with
    'Invalid public key format: 126 hex chars', before any hashing. *)
Theorem deriveEthereumAddressFromBytes_cuts_leading_04 :
  (forall rest,
     deriveEthereumAddressFromBytes (Byte.x04 :: rest)
     = deriveEthereumAddress (Buffer_to_hex rest)) /\
  (forall b rest, length rest = 62%nat -> b <> Byte.x04 ->
     deriveEthereumAddressFromBytes (Byte.x04 :: b :: rest)
     = throw ("Invalid public key format: " +:+ show_nat 126 +:+ " hex chars")).
Proof.
  split; [reflexivity |].
  intros b rest Hlen Hb.
  change (deriveEthereumAddressFromBytes (Byte.x04 :: b :: rest))
    with (deriveEthereumAddress (Buffer_to_hex (b :: rest))).
  unfold deriveEthereumAddress, getUncompressedPublicKey, isCompressedPublicKey.
  rewrite !strip_0x_Buffer_to_hex.
  assert (String.length (Buffer_to_hex (b :: rest)) = 126%nat) as Hl
    by (rewrite Buffer_to_hex_length; cbn [length]; lia).
  rewrite Hl. cbn [Nat.eqb].
  destruct (startsWith "04" (Buffer_to_hex (b :: rest))) eqn:E.
  - apply startsWith_04_hex in E. now destruct Hb.
  - reflexivity.
Qed.

End EthereumProperties.

Lemma deriveEthereumAddress_returns_valid_address_witness :
  Address.isValidEthereumAddress "0xaaaaaaaaaaaaaaaaaaaaaaaaaaaaaaaaaaaaaaaa" = true /\
  JS.toLowerCase "0xaaaaaaaaaaaaaaaaaaaaaaaaaaaaaaaaaaaaaaaa"
  = "0xaaaaaaaaaaaaaaaaaaaaaaaaaaaaaaaaaaaaaaaa".
Proof.
  apply (deriveEthereumAddress_returns_valid_address (Stub.env "0x00")
           "11111111111111111111111111111111111111111111111111111111111111111111111111111111111111111111111111111111111111111111111111111111"
           ∅).
  - intros x w' h H. cbn in H. injection H as <-. split; [cbn; lia | reflexivity].
  - reflexivity.
Defined.

(* ================================================================== *)
(** * The party object, the pre-signature pool and the chain table *)
(* ================================================================== *)

(** ** [DKLSParty] *)
Section PartyProperties.
Import JS Wire Lib Vocabulary Party PartyMethods.

Lemma history_lift {W A} (env : Env W) (self : DKLSParty) (m : E A) w :
  history env (lift self m) w = history env m w.
Proof. unfold lift. rewrite history_pbind. apply app_nil_r. Qed.

Lemma run_lift {W A} (env : Env W) (self : DKLSParty) (m : E A) w :
  run env (lift self m) w = (((run env m w).1, self), (run env m w).2).
Proof. unfold lift. rewrite run_pbind. reflexivity. Qed.

(** X19. After [reset()] the party reports no session, still holds its
    keyshare, has an empty queue, and every protocol step throws its
    'No active ... session' error without calling the DKLS library and
    without changing the party; [handleMessages] throws it after decoding
    its input, whenever the decoding itself does not throw. *)
Theorem reset_leaves_no_session (self : DKLSParty) :
  hasActiveSession (reset self) = false /\
  getSessionType (reset self) = none /\
  getKeyshare (reset self) = getKeyshare self /\
  getQueuedMessages (reset self) = ([], reset self) /\
  createFirstMessage (reset self) = Ret (Throw "No active session", reset self) /\
  calculateChainCodeCommitment (reset self)
    = Ret (Throw "No active keygen session", reset self) /\
  finalizeKeygen (reset self) = Ret (Throw "No active keygen session", reset self) /\
  (forall messageHash,
     lastMessage messageHash (reset self)
     = Ret (Throw "No active sign session", reset self)) /\
  (forall messages,
     combine messages (reset self) = Ret (Throw "No active sign session", reset self)) /\
  (forall W (env : Env W) w messages commitments decoded,
     (run env (mapM (fun m _ => fromWireMessage m) messages) w).1 = Ok decoded ->
     (run env (handleMessages messages commitments (reset self)) w).1
     = (Throw "No active session", reset self)).
Proof.
  repeat split.
  intros W env w messages commitments decoded Hdec.
  unfold handleMessages. rewrite run_lift, run_ebind, Hdec. reflexivity.
Qed.

(** X16. [finalizeKeygen()] is one-shot: when it returns a keyshare, the
    party stores it, holds no keygen session any more and keeps its sign
    session; a further [finalizeKeygen] or [calculateChainCodeCommitment]
    throws 'No active keygen session' without calling the library.  When
    the library call throws, the party is left as it was. *)
Theorem finalizeKeygen_consumes_the_session
    {W : Type} (env : Env W) (w w' : W) (self self' : DKLSParty) (r : result handle) :
  run env (finalizeKeygen self) w = ((r, self'), w') ->
  match r with
  | Ok k =>
      getKeyshare self' = Some k /\
      keygenSession self' = None /\
      signSession self' = signSession self /\
      getSessionType self' <> keygen /\
      finalizeKeygen self' = Ret (Throw "No active keygen session", self') /\
      calculateChainCodeCommitment self'
        = Ret (Throw "No active keygen session", self')
  | Throw _ => self' = self
  end.
Proof.
  unfold finalizeKeygen. destruct (keygenSession self) as [s |] eqn:Hs.
  - cbn [run]. destruct (env _ (KeygenKeyshare s) w) as [[k | msg] w1]; cbn [run].
    + intros [= <- <- <-].
      split; [reflexivity |]. split; [reflexivity |]. split; [reflexivity |].
      split; [| split; reflexivity].
      cbn. destruct (signSession self); discriminate.
    + intros [= <- <- <-]. reflexivity.
  - cbn [run]. intros [= <- <- <-]. reflexivity.
Qed.

Lemma finalizeKeygen_consumes_the_session_witness :
  let self := mkParty (mkPartyConfig 0 3 2) (Some 5%nat) None None [] in
  let self' := mkParty (mkPartyConfig 0 3 2) None None (Some 0%nat) [] in
  getKeyshare self' = Some 0%nat /\
  keygenSession self' = None /\
  signSession self' = signSession self /\
  getSessionType self' <> keygen /\
  finalizeKeygen self' = Ret (Throw "No active keygen session", self') /\
  calculateChainCodeCommitment self' = Ret (Throw "No active keygen session", self').
Proof.
  cbv zeta.
  exact (finalizeKeygen_consumes_the_session (Stub.env "0x00") ∅ _
           (mkParty (mkPartyConfig 0 3 2) (Some 5%nat) None None []) _ (Ok 0%nat)
           eq_refl).
Defined.

(** X17. [initializeSigning()] without an argument opens the session on the
    stored keyshare and forgets it.  While the session is there a further
    [initializeSigning] throws 'Sign session already initialized'; and
    once [combine] has returned, [initializeSigning()] throws
    'No keyshare available for signing': the party signs once per stored
    keyshare. *)
Theorem initializeSigning_uses_up_the_stored_keyshare
    {W : Type} (env : Env W) (w w1 : W) (self self1 : DKLSParty) (path : string) :
  run env (initializeSigning None path self) w = ((Ok tt, self1), w1) ->
  (exists k s,
     keyshare self = Some k /\ signSession self1 = Some s /\
     history env (initializeSigning None path self) w
     = [event (SignSessionNew k path) (Ok s)]) /\
  getKeyshare self1 = None /\
  (forall ks path',
     initializeSigning ks path' self1
     = Ret (Throw "Sign session already initialized", self1)) /\
  (forall w2 w3 messages sig self2,
     run env (combine messages self1) w2 = ((Ok sig, self2), w3) ->
     forall path',
       initializeSigning None path' self2
       = Ret (Throw "No keyshare available for signing", self2)).
Proof.
  unfold initializeSigning at 1 2.
  destruct (signSession self) as [s0 |] eqn:Hs0; [cbn [run]; intros H; discriminate H |].
  destruct (keyshare self) as [k |] eqn:Hk; [| cbn [run]; intros H; discriminate H].
  cbn [run history].
  destruct (env _ (SignSessionNew k path) w) as [[s | msg] w'] eqn:Henv; cbn [run history];
    [| intros H; discriminate H].
  cbn [set_signSession Party.keyshare]. rewrite Hk.
  intros [= <- <-].
  split; [exists k, s; repeat split |].
  split; [reflexivity |]. split; [reflexivity |].
  intros w2 w3 messages sig self2 Hcomb path'.
  assert (signSession self2 = None /\ keyshare self2 = None) as [Hs2 Hk2].
  { revert Hcomb. unfold combine. cbn [signSession set_keyshare set_signSession].
    rewrite run_pbind.
    destruct (run env _ w2) as [[signature | msg] w4]; cbn [fst snd run].
    - destruct signature as [| sig0 [| sig1 [| sig2 rest]]]; cbn [run];
        intros [= <- <- <-]; split; reflexivity.
    - intros H; discriminate H. }
  unfold initializeSigning. now rewrite Hs2, Hk2.
Qed.

Lemma initializeSigning_uses_up_the_stored_keyshare_witness :
  let self := mkParty (mkPartyConfig 0 3 2) None None (Some 0%nat) [] in
  let self1 := mkParty (mkPartyConfig 0 3 2) None (Some 0%nat) None [] in
  (exists k s,
     keyshare self = Some k /\ signSession self1 = Some s /\
     history (Stub.env "0x00") (initializeSigning None "m" self) Stub.two_shares
     = [event (SignSessionNew k "m") (Ok s)]) /\
  getKeyshare self1 = None.
Proof.
  cbv zeta.
  destruct (initializeSigning_uses_up_the_stored_keyshare (Stub.env "0x00")
              Stub.two_shares (delete 0%nat Stub.two_shares)
              (mkParty (mkPartyConfig 0 3 2) None None (Some 0%nat) [])
              (mkParty (mkPartyConfig 0 3 2) None (Some 0%nat) None []) "m" eq_refl)
    as (H1 & H2 & _).
  split; [exact H1 | exact H2].
Defined.

Lemma calls_lift {W A} (env : Env W) (self : DKLSParty) (m : E A) w :
  calls env (lift self m) w = calls env m w.
Proof. unfold calls. now rewrite history_lift. Qed.

(** X18. A keygen session takes precedence: while the party holds one,
    [getSessionType] answers 'keygen', and [createFirstMessage] and
    [handleMessages] never call into a sign session, even when the party
    holds one too ([initializeSigning] does not look at the keygen
    session). *)
Theorem keygen_session_takes_precedence
    {W : Type} (env : Env W) (w : W) (self : DKLSParty) (k : nat)
    (messages : list WireMessage) (commitments : option (list (option (list byte)))) :
  keygenSession self = Some k ->
  getSessionType self = keygen /\
  Forall (fun o => match o with
                   | anyOp (SignCreateFirstMessage _) => False
                   | anyOp (SignHandleMessages _ _) => False
                   | _ => True
                   end)
    (calls env (createFirstMessage self) w ++
     calls env (handleMessages messages commitments self) w).
Proof.
  intros Hk. split; [unfold getSessionType; now rewrite Hk |].
  unfold createFirstMessage, handleMessages. rewrite Hk, !calls_lift.
  apply Forall_app. split; apply calls_Forall.
  - apply preserves_ebind; [now apply logged_call |].
    intros msg. unfold toWireMessage.
    apply preserves_ebind; [now apply logged_call | intros p; apply preserves_ret].
  - apply preserves_ebind.
    + apply preserves_mapM. intros m _. unfold fromWireMessage.
      apply preserves_ebind; [now apply logged_call | intros p; apply preserves_ret].
    + intros decoded. apply preserves_ebind; [now apply logged_call |].
      intros responses. apply preserves_mapM. intros m _. unfold toWireMessage.
      apply preserves_ebind; [now apply logged_call | intros p; apply preserves_ret].
Qed.

Lemma keygen_session_takes_precedence_witness :
  let self := mkParty (mkPartyConfig 0 3 2) (Some 5%nat) (Some 6%nat) None [] in
  getSessionType self = keygen /\
  Forall (fun o => match o with
                   | anyOp (SignCreateFirstMessage _) => False
                   | anyOp (SignHandleMessages _ _) => False
                   | _ => True
                   end)
    (calls (Stub.env "0x00") (createFirstMessage self) ∅ ++
     calls (Stub.env "0x00") (handleMessages [mkFrame 1 None ""] None self) ∅).
Proof.
  cbv zeta.
  apply (keygen_session_takes_precedence (Stub.env "0x00") ∅
           (mkParty (mkPartyConfig 0 3 2) (Some 5%nat) (Some 6%nat) None []) 5%nat).
  reflexivity.
Defined.

End PartyProperties.

(** ** The wire format *)
Section WireProperties.
Import JS Wire Lib Vocabulary Party.

(** X13. [toWireMessage] and [fromWireMessage] keep the sender and the
    recipient of a frame whatever the codec does; when decoding undoes
    encoding, [fromWireMessage(toWireMessage(msg))] is [msg]. *)
Theorem fromWireMessage_toWireMessage_roundtrip
    {W : Type} (env : Env W) (encode : list byte -> string) :
  (forall b w, env _ (Base64Encode b) w = (Ok (encode b), w)) ->
  (forall b w, env _ (Base64Decode (encode b)) w = (Ok b, w)) ->
  (forall msg w,
     run env (let* wire := toWireMessage msg in fromWireMessage wire) w = (Ok msg, w)) /\
  (forall msg w,
     run env (toWireMessage msg) w
     = (Ok (mkFrame (from_id msg) (to_id msg) (encode (payload msg))), w)).
Proof.
  intros Henc Hdec.
  assert (forall msg w,
            run env (toWireMessage msg) w
            = (Ok (mkFrame (from_id msg) (to_id msg) (encode (payload msg))), w)) as Hto.
  { intros msg w. unfold toWireMessage. rewrite run_ebind, run_call, Henc. reflexivity. }
  split; [| exact Hto].
  intros msg w. rewrite run_ebind, Hto. cbn [fst snd].
  unfold fromWireMessage. rewrite run_ebind, run_call. cbn [payload]. rewrite Hdec.
  cbn [fst snd]. now destruct msg.
Qed.

End WireProperties.

Lemma fromWireMessage_toWireMessage_roundtrip_witness :
  (forall msg w,
     Lib.run (StubCodec.env "0x00")
       (Lib.ebind (Party.toWireMessage msg) (fun wire => Party.fromWireMessage wire)) w
     = (Ok msg, w)) /\
  (forall msg w,
     Lib.run (StubCodec.env "0x00") (Party.toWireMessage msg) w
     = (Ok (Wire.mkFrame (Wire.from_id msg) (Wire.to_id msg)
              (JS.Buffer_to_hex (Wire.payload msg))), w)).
Proof.
  apply (fromWireMessage_toWireMessage_roundtrip (StubCodec.env "0x00") JS.Buffer_to_hex).
  - intros b w. reflexivity.
  - intros b w. cbn. now rewrite Buffer_from_to_hex.
Defined.

(** ** The pre-signature pool *)
Section PoolProperties.
Import JS Wire Lib Vocabulary PreSig PreSigPool.

Lemma filter_map_snd {A B} (P : B -> Prop) `{forall x, Decision (P x)} (l : list (A * B)) :
  filter P (map snd l) = map snd (filter (fun e => P e.2) l).
Proof.
  induction l as [| e l IH]; [reflexivity |].
  cbn [map]. rewrite !filter_cons. cbn [snd].
  destruct (decide (P e.2)); cbn [map]; now rewrite IH.
Qed.

Lemma map_to_list_filter {A} (P : string * A -> Prop) `{forall x, Decision (P x)}
    (m : gmap string A) :
  map_to_list (filter P m) ≡ₚ filter P (map_to_list m).
Proof.
  apply NoDup_Permutation.
  - apply NoDup_map_to_list.
  - apply NoDup_filter, NoDup_map_to_list.
  - intros [i x]. rewrite elem_of_map_to_list, map_lookup_filter_Some.
    rewrite list_elem_of_filter, elem_of_map_to_list. tauto.
Qed.

Lemma available_count_alt st :
  getAvailableCount st
  = length (filter (fun e : string * loc => unconsumed_at st e.2 = true)
              (map_to_list (preSignaturePool st))).
Proof.
  unfold getAvailableCount. now rewrite filter_map_snd, length_map.
Qed.

Lemma filter_filter_same {A} (P : A -> Prop) `{forall x, Decision (P x)} (l : list A) :
  filter P (filter P l) = filter P l.
Proof.
  induction l as [| x l IH]; [reflexivity |].
  rewrite filter_cons. destruct (decide (P x)) as [Hx | Hx]; [| exact IH].
  rewrite filter_cons. destruct (decide (P x)); [now rewrite IH | contradiction].
Qed.

Lemma filter_ext_in {A} (P Q : A -> Prop) `{forall x, Decision (P x)}
    `{forall x, Decision (Q x)} (l : list A) :
  (forall x, x ∈ l -> (P x <-> Q x)) -> filter P l = filter Q l.
Proof.
  induction l as [| x l IH]; intros Hext; [reflexivity |].
  rewrite !filter_cons.
  assert (filter P l = filter Q l) as ->
    by (apply IH; intros y Hy; apply Hext; now apply elem_of_cons; right).
  pose proof (Hext x ltac:(apply elem_of_cons; now left)) as Hx.
  destruct (decide (P x)), (decide (Q x)); tauto.
Qed.

Lemma filter_all_in {A} (P : A -> Prop) `{forall x, Decision (P x)} (l : list A) :
  (forall x, x ∈ l -> P x) -> filter P l = l.
Proof.
  induction l as [| x l IH]; intros Hall; [reflexivity |].
  rewrite filter_cons.
  destruct (decide (P x)) as [_ | Hx].
  - f_equal. apply IH. intros y Hy. apply Hall. apply elem_of_cons. now right.
  - destruct Hx. apply Hall. apply elem_of_cons. now left.
Qed.

(** X20. [cleanupConsumed()] drops from the pool exactly the entries whose
    pre-signature is consumed, so the available count is unchanged and
    afterwards equals the pool size, and a second cleanup changes nothing.
    It does not touch the set of consumed ids: [isConsumed] answers as
    before, and a consumed pre-signature is still refused after the
    cleanup. *)
Theorem cleanupConsumed_keeps_the_consumed_ids (st : State) :
  (forall id l,
     preSignaturePool (cleanupConsumed st) !! id = Some l <->
     preSignaturePool st !! id = Some l /\ unconsumed_at st l = true) /\
  getAvailableCount (cleanupConsumed st) = getAvailableCount st /\
  getAvailableCount (cleanupConsumed st) = size (preSignaturePool (cleanupConsumed st)) /\
  cleanupConsumed (cleanupConsumed st) = cleanupConsumed st /\
  (forall id, isConsumed id (cleanupConsumed st) = isConsumed id st) /\
  (forall messageHash l ps,
     heap st !! l = Some ps ->
     isConsumed (id ps) st = true \/ consumed ps = true ->
     exists msg,
       signWithPreSignature messageHash l (cleanupConsumed st)
       = Ret (Throw msg, cleanupConsumed st)).
Proof.
  assert (getAvailableCount (cleanupConsumed st)
          = size (preSignaturePool (cleanupConsumed st))) as Hsize.
  { rewrite available_count_alt. cbn [cleanupConsumed preSignaturePool].
    rewrite <- length_map_to_list.
    f_equal. apply filter_all_in.
    intros [i l] Hin. apply elem_of_map_to_list, map_lookup_filter_Some in Hin.
    cbn in *. tauto. }
  split; [| split; [| split; [| split; [| split]]]].
  - intros i l. cbn [cleanupConsumed preSignaturePool].
    rewrite map_lookup_filter_Some. reflexivity.
  - rewrite Hsize. cbn [cleanupConsumed preSignaturePool].
    rewrite <- length_map_to_list, map_to_list_filter. now rewrite available_count_alt.
  - exact Hsize.
  - unfold cleanupConsumed at 1. cbn [consumedPreSignatures heap preSignaturePool].
    unfold cleanupConsumed. f_equal.
    apply map_eq. intros i. apply option_eq. intros l.
    rewrite map_lookup_filter_Some. cbn [preSignaturePool].
    rewrite !map_lookup_filter_Some. unfold unconsumed_at. cbn [heap snd]. tauto.
  - reflexivity.
  - intros messageHash l ps Hl Hspent.
    unfold signWithPreSignature. cbn [cleanupConsumed heap consumedPreSignatures].
    rewrite Hl. unfold isConsumed in Hspent.
    destruct (bool_decide (id ps ∈ consumedPreSignatures st)); [eauto |].
    destruct Hspent as [H | H]; [discriminate H |]. rewrite H. eauto.
Qed.

(** The state a first use of a fresh pre-signature leaves, whatever the
    library answers. *)
Lemma signWithPreSignature_marks {W} (env : Env W) w messageHash l st ps :
  heap st !! l = Some ps ->
  consumed ps = false ->
  isConsumed (id ps) st = false ->
  (run env (signWithPreSignature messageHash l st) w).1.2
  = {| consumedPreSignatures := {[ id ps ]} ∪ consumedPreSignatures st;
       preSignaturePool := preSignaturePool st;
       heap := <[l := set_consumed ps]> (heap st) |}.
Proof.
  intros Hl Hc Hi. unfold signWithPreSignature. rewrite Hl.
  unfold isConsumed in Hi. rewrite Hi, Hc. rewrite run_pbind. reflexivity.
Qed.

(** X21. A pre-signature is one object shared by the caller and the pool:
    a first [signWithPreSignature] on an unconsumed pre-signature that
    the pool holds under one id lowers [getAvailableCount] by one, and
    makes [isConsumed] true for its id, whether the library then signs or
    throws. *)
Theorem signWithPreSignature_takes_one_from_the_pool
    {W : Type} (env : Env W) (w : W) (messageHash : list byte)
    (l : nat) (st : State) (ps : PreSignature) (id0 : string) :
  heap st !! l = Some ps ->
  consumed ps = false ->
  isConsumed (id ps) st = false ->
  preSignaturePool st !! id0 = Some l ->
  (forall id', preSignaturePool st !! id' = Some l -> id' = id0) ->
  let st' := (run env (signWithPreSignature messageHash l st) w).1.2 in
  (getAvailableCount st' + 1 = getAvailableCount st)%nat /\
  isConsumed (id ps) st' = true.
Proof.
  intros Hl Hc Hi Hpool Huniq. cbv zeta.
  rewrite (signWithPreSignature_marks env w messageHash l st ps Hl Hc Hi).
  set (st' := {| consumedPreSignatures := _; preSignaturePool := _; heap := _ |}).
  split.
  - rewrite !available_count_alt. cbn [preSignaturePool st'].
    rewrite <- (map_to_list_delete _ _ _ Hpool).
    rewrite !filter_cons. cbn [snd].
    assert (unconsumed_at st l = true) as H1 by (unfold unconsumed_at; now rewrite Hl, Hc).
    assert (unconsumed_at st' l = false) as H2.
    { unfold unconsumed_at. cbn [heap st']. now rewrite lookup_insert_eq. }
    destruct (decide (unconsumed_at st' l = true)) as [H | _]; [congruence |].
    destruct (decide (unconsumed_at st l = true)) as [_ | H]; [| congruence].
    cbn [length]. rewrite Nat.add_1_r. f_equal. f_equal.
    apply filter_ext_in. intros [i l'] Hin. cbn [snd].
    apply elem_of_map_to_list in Hin.
    assert (l' <> l) as Hne.
    { intros ->. apply lookup_delete_Some in Hin as [Hne Hin].
      apply Huniq in Hin. congruence. }
    unfold unconsumed_at. cbn [heap st']. now rewrite lookup_insert_ne.
  - unfold isConsumed. cbn [consumedPreSignatures st'].
    apply bool_decide_eq_true. set_solver.
Qed.

End PoolProperties.

Lemma signWithPreSignature_takes_one_from_the_pool_witness :
  let st :=
    PreSig.mkState ∅ {[ "presig-1" := 0%nat ]}
      {[ 0%nat := PreSig.mkPreSignature "presig-1" [2; 3]%nat 0 false ]} in
  let st' :=
    (Lib.run (Stub.env "0x00")
       (PreSig.signWithPreSignature (replicate 32 Byte.x00) 0%nat st) ∅).1.2 in
  (PreSigPool.getAvailableCount st' + 1 = PreSigPool.getAvailableCount st)%nat /\
  PreSig.isConsumed "presig-1" st' = true.
Proof.
  cbv zeta.
  apply (signWithPreSignature_takes_one_from_the_pool (Stub.env "0x00") ∅
           (replicate 32 Byte.x00) 0%nat
           (PreSig.mkState ∅ {[ "presig-1" := 0%nat ]}
              {[ 0%nat := PreSig.mkPreSignature "presig-1" [2; 3]%nat 0 false ]})
           (PreSig.mkPreSignature "presig-1" [2; 3]%nat 0 false) "presig-1").
  - reflexivity.
  - reflexivity.
  - reflexivity.
  - reflexivity.
  - intros id' H. cbn [PreSig.preSignaturePool] in H.
    apply lookup_singleton_Some in H as [<- _]. reflexivity.
Defined.

(** ** The chain table of [BitShardSDK] *)
Section ChainProperties.
Import Chains.
Context {ChainConfig : Type}.

(** X15. [usePresetChain(name)] never changes the chain table: it throws
    'Unknown preset chain' for a name the table lacks and otherwise puts
    back the entry the table already has.  In particular it does not
    restore a chain that [configureChain] has overwritten. *)
Theorem usePresetChain_changes_nothing (name : string) (chains : gmap string ChainConfig) :
  (forall chains', usePresetChain ChainConfig name chains = Ok chains' -> chains' = chains) /\
  (getChainConfig ChainConfig name chains = None <->
   usePresetChain ChainConfig name chains = Throw ("Unknown preset chain: " +:+ name)) /\
  (forall custom,
     usePresetChain ChainConfig name (configureChain ChainConfig name custom chains)
     = Ok (configureChain ChainConfig name custom chains) /\
     getChainConfig ChainConfig name (configureChain ChainConfig name custom chains)
     = Some custom).
Proof.
  unfold usePresetChain, getPresetChain, getChainConfig, configureChain.
  split; [| split].
  - intros chains'. destruct (chains !! name) as [preset |] eqn:E; [| discriminate].
    intros [= <-]. now apply insert_id.
  - destruct (chains !! name); split; try discriminate; reflexivity.
  - intros custom. rewrite lookup_insert_eq. split; [| reflexivity].
    now rewrite insert_insert_eq.
Qed.

End ChainProperties.

(** ** More on [signMessage] *)
Section SignMessageProperties.
Import JS Wire Lib Vocabulary Service Legacy.

Lemma signMessage_without_key {W} (env : Env W) messageHash keyshares threshold publicKey :
  truthy publicKey = None ->
  returns_only env (fun res => sig_v res = 27)
    (signMessage messageHash keyshares threshold publicKey).
Proof.
  intros Hkey. unfold signMessage.
  apply returns_only_try_catch; [| intros msg w; exact I].
  destruct (length keyshares <? threshold)%nat; [intros w; exact I |].
  do 8 (apply returns_only_any_ebind; intros ?).
  match goal with
  | |- returns_only _ _ (match ?x with _ => _ end) =>
      destruct x as [| [| r_bytes [| s_bytes rest]] sigs]; try (intros w; exact I)
  end.
  rewrite Hkey.
  apply (returns_only_ebind env (fun v => v = 27)).
  - intros w. reflexivity.
  - intros v Hv w. exact Hv.
Qed.

(** X10. Without a public key ([undefined], or the empty string, which
    JavaScript takes for false) every signature [signMessage] returns
    carries [v = 27]; so does every signature of [signMessageLegacy], which
    passes no public key. *)
Theorem signMessage_without_public_key_reports_v_27
    {W : Type} (env : Env W) (messageHash : list byte) :
  (forall keyshares threshold publicKey w res,
     publicKey = None \/ publicKey = Some "" ->
     (run env (signMessage messageHash keyshares threshold publicKey) w).1 = Ok res ->
     sig_v res = 27) /\
  (forall serverShareData backupShareData w res,
     (run env (signMessageLegacy messageHash serverShareData backupShareData) w).1 = Ok res ->
     sig_v res = 27).
Proof.
  split.
  - intros keyshares threshold publicKey w res Hkey Hres.
    assert (truthy publicKey = None) as Htr by (destruct Hkey as [-> | ->]; reflexivity).
    pose proof (signMessage_without_key env messageHash keyshares threshold publicKey
                  Htr w) as H.
    unfold holds in H. rewrite Hres in H. exact H.
  - intros serverShareData backupShareData w res Hres.
    assert (returns_only env (fun res => sig_v res = 27)
              (signMessageLegacy messageHash serverShareData backupShareData)) as H.
    { unfold signMessageLegacy. do 4 (apply returns_only_any_ebind; intros ?).
      now apply signMessage_without_key. }
    specialize (H w). unfold holds in H. rewrite Hres in H. exact H.
Qed.

(** X11. Every error [signMessage] throws is wrapped: its message starts with
    'Failed to sign message: '.  With fewer keyshares than the threshold the
    cause is 'Insufficient keyshares: need T, got N', and no library call
    is made. *)
Theorem signMessage_wraps_every_error
    {W : Type} (env : Env W) (w : W) (messageHash : list byte)
    (keyshares : list nat) (threshold : nat) (publicKey : option string) :
  (forall msg,
     (run env (signMessage messageHash keyshares threshold publicKey) w).1 = Throw msg ->
     exists cause, msg = "Failed to sign message: " +:+ cause) /\
  ((length keyshares < threshold)%nat ->
   run env (signMessage messageHash keyshares threshold publicKey) w
   = (Throw ("Failed to sign message: Insufficient keyshares: need "
             +:+ Elliptic.show_nat threshold +:+ ", got "
             +:+ Elliptic.show_nat (length keyshares)), w) /\
   history env (signMessage messageHash keyshares threshold publicKey) w = []).
Proof.
  split.
  - intros msg. unfold signMessage, try_catch. rewrite run_pbind.
    destruct (run env _ w).1 as [res | cause]; cbn [run fst throw].
    + intros H; discriminate H.
    + intros [= <-]. eauto.
  - intros Hlt. apply Nat.ltb_lt in Hlt. unfold signMessage. rewrite Hlt.
    split; reflexivity.
Qed.

(** X14. [serializeKeyshares] only reads: against a library that honours the
    keyshare contract and whose base64 codec touches no keyshare, every
    keyshare object is after the call as it was before, whether the call
    returns or throws; and the strings it returns are, position by
    position, the codec's text of the bytes [toBytes] gave. *)
Theorem serializeKeyshares_only_reads
    {W K : Type} (env : Env W) (view : W -> nat -> option K)
    (keyshares : list nat) (w : W) :
  (forall ks w' h, view (env _ (KeyshareToBytes ks) w').2 h = view w' h) ->
  (forall b w' h, view (env _ (Base64Encode b) w').2 h = view w' h) ->
  (forall h, view (run env (serializeKeyshares keyshares) w).2 h = view w h) /\
  (forall out, (run env (serializeKeyshares keyshares) w).1 = Ok out ->
     Forall2 (fun ks data => exists b,
                event (KeyshareToBytes ks) (Ok b)
                  ∈ history env (serializeKeyshares keyshares) w /\
                event (Base64Encode b) (Ok data)
                  ∈ history env (serializeKeyshares keyshares) w)
       keyshares out).
Proof.
  intros Hread Hcodec. split.
  - assert (Vocabulary.preserves env (fun w' => forall h, view w' h = view w h)
              (serializeKeyshares keyshares)) as Hp.
    { apply preserves_mapM. intros ks _. apply preserves_ebind.
      - apply preserves_call. intros w' Hw' h. now rewrite Hread.
      - intros b. apply preserves_call. intros w' Hw' h. now rewrite Hcodec. }
    specialize (Hp w (fun h => eq_refl)). unfold holds in Hp.
    destruct (run env (serializeKeyshares keyshares) w).1; exact Hp.
  - intros out Hout. unfold serializeKeyshares, mapM in *.
    apply (mapM_from_related env
             (fun ks (_ : nat) =>
                let* bytes := call (KeyshareToBytes ks) in call (Base64Encode bytes))
             (fun ks data h => exists b,
                event (KeyshareToBytes ks) (Ok b) ∈ h /\
                event (Base64Encode b) (Ok data) ∈ h)).
    + intros a b h h' (x & H1 & H2) Hsub. exists x. split; now apply Hsub.
    + intros ks idx w0 data.
      rewrite run_ebind, history_ebind, run_call, history_call.
      destruct (env _ (KeyshareToBytes ks) w0) as [[b | msg] w1]; cbn [fst snd];
        [| discriminate].
      rewrite run_call, history_call. intros Hd. exists b. split.
      * apply elem_of_cons. now left.
      * apply elem_of_cons. right. rewrite Hd. apply elem_of_cons. now left.
    + exact Hout.
Qed.

End SignMessageProperties.

Lemma serializeKeyshares_only_reads_witness :
  (forall h,
     (Lib.run (StubCodec.env "0x00") (Legacy.serializeKeyshares [0; 1]%nat)
        Stub.two_shares).2 !! h
     = Stub.two_shares !! h) /\
  (forall out,
     (Lib.run (StubCodec.env "0x00") (Legacy.serializeKeyshares [0; 1]%nat)
        Stub.two_shares).1 = Ok out ->
     Forall2 (fun ks data => exists b,
                Lib.event (Lib.KeyshareToBytes ks) (Ok b)
                  ∈ Lib.history (StubCodec.env "0x00")
                      (Legacy.serializeKeyshares [0; 1]%nat) Stub.two_shares /\
                Lib.event (Lib.Base64Encode b) (Ok data)
                  ∈ Lib.history (StubCodec.env "0x00")
                      (Legacy.serializeKeyshares [0; 1]%nat) Stub.two_shares)
       [0; 1]%nat out).
Proof.
  apply (serializeKeyshares_only_reads (StubCodec.env "0x00") (fun w h => w !! h)
           [0; 1]%nat Stub.two_shares).
  - intros ks w' h. cbn. now destruct (w' !! ks).
  - intros b w' h. reflexivity.
Defined.

(** ** More on [executeDKG] *)
Section KeygenProperties.
Import JS Wire Lib Vocabulary Service.

Lemma ebind_ok_inv {W A B} (env : Env W) (m : E A) (f : A -> E B) w b :
  (run env (ebind m f) w).1 = Ok b ->
  exists a, (run env m w).1 = Ok a /\ (run env (f a) (run env m w).2).1 = Ok b.
Proof.
  rewrite run_ebind. destruct (run env m w).1 as [a | msg]; [eauto | discriminate].
Qed.

(** Step into the continuation of a [let*] of a run that returned. *)
Ltac descend_ok Hrun Hinc a :=
  let R := fresh "R" in
  apply ebind_ok_inv in Hrun as (a & R & Hrun);
  lazymatch type of Hinc with
  | Lib.history ?env (Lib.ebind ?m ?f) ?w ⊆ _ =>
      let Hs := fresh "Hs" in
      pose proof (history_ebind_subseteq_r env m f w _ R) as Hs;
      let Hn := fresh "Hinc" in
      pose proof (transitivity Hs Hinc) as Hn; clear Hs Hinc; rename Hn into Hinc
  end;
  clear R;
  match type of Hrun with
  | (Lib.run _ _ ?w').1 = _ => generalize dependent w'; intros ? Hrun Hinc
  end.

(** X12. When [executeDKG] returns, it returns one keyshare per party, in
    the order of the parties: the i-th result is what the i-th session
    answered to [keyshare()] in this run. *)
Theorem executeDKG_returns_the_keyshares_in_party_order
    {W : Type} (env : Env W) (w : W) (parties keyshares : list nat) :
  (run env (executeDKG parties) w).1 = Ok keyshares ->
  length keyshares = length parties /\
  Forall2 (fun p k => event (KeygenKeyshare p) (Ok k)
                      ∈ history env (executeDKG parties) w) parties keyshares.
Proof.
  intros Hrun.
  remember (history env (executeDKG parties) w) as Hall eqn:EH.
  assert (Hinc : history env (executeDKG parties) w ⊆ Hall) by now rewrite EH.
  clear EH. unfold executeDKG in Hrun, Hinc.
  descend_ok Hrun Hinc msg1. descend_ok Hrun Hinc msg2.
  descend_ok Hrun Hinc raws. descend_ok Hrun Hinc msg3.
  descend_ok Hrun Hinc msg4. descend_ok Hrun Hinc u.
  pose proof (mapM_from_answers env (fun p _ => KeygenKeyshare p) parties 0 _ _ Hrun) as HA.
  assert (Forall2 (fun p k => event (KeygenKeyshare p) (Ok k) ∈ Hall) parties keyshares)
    as HF.
  { eapply Forall2_impl; [exact HA |]. intros p k [i Hi]. now apply Hinc. }
  split; [symmetry; exact (Forall2_length _ _ _ HF) | exact HF].
Qed.

End KeygenProperties.

Lemma executeDKG_returns_the_keyshares_in_party_order_witness :
  length [0; 1; 2]%nat = length [5; 6; 7]%nat /\
  Forall2 (fun p k => Lib.event (Lib.KeygenKeyshare p) (Ok k)
                      ∈ Lib.history (Stub.env "0x00") (Service.executeDKG [5; 6; 7]%nat) ∅)
    [5; 6; 7]%nat [0; 1; 2]%nat.
Proof.
  apply (executeDKG_returns_the_keyshares_in_party_order (Stub.env "0x00") ∅
           [5; 6; 7]%nat [0; 1; 2]%nat).
  reflexivity.
Defined.
